(** * kaspad consensus core: GHOSTDAG data, block locator, script
      signature hashing, sig-op counting and the UTXO iterator with diff.

    A shallow embedding of the Go sources, package by package, followed by
    the properties of the specification that concern them. *)

From Stdlib Require Import ZArith NArith Lia List Bool String.
From stdpp Require Import base option list gmap.

(** A hash is an opaque 32-byte identifier; the bytes are read as one
    number so that the numeric order is the order on hashes. *)
Abbreviation Hash := N (only parsing).

(** [DomainHash{b}] of the Go tests: first byte [b], all others zero. *)
Definition DomainHashOfByte (b : N) : Hash := (b * 2 ^ 248)%N.

(** Unsigned 64-bit wrap-around of Go's [uint64] arithmetic. *)
Definition wrap64 (z : Z) : Z := (z mod 2 ^ 64)%Z.

(* ===================================================================== *)
(** * GHOSTDAG data, the stores of [TestGHOSTDA], and the engine          *)
(* ===================================================================== *)
Module Ghostdag.
Local Open Scope Z_scope.

(** [model.BlockGHOSTDAGData]: the fields the fixtures of [TestGHOSTDA]
    set, and [BlueWork] of the data model of the specification
    ("{blueScore, blueWork, selectedParent, mergeSetBlues, mergeSetReds,
    bluesAnticoneSizes}"). *)
Record BlockGHOSTDAGData := mkBlockGHOSTDAGData {
  BlueScore : Z;
  BlueWork : Z;
  SelectedParent : option Hash;
  MergeSetBlues : list Hash;
  MergeSetReds : list Hash;
  BluesAnticoneSizes : gmap Hash Z
}.

(** [GHOSTDAGDataStoreImpl]: [dagMap], with [Stage] and [Get]. *)
Definition Stage (dagMap : gmap Hash BlockGHOSTDAGData) (blockHash : Hash)
    (blockGHOSTDAGData : BlockGHOSTDAGData) : gmap Hash BlockGHOSTDAGData :=
  <[blockHash := blockGHOSTDAGData]> dagMap.

Definition Get (dagMap : gmap Hash BlockGHOSTDAGData) (blockHash : Hash)
    : option BlockGHOSTDAGData :=
  dagMap !! blockHash.

(** [DAGTopologyManagerImpl.Parents]: an unknown block has no parents. *)
Definition Parents (parentsMap : gmap Hash (list Hash)) (blockHash : Hash)
    : list Hash :=
  match parentsMap !! blockHash with
  | Some blockData => blockData
  | None => []
  end.

(** The fixtures of [TestGHOSTDA]: [genesisHash := &DomainHash{}] and the
    GHOSTDAG data staged for it before any block is added. *)
Definition genesisHash : Hash := DomainHashOfByte 0.

Definition genesisGHOSTDAGData : BlockGHOSTDAGData :=
  {| BlueScore := 1;
     BlueWork := 0;
     SelectedParent := None;
     MergeSetBlues := [];
     MergeSetReds := [];
     BluesAnticoneSizes := ∅ |}.

Definition initialParentsMap : gmap Hash (list Hash) :=
  <[genesisHash := []]> ∅.

Definition initialDagMap : gmap Hash BlockGHOSTDAGData :=
  <[genesisHash := genesisGHOSTDAGData]> ∅.

(** [testGhostdagData] and [isolatedTest] of [TestGHOSTDA]. *)
Record testGhostdagData := mkTest {
  hash : Hash;
  parents : list Hash;
  expectedBlueScore : Z;
  expectedSelectedParent : Hash;
  expectedMergeSetBlues : list Hash;
  expectedMergeSetReds : list Hash
}.

Record isolatedTest := mkIsolated {
  k : Z;
  subTests : list testGhostdagData
}.

(** [&externalapi.DomainHash{b}]. *)
Definition blk (b : N) : Hash := DomainHashOfByte b.

(** Test 1: the graph is a chain, K = 0. *)
Definition dag1 : isolatedTest := mkIsolated 0
  [ mkTest (blk 1) [genesisHash] 2 genesisHash [genesisHash] [];
    mkTest (blk 2) [blk 1] 3 (blk 1) [blk 1] [];
    mkTest (blk 3) [blk 2] 4 (blk 2) [blk 2] [] ].

(** Test 2: the longest chain was built by malicious miners, K = 3. *)
Definition dag2 : isolatedTest := mkIsolated 3
  [ mkTest (blk 1) [genesisHash] 2 genesisHash [genesisHash] [];
    mkTest (blk 2) [blk 1] 3 (blk 1) [blk 1] [];
    mkTest (blk 3) [blk 1] 3 (blk 1) [blk 1] [];
    mkTest (blk 4) [blk 1] 3 (blk 1) [blk 1] [];
    mkTest (blk 5) [blk 2; blk 3; blk 4] 6 (blk 4) [blk 4; blk 2; blk 3] [];
    mkTest (blk 6) [genesisHash] 2 genesisHash [genesisHash] [];
    mkTest (blk 7) [blk 6] 3 (blk 6) [blk 6] [];
    mkTest (blk 8) [blk 7] 4 (blk 7) [blk 7] [];
    mkTest (blk 9) [blk 8] 5 (blk 8) [blk 8] [];
    mkTest (blk 10) [blk 5; blk 9] 7 (blk 5) [blk 5] [blk 6; blk 7; blk 8; blk 9] ].

(** Test 3: selected parent choice, same score, decided by hashes, K = 3. *)
Definition dag3 : isolatedTest := mkIsolated 3
  [ mkTest (blk 1) [genesisHash] 2 genesisHash [genesisHash] [];
    mkTest (blk 2) [blk 1] 3 (blk 1) [blk 1] [];
    mkTest (blk 3) [blk 1] 3 (blk 1) [blk 1] [];
    mkTest (blk 4) [blk 1] 3 (blk 1) [blk 1] [];
    mkTest (blk 5) [blk 2; blk 3; blk 4] 6 (blk 4) [blk 4; blk 2; blk 3] [];
    mkTest (blk 6) [blk 5] 7 (blk 5) [blk 5] [] ].

(** Test 4: a non-empty set of reds, K = 1. *)
Definition dag4 : isolatedTest := mkIsolated 1
  [ mkTest (blk 1) [genesisHash] 2 genesisHash [genesisHash] [];
    mkTest (blk 2) [blk 1] 3 (blk 1) [blk 1] [];
    mkTest (blk 3) [genesisHash] 2 genesisHash [genesisHash] [];
    mkTest (blk 4) [blk 2; blk 3] 4 (blk 2) [blk 2] [blk 3] ].

(** Test 5: a candidate that would break the K-cluster of a blue block off
    the selected chain, K = 2. *)
Definition dag5 : isolatedTest := mkIsolated 2
  [ mkTest (blk 1) [genesisHash] 2 genesisHash [genesisHash] [];
    mkTest (blk 2) [genesisHash] 2 genesisHash [genesisHash] [];
    mkTest (blk 5) [blk 1] 3 (blk 1) [blk 1] [];
    mkTest (blk 4) [blk 2] 3 (blk 2) [blk 2] [];
    mkTest (blk 3) [blk 2] 3 (blk 2) [blk 2] [];
    mkTest (blk 7) [blk 3; blk 5] 6 (blk 5) [blk 5; blk 2; blk 3] [];
    mkTest (blk 6) [blk 5; blk 4] 6 (blk 5) [blk 5; blk 2; blk 4] [];
    mkTest (blk 8) [blk 3] 4 (blk 3) [blk 3] [];
    mkTest (blk 9) [blk 6; blk 7; blk 8] 7 (blk 7) [blk 7] [blk 4; blk 8; blk 6] ].

(** Test 6: a candidate that would break the K-cluster of a blue block on
    the selected chain, K = 3. *)
Definition dag6 : isolatedTest := mkIsolated 3
  [ mkTest (blk 1) [genesisHash] 2 genesisHash [genesisHash] [];
    mkTest (blk 2) [genesisHash] 2 genesisHash [genesisHash] [];
    mkTest (blk 3) [genesisHash] 2 genesisHash [genesisHash] [];
    mkTest (blk 4) [genesisHash] 2 genesisHash [genesisHash] [];
    mkTest (blk 6) [blk 1; blk 2; blk 3; blk 4] 6 (blk 4) [blk 4; blk 1; blk 2; blk 3] [];
    mkTest (blk 5) [blk 1; blk 2; blk 3] 5 (blk 3) [blk 3; blk 1; blk 2] [];
    mkTest (blk 7) [blk 5; blk 6] 7 (blk 6) [blk 6] [blk 5] ].

Definition testsArr : list isolatedTest := [dag1; dag2; dag3; dag4; dag5; dag6].

(** ** The engine

    The package [ghostdagmanager] that [TestGHOSTDA] drives is known only
    through that test; its steps are taken from the specification. *)
Section Engine.

(** Modelled from the spec: [work = 2^256 / (target+1)] of a block; the
    headers that carry the target are missing, so the work of a block is
    a parameter. *)
Variable work : Hash -> Z.

(** Modelled from the spec: steps 2 and 3 of the engine, the ordered
    merge set of the block and its colouring under the k-cluster rule,
    are missing; the engine receives them as one function from the
    topology, the store, the block, its selected parent and its parents
    to the blue blocks, the red blocks and the anticone sizes. *)
Variable colourMergeSet :
  gmap Hash (list Hash) -> gmap Hash BlockGHOSTDAGData ->
  Hash -> Hash -> list Hash -> list Hash * list Hash * gmap Hash Z.

(** Modelled from the spec: the order behind "pick the parent maximising
    blueWork", missing with [ghostdagmanager]. Block [a] ranks below
    block [b] when its blue work is smaller; at equal blue work the
    hashes decide, and the expectations of [TestGHOSTDA] (block 5 of
    tests 2 and 3, "highest hash tie-break" in the scenarios) fix the
    direction: the lower hash ranks below. *)
Definition less (dagMap : gmap Hash BlockGHOSTDAGData) (a b : Hash)
    : option bool :=
  match dagMap !! a, dagMap !! b with
  | Some dataA, Some dataB =>
      Some (if BlueWork dataA =? BlueWork dataB
            then (a <? b)%N
            else BlueWork dataA <? BlueWork dataB)
  | _, _ => None
  end.

(** Modelled from the spec: step 1, "pick the parent in P maximising
    blueWork", as one pass over the parents that keeps the best one seen
    so far; missing with [ghostdagmanager]. *)
Fixpoint chooseSelectedParent (dagMap : gmap Hash BlockGHOSTDAGData)
    (selectedParent : Hash) (blockHashes : list Hash) : option Hash :=
  match blockHashes with
  | [] => Some selectedParent
  | blockHash :: rest =>
      match less dagMap selectedParent blockHash with
      | None => None
      | Some true => chooseSelectedParent dagMap blockHash rest
      | Some false => chooseSelectedParent dagMap selectedParent rest
      end
  end.

Definition findSelectedParent (dagMap : gmap Hash BlockGHOSTDAGData)
    (blockParents : list Hash) : option Hash :=
  match blockParents with
  | [] => None
  | first :: rest => chooseSelectedParent dagMap first rest
  end.

Definition sumWork (blues : list Hash) : Z :=
  fold_right (fun b acc => work b + acc) 0 blues.

(** Modelled from the spec: [GHOSTDAG(blockHash)], steps 1 to 5, for a
    newly connected block; missing with [ghostdagmanager]. [None] is the
    error of a block without parents or with a parent that has no data
    in the store. *)
Definition GHOSTDAG (parentsMap : gmap Hash (list Hash))
    (dagMap : gmap Hash BlockGHOSTDAGData) (blockHash : Hash)
    : option (gmap Hash BlockGHOSTDAGData) :=
  let blockParents := Parents parentsMap blockHash in
  match findSelectedParent dagMap blockParents with
  | None => None
  | Some selectedParent =>
      match Get dagMap selectedParent with
      | None => None
      | Some selectedParentData =>
          let '(blues, reds, sizes) :=
            colourMergeSet parentsMap dagMap blockHash selectedParent blockParents in
          Some (Stage dagMap blockHash
            {| BlueScore := BlueScore selectedParentData + Z.of_nat (length blues);
               BlueWork := BlueWork selectedParentData + sumWork blues;
               SelectedParent := Some selectedParent;
               MergeSetBlues := blues;
               MergeSetReds := reds;
               BluesAnticoneSizes := sizes |})
      end
  end.

End Engine.

(** The body of the loop of [TestGHOSTDA] over the sub-tests of one test:
    set the parents, run the engine, read the data back and compare it with
    the expectations. The result is the pair of stores when all four
    comparisons succeed. *)
Definition checkSubTest
    (engine : gmap Hash (list Hash) -> gmap Hash BlockGHOSTDAGData -> Hash ->
              option (gmap Hash BlockGHOSTDAGData))
    (st : gmap Hash (list Hash) * gmap Hash BlockGHOSTDAGData)
    (testBlockData : testGhostdagData)
    : option (gmap Hash (list Hash) * gmap Hash BlockGHOSTDAGData) :=
  let parentsMap := <[hash testBlockData := parents testBlockData]> (fst st) in
  match engine parentsMap (snd st) (hash testBlockData) with
  | None => None
  | Some dagMap =>
      match Get dagMap (hash testBlockData) with
      | None => None
      | Some ghostdagData =>
          if (expectedBlueScore testBlockData =? BlueScore ghostdagData)
             && bool_decide (Some (expectedSelectedParent testBlockData)
                             = SelectedParent ghostdagData)
             && bool_decide (expectedMergeSetBlues testBlockData
                             = MergeSetBlues ghostdagData)
             && bool_decide (expectedMergeSetReds testBlockData
                             = MergeSetReds ghostdagData)
          then Some (parentsMap, dagMap)
          else None
      end
  end.

Fixpoint runSubTests
    (engine : gmap Hash (list Hash) -> gmap Hash BlockGHOSTDAGData -> Hash ->
              option (gmap Hash BlockGHOSTDAGData))
    (st : gmap Hash (list Hash) * gmap Hash BlockGHOSTDAGData)
    (tests : list testGhostdagData)
    : option (gmap Hash (list Hash) * gmap Hash BlockGHOSTDAGData) :=
  match tests with
  | [] => Some st
  | t :: rest =>
      match checkSubTest engine st t with
      | None => None
      | Some st' => runSubTests engine st' rest
      end
  end.

(** Every block of the tests has the same work. *)
Definition unitWork : Hash -> Z := fun _ => 1.

(** The colouring the expectations of a test prescribe, used to drive the
    engine through the test DAGs without the missing k-cluster code. *)
Definition expectedColouring (tests : list testGhostdagData)
    (_ : gmap Hash (list Hash)) (_ : gmap Hash BlockGHOSTDAGData)
    (blockHash _ : Hash) (_ : list Hash) : list Hash * list Hash * gmap Hash Z :=
  match find (fun t => (hash t =? blockHash)%N) tests with
  | Some t => (expectedMergeSetBlues t, expectedMergeSetReds t, ∅)
  | None => ([], [], ∅)
  end.

Definition runTest (test : isolatedTest)
    : option (gmap Hash (list Hash) * gmap Hash BlockGHOSTDAGData) :=
  runSubTests (GHOSTDAG unitWork (expectedColouring (subTests test)))
    (initialParentsMap, initialDagMap) (subTests test).

(** The colouring of a DAG that is a chain: the merge set of a block is
    its only parent, and it is blue. *)
Definition chainColouring
    (_ : gmap Hash (list Hash)) (_ : gmap Hash BlockGHOSTDAGData)
    (_ selectedParent : Hash) (_ : list Hash) : list Hash * list Hash * gmap Hash Z :=
  ([selectedParent], [], ∅).

(** The invariant of the data model on a store: a block with a selected
    parent has the blue score of that parent plus the number of its merge
    set blues. *)
Definition blueScoreInvariant (dagMap : gmap Hash BlockGHOSTDAGData) : Prop :=
  forall (b : Hash) (d : BlockGHOSTDAGData),
    dagMap !! b = Some d ->
    SelectedParent d <> None ->
    exists (p : Hash) (dp : BlockGHOSTDAGData),
      SelectedParent d = Some p /\
      dagMap !! p = Some dp /\
      BlueScore d = BlueScore dp + Z.of_nat (length (MergeSetBlues d)).

(** "Ties broken by lower hash", for the parent [chosen] among [parents]:
    no parent with the blue work of the chosen one has a lower hash. *)
Definition tieBrokenByLowerHash (dagMap : gmap Hash BlockGHOSTDAGData)
    (parents : list Hash) (chosen : Hash) : Prop :=
  forall (q : Hash) (dq dc : BlockGHOSTDAGData),
    In q parents -> dagMap !! q = Some dq -> dagMap !! chosen = Some dc ->
    BlueWork dq = BlueWork dc -> (chosen <= q)%N.

(** The same with the higher hash. *)
Definition tieBrokenByHigherHash (dagMap : gmap Hash BlockGHOSTDAGData)
    (parents : list Hash) (chosen : Hash) : Prop :=
  forall (q : Hash) (dq dc : BlockGHOSTDAGData),
    In q parents -> dagMap !! q = Some dq -> dagMap !! chosen = Some dc ->
    BlueWork dq = BlueWork dc -> (q <= chosen)%N.

(** The chosen parent maximises the blue work among the parents. *)
Definition maximisesBlueWork (dagMap : gmap Hash BlockGHOSTDAGData)
    (parents : list Hash) (chosen : Hash) : Prop :=
  In chosen parents /\
  forall (q : Hash) (dq dc : BlockGHOSTDAGData),
    In q parents -> dagMap !! q = Some dq -> dagMap !! chosen = Some dc ->
    BlueWork dq <= BlueWork dc.

(** [a] does not rank above [b]: smaller blue work, or equal blue work and
    a hash that is not higher. *)
Definition rankLe (dagMap : gmap Hash BlockGHOSTDAGData) (a b : Hash) : Prop :=
  forall da db, dagMap !! a = Some da -> dagMap !! b = Some db ->
    BlueWork da < BlueWork db \/ (BlueWork da = BlueWork db /\ (a <= b)%N).

(** The store [TestGHOSTDA] has built when it reaches block 5 of test 2,
    the first block with several parents. *)
Definition dag2BeforeBlock5 : gmap Hash BlockGHOSTDAGData :=
  match runSubTests (GHOSTDAG unitWork (expectedColouring (subTests dag2)))
          (initialParentsMap, initialDagMap) (take 4 (subTests dag2)) with
  | Some (_, dagMap) => dagMap
  | None => ∅
  end.

(** The blue score [TestGHOSTDA] expects for a block of a test, and the
    one of its fixture for genesis. *)
Definition expectedScore (tests : list testGhostdagData) (h : Hash) : option Z :=
  if (h =? genesisHash)%N then Some (BlueScore genesisGHOSTDAGData)
  else
    match find (fun t => (hash t =? h)%N) tests with
    | Some t => Some (expectedBlueScore t)
    | None => None
    end.

(** The expectations for one block satisfy the equation of the invariant:
    the expected blue score is the expected blue score of the expected
    selected parent plus the number of expected merge set blues. *)
Definition expectationSatisfiesInvariant (tests : list testGhostdagData)
    (t : testGhostdagData) : bool :=
  match expectedScore tests (expectedSelectedParent t) with
  | Some s => expectedBlueScore t =? s + Z.of_nat (length (expectedMergeSetBlues t))
  | None => false
  end.

(** The engine run on a list of newly connected blocks, one after the
    other; [None] when a block is already in the store or [GHOSTDAG]
    fails. *)
Fixpoint addBlocks (work : Hash -> Z)
    (colourMergeSet : gmap Hash (list Hash) -> gmap Hash BlockGHOSTDAGData ->
                      Hash -> Hash -> list Hash ->
                      list Hash * list Hash * gmap Hash Z)
    (parentsMap : gmap Hash (list Hash))
    (dagMap : gmap Hash BlockGHOSTDAGData) (blocks : list Hash)
    : option (gmap Hash BlockGHOSTDAGData) :=
  match blocks with
  | [] => Some dagMap
  | b :: rest =>
      match dagMap !! b with
      | Some _ => None
      | None =>
          match GHOSTDAG work colourMergeSet parentsMap dagMap b with
          | Some dagMap' => addBlocks work colourMergeSet parentsMap dagMap' rest
          | None => None
          end
      end
  end.

(** [DAGTopologyManagerImpl.IsAncestorOf]: a recursion over the parents
    map, bounded by [fuel] nested calls; [None] when they were not
    enough. The first loop looks for [hashBlockA] among the parents of
    [hashBlockB], the second asks every parent in turn. *)
Fixpoint IsAncestorOf (fuel : nat) (parentsMap : gmap Hash (list Hash))
    (hashBlockA hashBlockB : Hash) : option bool :=
  match fuel with
  | O => None
  | S fuel' =>
      match parentsMap !! hashBlockB with
      | None => Some false
      | Some blockBParents =>
          if existsb (fun parentOfB => (parentOfB =? hashBlockA)%N) blockBParents
          then Some true
          else
            (fix loop (rest : list Hash) : option bool :=
               match rest with
               | [] => Some false
               | parentOfB :: rest' =>
                   match IsAncestorOf fuel' parentsMap hashBlockA parentOfB with
                   | None => None
                   | Some true => Some true
                   | Some false => loop rest'
                   end
               end) blockBParents
      end
  end.

(** [ancestor parentsMap a b]: a path of one or more parent links of
    [parentsMap] leads from [b] to [a]. *)
Inductive ancestor (parentsMap : gmap Hash (list Hash)) (a : Hash)
    : Hash -> Prop :=
  | ancestor_parent b ps :
      parentsMap !! b = Some ps -> In a ps -> ancestor parentsMap a b
  | ancestor_step b ps p :
      parentsMap !! b = Some ps -> In p ps -> ancestor parentsMap a p ->
      ancestor parentsMap a b.

End Ghostdag.

(* ===================================================================== *)
(** * Package [blocklocator]                                              *)
(* ===================================================================== *)
Module BlockLocator.
Local Open Scope Z_scope.

(** [blocknode.BlockNode], as far as the locator reads it: [Hash()],
    [BlueScore()] (a [uint64]) and [SelectedParent()] (a node pointer, nil
    for genesis). *)
#[warnings="-register-all"]
Inductive BlockNode : Type :=
  mkBlockNode (nodeHash : Hash) (nodeBlueScore : Z)
              (nodeSelectedParent : option BlockNode).

Definition Hash_ (node : BlockNode) : Hash :=
  match node with mkBlockNode h _ _ => h end.

Definition BlueScore (node : BlockNode) : Z :=
  match node with mkBlockNode _ s _ => s end.

Definition SelectedParent (node : BlockNode) : option BlockNode :=
  match node with mkBlockNode _ _ p => p end.

(** [node != lowNode] compares two pointers into the node store, which
    keeps one node per hash: the pointers differ exactly when the hashes
    do. *)
Definition sameNode (a b : BlockNode) : bool := (Hash_ a =? Hash_ b)%N.

(** Modelled from the spec: [SelectedAncestor] of package [blocknode],
    which is missing: "walk the selected-parent chain from b until a node
    with blueScore <= target is reached; returns that node"; nil when the
    chain ends before. *)
Fixpoint SelectedAncestor (node : BlockNode) (blueScore : Z) : option BlockNode :=
  match node with
  | mkBlockNode _ s p =>
      if s <=? blueScore then Some node
      else match p with
           | Some parent => SelectedAncestor parent blueScore
           | None => None
           end
  end.

Inductive locatorError : Type :=
  | ErrUnknownBlock (h : Hash)
  | ErrNotInSameSelectedParentChain.

(** The variables of the loop of [blockLocator]. *)
Record loopState := mkLoopState {
  node : option BlockNode;
  step : Z;
  locator : list Hash
}.

(** One iteration of [for node != nil { ... }]: either the next state of
    the loop or what [blockLocator] returns. *)
Definition loopBody (lowNode : BlockNode) (st : loopState)
    : loopState + (locatorError + list Hash) :=
  match node st with
  | None => inr (inr (locator st))
  | Some n =>
      let locator' := locator st ++ [Hash_ n] in
      if BlueScore n <=? BlueScore lowNode then
        if negb (sameNode n lowNode)
        then inr (inl ErrNotInSameSelectedParentChain)
        else inr (inr locator')
      else
        let nextBlueScore := wrap64 (BlueScore n - step st) in
        let nextBlueScore :=
          if nextBlueScore <? BlueScore lowNode
          then BlueScore lowNode else nextBlueScore in
        inl {| node := SelectedAncestor n nextBlueScore;
               step := wrap64 (step st * 2);
               locator := locator' |}
  end.

(** The loop, bounded by [fuel] iterations; [None] when the loop is still
    running after that many. *)
Fixpoint blockLocatorLoop (fuel : nat) (lowNode : BlockNode) (st : loopState)
    : option (locatorError + list Hash) :=
  match fuel with
  | O => None
  | S fuel' =>
      match loopBody lowNode st with
      | inl st' => blockLocatorLoop fuel' lowNode st'
      | inr r => Some r
      end
  end.

(** The state of the loop after [n] iterations, if it is still running. *)
Fixpoint loopAfter (n : nat) (lowNode : BlockNode) (st : loopState)
    : option loopState :=
  match n with
  | O => Some st
  | S n' =>
      match loopBody lowNode st with
      | inl st' => loopAfter n' lowNode st'
      | inr _ => None
      end
  end.

Definition initialState (highNode : BlockNode) : loopState :=
  {| node := SelectedParent highNode; step := 1; locator := [] |}.

Definition blockLocator (fuel : nat) (highNode lowNode : BlockNode)
    : option (locatorError + list Hash) :=
  blockLocatorLoop fuel lowNode (initialState highNode).

(** [BlockLocatorFromHashes], over the node store ([LookupNode]). *)
Definition BlockLocatorFromHashes (fuel : nat) (blockNodeStore : gmap Hash BlockNode)
    (highHash lowHash : Hash) : option (locatorError + list Hash) :=
  match blockNodeStore !! highHash with
  | None => Some (inl (ErrUnknownBlock highHash))
  | Some highNode =>
      match blockNodeStore !! lowHash with
      | None => Some (inl (ErrUnknownBlock lowHash))
      | Some lowNode => blockLocator fuel highNode lowNode
      end
  end.

(** The [for i, hash := range locator] of [FindNextLocatorBoundaries]:
    index and node of the first locator hash the store knows. *)
Fixpoint firstKnown (blockNodeStore : gmap Hash BlockNode) (locator : list Hash)
    (i : Z) : option (Z * BlockNode) :=
  match locator with
  | [] => None
  | hash :: rest =>
      match blockNodeStore !! hash with
      | Some n => Some (i, n)
      | None => firstKnown blockNodeStore rest (i + 1)
      end
  end.

(** [FindNextLocatorBoundaries]; the result is [(highHash, lowHash)] with
    [None] for a nil [highHash]. The outer [None] is the nil dereference
    of [lowNode.Hash()] when not even genesis is in the store. *)
Definition FindNextLocatorBoundaries (blockNodeStore : gmap Hash BlockNode)
    (GenesisHash : Hash) (locator : list Hash) : option (option Hash * Hash) :=
  let lowNode := blockNodeStore !! GenesisHash in
  let nextBlockLocatorIndex := Z.of_nat (length locator) - 1 in
  let '(lowNode, nextBlockLocatorIndex) :=
    match firstKnown blockNodeStore locator 0 with
    | Some (i, n) => (Some n, i - 1)
    | None => (lowNode, nextBlockLocatorIndex)
    end in
  match lowNode with
  | None => None
  | Some low =>
      if nextBlockLocatorIndex <? 0 then Some (None, Hash_ low)
      else match locator !! Z.to_nat nextBlockLocatorIndex with
           | Some h => Some (Some h, Hash_ low)
           | None => None
           end
  end.

(** The node store keeps every node under its own hash. *)
Definition storeKeyedByHash (blockNodeStore : gmap Hash BlockNode) : Prop :=
  forall (h : Hash) (n : BlockNode), blockNodeStore !! h = Some n -> Hash_ n = h.

(** A selected-parent chain [genesis -> 1 -> ... -> n]: block [i] has hash
    [i] and blue score [i]. *)
Fixpoint chainNode (n : nat) : BlockNode :=
  match n with
  | O => mkBlockNode 0%N 0 None
  | S m => mkBlockNode (N.of_nat (S m)) (Z.of_nat (S m)) (Some (chainNode m))
  end.

Fixpoint chainStore (n : nat) : gmap Hash BlockNode :=
  match n with
  | O => <[0%N := chainNode 0]> ∅
  | S m => <[N.of_nat (S m) := chainNode (S m)]> (chainStore m)
  end.

(** The same chain when genesis has blue score [1]: block [i] has blue
    score [i + 1]. *)
Fixpoint chainNodeFrom1 (n : nat) : BlockNode :=
  match n with
  | O => mkBlockNode 0%N 1 None
  | S m => mkBlockNode (N.of_nat (S m)) (Z.of_nat (S m) + 1) (Some (chainNodeFrom1 m))
  end.

(** A block [21] built on block [3] of that chain, off the chain that
    leads to block [20]; its blue score is [4]. *)
Definition sideNode : BlockNode :=
  mkBlockNode 21%N 4 (Some (chainNode 3)).

(** The hashes on the selected-parent chain of a node, the node included. *)
Fixpoint chainHashes (n : BlockNode) : list Hash :=
  match n with
  | mkBlockNode h _ p =>
      h :: match p with Some parent => chainHashes parent | None => [] end
  end.

(** The blue score at the bottom of the selected-parent chain of a node. *)
Fixpoint bottomBlueScore (n : BlockNode) : Z :=
  match n with
  | mkBlockNode _ s p =>
      match p with Some parent => bottomBlueScore parent | None => s end
  end.

(** The reading of C5 as stated, for a result with a high hash: the high
    hash is the first locator entry that is unknown, and the low hash is
    the entry immediately before it, which is known. *)
Definition firstUnknownAndItsPredecessor (blockNodeStore : gmap Hash BlockNode)
    (locator : list Hash) (highHash lowHash : Hash) : Prop :=
  exists j,
    locator !! j = Some highHash /\
    blockNodeStore !! highHash = None /\
    (forall i h, (i < j)%nat -> locator !! i = Some h ->
                 is_Some (blockNodeStore !! h)) /\
    (0 < j)%nat /\
    locator !! (j - 1)%nat = Some lowHash /\
    is_Some (blockNodeStore !! lowHash).

(** A selected-parent chain as the node store holds it: blue scores are
    [uint64] values and decrease strictly from a node to its selected
    parent. *)
Fixpoint wfChain (n : BlockNode) : Prop :=
  match n with
  | mkBlockNode _ s p =>
      0 <= s < 2 ^ 64 /\
      match p with
      | Some parent => BlueScore parent < s /\ wfChain parent
      | None => True
      end
  end.

(** [onChain low n]: the node [low] is [n] or on its selected-parent
    chain. *)
Fixpoint onChain (low n : BlockNode) : Prop :=
  low = n \/
  match n with
  | mkBlockNode _ _ (Some parent) => onChain low parent
  | mkBlockNode _ _ None => False
  end.


End BlockLocator.

(* ===================================================================== *)
(** * Package [txscript]                                                  *)
(* ===================================================================== *)
Module TxScript.
Local Open Scope Z_scope.

(** Hash type bits from the end of a signature ([SigHashType] is a
    [uint32]). *)
Definition SigHashOld : Z := 0.
Definition SigHashAll : Z := 1.
Definition SigHashNone : Z := 2.
Definition SigHashSingle : Z := 3.
Definition SigHashAnyOneCanPay : Z := 128.
Definition sigHashMask : Z := 31.

Definition MaxOpsPerScript : Z := 201.
Definition MaxPubKeysPerMultiSig : Z := 20.
Definition MaxScriptElementSize : Z := 520.

(** Modelled from the spec: [constants.MaxScriptPublicKeyVersion], which
    is missing; "currently, there is only one version", version 0. *)
Definition MaxScriptPublicKeyVersion : Z := 0.

Inductive ErrorCode : Type :=
  | ErrMalformedPush
  | ErrInvalidSigHashSingleIndex
  | ErrPubKeyFormat.

(** An error is a [scriptError] with its code or the plain error of
    [errors.Errorf]. *)
Inductive error : Type :=
  | scriptError (c : ErrorCode)
  | Errorf (msg : string).

(** An [opcode] of the table, as far as parsing and counting read it: its
    [value] and its [length] (field [opLength] here). *)
Record opcode := mkOpcode {
  value : Z;
  opLength : Z
}.

Record parsedOpcode := mkParsedOpcode {
  opcode_ : opcode;
  data : list Z
}.

(** Modelled from the spec: the opcode constants of [opcode.go], which is
    missing. They carry the usual script numbering, the one of the P2SH
    form [OP_HASH160, OP_DATA_20 <20-bytes>, OP_EQUAL] and of the script
    [76a914...88ac] in the benchmark of package [utxo]. *)
Definition Op0 : Z := 0.
Definition OpData1 : Z := 1.
Definition OpData20 : Z := 20.
Definition OpData75 : Z := 75.
Definition OpPushData1 : Z := 76.
Definition OpPushData2 : Z := 77.
Definition OpPushData4 : Z := 78.
Definition Op1 : Z := 81.
Definition Op16 : Z := 96.
Definition OpReturn : Z := 106.
Definition OpEqual : Z := 135.
Definition OpHash160 : Z := 169.
Definition OpCheckSig : Z := 172.
Definition OpCheckSigVerify : Z := 173.
Definition OpCheckMultiSig : Z := 174.
Definition OpCheckMultiSigVerify : Z := 175.

(** Modelled from the spec: the table [opcodeArray] of [opcode.go], which
    is missing: "each opcode has a fixed or length-prefixed data payload".
    [OP_DATA_n] is [n+1] bytes long, [OP_PUSHDATA1/2/4] carry a length
    prefix of 1, 2 and 4 bytes, every other opcode is one byte. *)
Definition opcodeArray (instr : Z) : opcode :=
  {| value := instr;
     opLength :=
       if (OpData1 <=? instr) && (instr <=? OpData75) then instr + 1
       else if instr =? OpPushData1 then -1
       else if instr =? OpPushData2 then -2
       else if instr =? OpPushData4 then -4
       else 1 |}.

(** [isSmallInt]: [OP_0], or [OP_1] through [OP_16]. *)
Definition isSmallInt (op : opcode) : bool :=
  if (value op =? Op0) || ((Op1 <=? value op) && (value op <=? Op16))
  then true else false.

(** [isScriptHash]. *)
Definition isScriptHash (pops : list parsedOpcode) : bool :=
  match pops with
  | [p0; p1; p2] =>
      (value (opcode_ p0) =? OpHash160) &&
      (value (opcode_ p1) =? OpData20) &&
      (value (opcode_ p2) =? OpEqual)
  | _ => false
  end.

(** [isPushOnly]. *)
Fixpoint isPushOnly (pops : list parsedOpcode) : bool :=
  match pops with
  | [] => true
  | pop :: rest =>
      if value (opcode_ pop) >? Op16 then false else isPushOnly rest
  end.

Definition malformedPush : error := scriptError ErrMalformedPush.

Definition byteAt (s : list Z) (i : nat) : Z := nth i s 0.

(** The body of the loop of [parseScriptTemplate] at [script[i:]], whose
    first byte is [instr]: the parsed opcode and the number of bytes [i]
    advances by, or the error. Every index of the source is relative to
    [i]; [uint] and [int] have 64 bits. *)
Definition parseInstr (opcodes : Z -> opcode) (rest : list Z) (instr : Z)
    : error + parsedOpcode * nat :=
  let op := opcodes instr in
  if opLength op =? 1 then inr (mkParsedOpcode op [], 1%nat)
  else if opLength op >? 1 then
    if Z.of_nat (length rest) <? opLength op then inl malformedPush
    else
      inr (mkParsedOpcode op (take (Z.to_nat (opLength op) - 1) (drop 1 rest)),
           Z.to_nat (opLength op))
  else if opLength op <? 0 then
    let off := drop 1 rest in
    if Z.of_nat (length off) <? - opLength op then inl malformedPush
    else
      let l : option Z :=
        if opLength op =? -1 then Some (byteAt off 0)
        else if opLength op =? -2 then
          Some (Z.lor (Z.shiftl (byteAt off 1) 8) (byteAt off 0))
        else if opLength op =? -4 then
          Some (Z.lor (Z.lor (Z.lor (Z.shiftl (byteAt off 3) 24)
                                    (Z.shiftl (byteAt off 2) 16))
                             (Z.shiftl (byteAt off 1) 8))
                      (byteAt off 0))
        else None in
      match l with
      | None => inl malformedPush
      | Some l =>
          let off := drop (Z.to_nat (- opLength op)) off in
          if (l >? Z.of_nat (length off)) || (l <? 0) then inl malformedPush
          else
            inr (mkParsedOpcode op (take (Z.to_nat l) off),
                 Z.to_nat (1 - opLength op + l))
      end
  else inr (mkParsedOpcode op [], 0%nat).

(** The loop of [parseScriptTemplate], [for i := 0; i < len(script); ],
    on [script[i:]]; [None] when [fuel] iterations were not enough. *)
Fixpoint parseLoop (fuel : nat) (opcodes : Z -> opcode) (rest : list Z)
    (retScript : list parsedOpcode) : option (list parsedOpcode * option error) :=
  match rest with
  | [] => Some (retScript, None)
  | instr :: _ =>
      match fuel with
      | O => None
      | S fuel' =>
          match parseInstr opcodes rest instr with
          | inl err => Some (retScript, Some err)
          | inr (pop, n) =>
              parseLoop fuel' opcodes (drop n rest) (retScript ++ [pop])
          end
      end
  end.

Definition parseScriptTemplate (script : list Z) (opcodes : Z -> opcode)
    : option (list parsedOpcode * option error) :=
  parseLoop (length script) opcodes script [].

(** [parseScript]: with [opcodeArray] each iteration consumes a byte, so
    the loop ends within [len(script)] iterations
    (see [parseScript_terminates]). *)
Definition parseScript (script : list Z) : list parsedOpcode * option error :=
  match parseScriptTemplate script opcodeArray with
  | Some r => r
  | None => ([], None)
  end.

(** [asSmallInt]. *)
Definition asSmallInt (op : opcode) : Z :=
  if value op =? Op0 then 0 else value op - (Op1 - 1).

(** The body of the loop of [getSigOpCount] at index [i]. *)
Definition sigOpStep (pops : list parsedOpcode) (precise : bool)
    (nSigs : Z) (i : nat) (pop : parsedOpcode) : Z :=
  let v := value (opcode_ pop) in
  if (v =? OpCheckSig) || (v =? OpCheckSigVerify) then nSigs + 1
  else if (v =? OpCheckMultiSig) || (v =? OpCheckMultiSigVerify) then
    match (if precise && (0 <? i)%nat then pops !! (i - 1)%nat else None) with
    | Some prev =>
        if (value (opcode_ prev) >=? Op1) && (value (opcode_ prev) <=? Op16)
        then nSigs + asSmallInt (opcode_ prev)
        else nSigs + MaxPubKeysPerMultiSig
    | None => nSigs + MaxPubKeysPerMultiSig
    end
  else nSigs.

(** [for i, pop := range pops] from index [i] on. *)
Fixpoint sigOpLoop (pops : list parsedOpcode) (precise : bool)
    (nSigs : Z) (i : nat) (rest : list parsedOpcode) : Z :=
  match rest with
  | [] => nSigs
  | pop :: rest' =>
      sigOpLoop pops precise (sigOpStep pops precise nSigs i pop) (S i) rest'
  end.

(** [getSigOpCount]. *)
Definition getSigOpCount (pops : list parsedOpcode) (precise : bool) : Z :=
  sigOpLoop pops precise 0 0%nat pops.

(** [GetSigOpCount]. *)
Definition GetSigOpCount (script : list Z) : Z :=
  getSigOpCount (fst (parseScript script)) false.

(** Modelled from the spec: [externalapi.ScriptPublicKey], whose
    declaration is missing: "scriptPublicKey:{version,script}". *)
Record ScriptPublicKey := mkScriptPublicKey {
  Script : list Z;
  Version : Z
}.

(** [IsPayToScriptHash]. *)
Definition IsPayToScriptHash (script : ScriptPublicKey) : bool :=
  match parseScript (Script script) with
  | (_, Some _) => false
  | (pops, None) => isScriptHash pops
  end.

(** [GetPreciseSigOpCount]. *)
Definition GetPreciseSigOpCount (scriptSig : list Z)
    (scriptPubKey : ScriptPublicKey) (isP2SH : bool) : Z :=
  let pops := fst (parseScript (Script scriptPubKey)) in
  if negb (isP2SH && isScriptHash pops) then getSigOpCount pops true
  else
    match parseScript scriptSig with
    | (_, Some _) => 0
    | (sigPops, None) =>
        if negb (isPushOnly sigPops) || (length sigPops =? 0)%nat then 0
        else
          match last sigPops with
          | None => 0
          | Some lastPop =>
              let shScript := data lastPop in
              if (length shScript =? 0)%nat then 0
              else getSigOpCount (fst (parseScript shScript)) true
          end
    end.

(** [IsUnspendable]. *)
Definition IsUnspendable (scriptPubKey : list Z) : bool :=
  match parseScript scriptPubKey with
  | (_, Some _) => true
  | (pops, None) =>
      match pops with
      | p0 :: _ => value (opcode_ p0) =? OpReturn
      | [] => false
      end
  end.

(** What one opcode adds to the count, given the opcode before it. *)
Definition sigOpContribution (precise : bool) (prev : option parsedOpcode)
    (pop : parsedOpcode) : Z :=
  let v := value (opcode_ pop) in
  if (v =? OpCheckSig) || (v =? OpCheckSigVerify) then 1
  else if (v =? OpCheckMultiSig) || (v =? OpCheckMultiSigVerify) then
    match prev with
    | Some p =>
        if precise && (Op1 <=? value (opcode_ p)) && (value (opcode_ p) <=? Op16)
        then asSmallInt (opcode_ p)
        else 20
    | None => 20
    end
  else 0.

(** The reading of the rule with [isSmallInt] as the test on the opcode
    before a multisig. *)
Definition sigOpContributionSmallInt (precise : bool) (prev : option parsedOpcode)
    (pop : parsedOpcode) : Z :=
  let v := value (opcode_ pop) in
  if (v =? OpCheckSig) || (v =? OpCheckSigVerify) then 1
  else if (v =? OpCheckMultiSig) || (v =? OpCheckMultiSigVerify) then
    match prev with
    | Some p =>
        if precise && isSmallInt (opcode_ p)
        then asSmallInt (opcode_ p)
        else 20
    | None => 20
    end
  else 0.

(** The sum of the contributions of the opcodes of [pops], [prev] being
    the opcode before the first of them. *)
Fixpoint sumContributions (contribution : option parsedOpcode -> parsedOpcode -> Z)
    (prev : option parsedOpcode) (pops : list parsedOpcode) : Z :=
  match pops with
  | [] => 0
  | pop :: rest =>
      contribution prev pop + sumContributions contribution (Some pop) rest
  end.


(** A pay-to-script-hash public key script for the 20-byte [scriptHash]. *)
Definition payToScriptHashScript (scriptHash : list Z) : list Z :=
  OpHash160 :: OpData20 :: scriptHash ++ [OpEqual].

(** ** Transactions in memory

    A transaction holds pointers to its inputs and outputs, and an output
    holds a pointer to its script public key. Memory maps the addresses of
    each kind of object to the object stored there. *)
Abbreviation ptr := nat (only parsing).

(** Modelled from the spec: [externalapi.DomainTransactionInput], whose
    declaration is missing: "{prevOutpoint, signatureScript, sequence}". *)
Record DomainTransactionInput := mkInput {
  PreviousOutpoint : Hash * Z;
  SignatureScript : list Z;
  Sequence : Z
}.

(** Modelled from the spec: [externalapi.DomainTransactionOutput], whose
    declaration is missing: "{value, scriptPublicKey}". Its field
    [ScriptPublicKey], [ScriptPublicKeyPtr] here, is a pointer: the
    functions of this package receive a script public key as
    [*externalapi.ScriptPublicKey]. *)
Record DomainTransactionOutput := mkOutput {
  Value : Z;
  ScriptPublicKeyPtr : ptr
}.

(** [externalapi.DomainTransaction], with the fields [shallowCopyTx]
    copies; [TxVersion] is its field [Version], and [Inputs] and [Outputs]
    are slices of pointers. *)
Record DomainTransaction := mkTx {
  TxVersion : Z;
  Inputs : list ptr;
  Outputs : list ptr;
  LockTime : Z;
  SubnetworkID : list Z;
  Gas : Z;
  PayloadHash : Hash;
  Payload : list Z
}.

Record memory := mkMemory {
  inputCells : gmap ptr DomainTransactionInput;
  outputCells : gmap ptr DomainTransactionOutput;
  scriptCells : gmap ptr ScriptPublicKey
}.

(** Computations on memory; [None] is a run-time panic (nil dereference,
    slice bounds out of range). *)
Definition M (A : Type) : Type := memory -> option (A * memory).

Definition ret {A : Type} (a : A) : M A := fun m => Some (a, m).

Definition bind {A B : Type} (c : M A) (f : A -> M B) : M B :=
  fun m => match c m with
           | Some (a, m') => f a m'
           | None => None
           end.

Definition panic {A : Type} : M A := fun _ => None.

Notation "x <- c1 ;; c2" := (bind c1 (fun x => c2))
  (at level 63, c1 at next level, right associativity).
Notation "c1 ;;; c2" := (bind c1 (fun _ => c2))
  (at level 63, right associativity).

Definition loadInput (p : ptr) : M DomainTransactionInput :=
  fun m => match inputCells m !! p with
           | Some v => Some (v, m)
           | None => None
           end.

Definition storeInput (p : ptr) (v : DomainTransactionInput) : M unit :=
  fun m => match inputCells m !! p with
           | Some _ => Some (tt, mkMemory (<[p := v]> (inputCells m))
                                          (outputCells m) (scriptCells m))
           | None => None
           end.

Definition loadOutput (p : ptr) : M DomainTransactionOutput :=
  fun m => match outputCells m !! p with
           | Some v => Some (v, m)
           | None => None
           end.

Definition storeOutput (p : ptr) (v : DomainTransactionOutput) : M unit :=
  fun m => match outputCells m !! p with
           | Some _ => Some (tt, mkMemory (inputCells m)
                                          (<[p := v]> (outputCells m)) (scriptCells m))
           | None => None
           end.

Definition loadScript (p : ptr) : M ScriptPublicKey :=
  fun m => match scriptCells m !! p with
           | Some v => Some (v, m)
           | None => None
           end.

Definition storeScript (p : ptr) (v : ScriptPublicKey) : M unit :=
  fun m => match scriptCells m !! p with
           | Some _ => Some (tt, mkMemory (inputCells m) (outputCells m)
                                          (<[p := v]> (scriptCells m)))
           | None => None
           end.

Fixpoint insertAll {V : Type} (ps : list ptr) (v : V) (cells : gmap ptr V)
    : gmap ptr V :=
  match ps with
  | [] => cells
  | p :: rest => <[p := v]> (insertAll rest v cells)
  end.

(** [make([]externalapi.DomainTransactionInput, n)]: [n] zero-valued
    inputs at addresses not in use. *)
Definition allocInputs (n : nat) : M (list ptr) :=
  fun m =>
    let ps := fresh_list n (dom (inputCells m)) in
    Some (ps, mkMemory (insertAll ps (mkInput (0%N, 0) [] 0) (inputCells m))
                       (outputCells m) (scriptCells m)).

(** [make([]externalapi.DomainTransactionOutput, n)]; the zero value of
    the pointer field is nil, an address [nilPtr] that holds nothing. *)
Definition allocOutputs (n : nat) (nilPtr : ptr) : M (list ptr) :=
  fun m =>
    let ps := fresh_list n (dom (outputCells m)) in
    Some (ps, mkMemory (inputCells m)
                       (insertAll ps (mkOutput 0 nilPtr) (outputCells m))
                       (scriptCells m)).

(** [for i, x := range l { body }], from index [i] on. *)
Fixpoint forRangeFrom {A : Type} (i : nat) (l : list A)
    (body : nat -> A -> M unit) : M unit :=
  match l with
  | [] => ret tt
  | x :: rest => body i x ;;; forRangeFrom (S i) rest body
  end.

Definition forRange {A : Type} (l : list A) (body : nat -> A -> M unit) : M unit :=
  forRangeFrom 0 l body.

Fixpoint mapM {A B : Type} (f : A -> M B) (l : list A) : M (list B) :=
  match l with
  | [] => ret []
  | x :: rest => y <- f x ;; ys <- mapM f rest ;; ret (y :: ys)
  end.

(** [shallowCopyTx]. *)
Definition shallowCopyTx (tx : DomainTransaction) : M DomainTransaction :=
  txIns <- allocInputs (length (Inputs tx)) ;;
  forRange (Inputs tx) (fun i oldTxIn =>
    v <- loadInput oldTxIn ;;
    match txIns !! i with
    | Some p => storeInput p v
    | None => panic
    end) ;;;
  nilPtr <- (fun m => Some (fresh (dom (scriptCells m)), m)) ;;
  txOuts <- allocOutputs (length (Outputs tx)) nilPtr ;;
  forRange (Outputs tx) (fun i oldTxOut =>
    v <- loadOutput oldTxOut ;;
    match txOuts !! i with
    | Some p => storeOutput p v
    | None => panic
    end) ;;;
  ret {| TxVersion := TxVersion tx;
         Inputs := txIns;
         Outputs := txOuts;
         LockTime := LockTime tx;
         SubnetworkID := SubnetworkID tx;
         Gas := Gas tx;
         PayloadHash := PayloadHash tx;
         Payload := Payload tx |}.

(** What a reader of a transaction sees: every field, the inputs and the
    outputs followed through their pointers. *)
Record TxView := mkTxView {
  viewVersion : Z;
  viewInputs : list DomainTransactionInput;
  viewOutputs : list (Z * ScriptPublicKey);
  viewLockTime : Z;
  viewSubnetworkID : list Z;
  viewGas : Z;
  viewPayloadHash : Hash;
  viewPayload : list Z
}.

Definition readOutput (p : ptr) : M (Z * ScriptPublicKey) :=
  o <- loadOutput p ;;
  s <- loadScript (ScriptPublicKeyPtr o) ;;
  ret (Value o, s).

Definition readTx (tx : DomainTransaction) : M TxView :=
  ins <- mapM loadInput (Inputs tx) ;;
  outs <- mapM readOutput (Outputs tx) ;;
  ret {| viewVersion := TxVersion tx;
         viewInputs := ins;
         viewOutputs := outs;
         viewLockTime := LockTime tx;
         viewSubnetworkID := SubnetworkID tx;
         viewGas := Gas tx;
         viewPayloadHash := PayloadHash tx;
         viewPayload := Payload tx |}.

Definition viewTx (m : memory) (tx : DomainTransaction) : option TxView :=
  match readTx tx m with
  | Some (v, _) => Some v
  | None => None
  end.

Definition setOutputs (tx : DomainTransaction) (outs : list ptr) : DomainTransaction :=
  {| TxVersion := TxVersion tx; Inputs := Inputs tx; Outputs := outs;
     LockTime := LockTime tx; SubnetworkID := SubnetworkID tx; Gas := Gas tx;
     PayloadHash := PayloadHash tx; Payload := Payload tx |}.

Definition setInputs (tx : DomainTransaction) (ins : list ptr) : DomainTransaction :=
  {| TxVersion := TxVersion tx; Inputs := ins; Outputs := Outputs tx;
     LockTime := LockTime tx; SubnetworkID := SubnetworkID tx; Gas := Gas tx;
     PayloadHash := PayloadHash tx; Payload := Payload tx |}.

Definition setPayload (tx : DomainTransaction) (p : list Z) : DomainTransaction :=
  {| TxVersion := TxVersion tx; Inputs := Inputs tx; Outputs := Outputs tx;
     LockTime := LockTime tx; SubnetworkID := SubnetworkID tx; Gas := Gas tx;
     PayloadHash := PayloadHash tx; Payload := p |}.

(** [for i := range txCopy.Inputs { if i != idx { ...Sequence = 0 } }]. *)
Definition zeroOtherSequences (ins : list ptr) (idx : Z) : M unit :=
  forRange ins (fun i p =>
    if negb (Z.of_nat i =? idx) then
      v <- loadInput p ;;
      storeInput p (mkInput (PreviousOutpoint v) (SignatureScript v) 0)
    else ret tt).

Section SignatureHash.

(** Modelled from the spec: [parsedOpcode.bytes()] of [opcode.go], which
    is missing; the bytes of one parsed opcode, or an error. *)
Variable bytes : parsedOpcode -> error + list Z.

(** Modelled from the spec: [consensushashing.TransactionHashForSigning],
    which is missing: the hash of "serialize(modifiedTx) || LE32(T)", a
    function of what the modified transaction holds and of the hash
    type. *)
Variable TransactionHashForSigning : TxView -> Z -> Hash.

(** [unparseScript]. *)
Fixpoint unparseFrom (script : list Z) (pops : list parsedOpcode)
    : error + list Z :=
  match pops with
  | [] => inr script
  | pop :: rest =>
      match bytes pop with
      | inl err => inl err
      | inr b => unparseFrom (script ++ b) rest
      end
  end.

Definition unparseScript (pops : list parsedOpcode) : error + list Z :=
  unparseFrom [] pops.

(** [calcSignatureHash]; [idx] is a Go [int]. *)
Definition calcSignatureHash (prevScriptPublicKey : list parsedOpcode)
    (scriptVersion hashType : Z) (tx : DomainTransaction) (idx : Z)
    : M (error + Hash) :=
  if (Z.land hashType sigHashMask =? SigHashSingle)
     && (idx >=? Z.of_nat (length (Outputs tx)))
  then ret (inl (scriptError ErrInvalidSigHashSingleIndex))
  else
    txCopy <- shallowCopyTx tx ;;
    let txCopy := setPayload txCopy [] in
    forRange (Inputs txCopy) (fun i p =>
      v <- loadInput p ;;
      if Z.of_nat i =? idx then
        let sigScript :=
          match unparseScript prevScriptPublicKey with
          | inr b => b
          | inl _ => []
          end in
        let version := [scriptVersion mod 256; (scriptVersion / 256) mod 256] in
        storeInput p (mkInput (PreviousOutpoint v) (version ++ sigScript) (Sequence v))
      else
        storeInput p (mkInput (PreviousOutpoint v) [] (Sequence v))) ;;;
    txCopy <-
      (if Z.land hashType sigHashMask =? SigHashNone then
         let txCopy := setOutputs txCopy (take 0 (Outputs txCopy)) in
         zeroOtherSequences (Inputs txCopy) idx ;;;
         ret txCopy
       else if Z.land hashType sigHashMask =? SigHashSingle then
         if (idx + 1 <? 0) || (idx + 1 >? Z.of_nat (length (Outputs txCopy)))
         then panic
         else
           let txCopy := setOutputs txCopy (take (Z.to_nat (idx + 1)) (Outputs txCopy)) in
           forRange (take (Z.to_nat idx) (Outputs txCopy)) (fun _ p =>
             o <- loadOutput p ;;
             storeOutput p (mkOutput 0 (ScriptPublicKeyPtr o)) ;;;
             s <- loadScript (ScriptPublicKeyPtr o) ;;
             storeScript (ScriptPublicKeyPtr o) (mkScriptPublicKey [] (Version s)) ;;;
             s <- loadScript (ScriptPublicKeyPtr o) ;;
             storeScript (ScriptPublicKeyPtr o) (mkScriptPublicKey (Script s) 0)) ;;;
           zeroOtherSequences (Inputs txCopy) idx ;;;
           ret txCopy
       else ret txCopy) ;;
    txCopy <-
      (if negb (Z.land hashType SigHashAnyOneCanPay =? 0) then
         if (idx <? 0) || (idx + 1 >? Z.of_nat (length (Inputs txCopy)))
         then panic
         else ret (setInputs txCopy
                     (take 1 (drop (Z.to_nat idx) (Inputs txCopy))))
       else ret txCopy) ;;
    view <- readTx txCopy ;;
    ret (inr (TransactionHashForSigning view hashType)).

(** [CalcSignatureHash]. *)
Definition CalcSignatureHash (script : ScriptPublicKey) (hashType : Z)
    (tx : DomainTransaction) (idx : Z) : M (error + Hash) :=
  if Version script >? MaxScriptPublicKeyVersion
  then ret (inl (Errorf "Script version is unkown."))
  else
    match parseScript (Script script) with
    | (_, Some _) => ret (inl (Errorf "cannot parse output script"))
    | (parsedScript, None) =>
        calcSignatureHash parsedScript (Version script) hashType tx idx
    end.

End SignatureHash.

(** A transaction with three inputs and two outputs, and one with two
    inputs and two outputs, in a memory that holds their parts. *)
Definition exampleMemory : memory :=
  {| inputCells :=
       <[0%nat := mkInput (1%N, 0) [1; 2] 10]>
       (<[1%nat := mkInput (1%N, 1) [3; 4] 11]>
       (<[2%nat := mkInput (2%N, 0) [5] 12]> ∅));
     outputCells :=
       <[0%nat := mkOutput 5000 0%nat]>
       (<[1%nat := mkOutput 7000 1%nat]> ∅);
     scriptCells :=
       <[0%nat := mkScriptPublicKey [OpCheckSig] 0]>
       (<[1%nat := mkScriptPublicKey [Op1; OpCheckSig] 0]> ∅) |}.

Definition exampleTx (ins outs : list ptr) : DomainTransaction :=
  {| TxVersion := 0; Inputs := ins; Outputs := outs; LockTime := 0;
     SubnetworkID := repeat 0 20; Gas := 0; PayloadHash := 0%N;
     Payload := [9; 9] |}.

Definition tx3in2out : DomainTransaction := exampleTx [0; 1; 2]%nat [0; 1]%nat.
Definition tx2in2out : DomainTransaction := exampleTx [0; 1]%nat [0; 1]%nat.

(** The two missing functions, for a computation that is run on an
    example: the bytes of an opcode are its value and its data, the
    hash of a view is a constant. *)
Definition exampleBytes (pop : parsedOpcode) : error + list Z :=
  inr (value (opcode_ pop) :: data pop).

Definition exampleHash (_ : TxView) (_ : Z) : Hash := 0%N.

(** ** What a computation leaves in place

    [cellsKept c0 c]: every cell of [c0] is in [c] with the same content. *)
Definition cellsKept {V : Type} (c0 c : gmap ptr V) : Prop :=
  forall p v, c0 !! p = Some v -> c !! p = Some v.

(** [kept strict m0 m]: memory [m] holds every input and output of [m0]
    unchanged and, when [strict], the same script public keys. *)
Definition kept (strict : bool) (m0 m : memory) : Prop :=
  cellsKept (inputCells m0) (inputCells m) /\
  cellsKept (outputCells m0) (outputCells m) /\
  (strict = true -> scriptCells m = scriptCells m0).

(** [keeps strict m0 c Q]: run from a memory that keeps [m0], the
    computation [c] ends, if it does not panic, in a memory that keeps
    [m0], with a result that satisfies [Q]. *)
Definition keeps {A : Type} (strict : bool) (m0 : memory) (c : M A)
    (Q : A -> Prop) : Prop :=
  forall m a m', kept strict m0 m -> c m = Some (a, m') ->
                 kept strict m0 m' /\ Q a.

(** The addresses of a copy are not in use in [m0]. *)
Definition freshCopy (m0 : memory) (txCopy : DomainTransaction) : Prop :=
  (forall p, In p (Inputs txCopy) -> inputCells m0 !! p = None) /\
  (forall p, In p (Outputs txCopy) -> outputCells m0 !! p = None).

(** ** Sizes, canonical pushes and the view that is signed *)

(** The bytes a parsed opcode stands for in the script it was parsed
    from: the opcode, the length prefix of an [OP_PUSHDATA], the data. *)
(** The number of bytes of the script an instruction occupies, as the
    loop of [parseScriptTemplate] advances [i] over it: [1], [op.length],
    or [1 - op.length + len(data)] for a push with a length prefix. *)
Definition popSize (pop : parsedOpcode) : nat :=
  let L := opLength (opcode_ pop) in
  if L =? 1 then 1%nat
  else if L >? 1 then Z.to_nat L
  else if L <? 0 then (1 + Z.to_nat (- L) + length (data pop))%nat
  else 0%nat.

Definition scriptSize (pops : list parsedOpcode) : nat :=
  fold_right (fun pop acc => (popSize pop + acc)%nat) 0%nat pops.

(** [canonicalPush]; [data[0]] is read only when [dataLen == 1]. *)
Definition canonicalPush (pop : parsedOpcode) : bool :=
  let opcode := value (opcode_ pop) in
  let dataLen := Z.of_nat (length (data pop)) in
  if opcode >? Op16 then true
  else if (opcode <? OpPushData1) && (opcode >? Op0)
          && ((dataLen =? 1) && (byteAt (data pop) 0 <=? 16)) then false
  else if (opcode =? OpPushData1) && (dataLen <? OpPushData1) then false
  else if (opcode =? OpPushData2) && (dataLen <=? 255) then false
  else if (opcode =? OpPushData4) && (dataLen <=? 65535) then false
  else true.

(** A script is a slice of bytes. *)
Definition isByte (b : Z) : Prop := 0 <= b <= 255.

(** What [calcSignatureHash] hashes when the hash type is not
    [SigHashSingle] under the mask, in terms of what the transaction
    reads as: no payload; the script of the previous output, after the two
    bytes of its version, as the signature script of the input signed and
    no signature script on the others; with [SigHashNone] no outputs and
    the sequence of the other inputs zero; with [SigHashAnyOneCanPay] the
    input signed alone. *)
Definition signingView (sigScript : list Z) (scriptVersion hashType idx : Z)
    (view : TxView) : TxView :=
  let none := Z.land hashType sigHashMask =? SigHashNone in
  let ins :=
    imap (fun i v =>
            mkInput (PreviousOutpoint v)
                    (if Z.of_nat i =? idx
                     then [scriptVersion mod 256; (scriptVersion / 256) mod 256]
                          ++ sigScript
                     else [])
                    (if none && negb (Z.of_nat i =? idx) then 0 else Sequence v))
         (viewInputs view) in
  {| viewVersion := viewVersion view;
     viewInputs :=
       if negb (Z.land hashType SigHashAnyOneCanPay =? 0)
       then take 1 (drop (Z.to_nat idx) ins) else ins;
     viewOutputs := if none then [] else viewOutputs view;
     viewLockTime := viewLockTime view;
     viewSubnetworkID := viewSubnetworkID view;
     viewGas := viewGas view;
     viewPayloadHash := viewPayloadHash view;
     viewPayload := [] |}.

End TxScript.

(* ===================================================================== *)
(** * Package [utxo]: the iterator with diff                              *)
(* ===================================================================== *)
Module Utxo.
Local Open Scope Z_scope.

(** [externalapi.DomainOutpoint]: transaction ID and index. *)
Abbreviation DomainOutpoint := (N * Z)%type (only parsing).

(** Modelled from the spec: [externalapi.UTXOEntry], whose declaration
    is missing: "{amount, scriptPubKey, blockBlueScore, isCoinbase}". *)
Record UTXOEntry := mkUTXOEntry {
  Amount : Z;
  ScriptPublicKey : list Z;
  BlockBlueScore : Z;
  IsCoinbase : bool
}.

(** [utxoDiff]: two [utxoCollection]s, maps from outpoint to entry. *)
Record utxoDiff := mkUtxoDiff {
  toAdd : gmap DomainOutpoint UTXOEntry;
  toRemove : gmap DomainOutpoint UTXOEntry
}.

(** Modelled from the spec: [utxoCollection.containsWithBlueScore], which
    is missing; as its name and its call with an outpoint and the blue
    score of the current entry say, whether the collection holds an entry
    for the outpoint with that blue score. *)
Definition containsWithBlueScore (uc : gmap DomainOutpoint UTXOEntry)
    (outpoint : DomainOutpoint) (blueScore : Z) : bool :=
  match uc !! outpoint with
  | Some entry => BlockBlueScore entry =? blueScore
  | None => false
  end.

(** An iterator that is not an iterator with diff: a cursor over the
    pairs it will still yield, with the pair [Get] returns. *)
Record cursor := mkCursor {
  remaining : list (DomainOutpoint * UTXOEntry);
  current : option (DomainOutpoint * UTXOEntry)
}.

Definition cursorNext (c : cursor) : bool * cursor :=
  match remaining c with
  | [] => (false, c)
  | x :: rest => (true, mkCursor rest (Some x))
  end.

Definition cursorGet (c : cursor) : option (DomainOutpoint * UTXOEntry) :=
  current c.

(** Modelled from the spec: [utxoCollection.Iterator()], which is missing;
    an iterator over the pairs of the collection, in the order the map
    enumerates them. *)
Definition collectionIterator (uc : gmap DomainOutpoint UTXOEntry) : cursor :=
  mkCursor (map_to_list uc) None.

(** [readOnlyUTXOIteratorWithDiff]; [currentPair] stands for
    [currentOutpoint] and [currentUTXOEntry]. *)
Record readOnlyUTXOIteratorWithDiff := mkIteratorWithDiff {
  baseIterator : cursor;
  diff : utxoDiff;
  currentPair : option (DomainOutpoint * UTXOEntry);
  toAddIterator : cursor
}.

(** The two kinds of iterator the type switch of [IteratorWithDiff]
    tells apart. *)
Inductive ReadOnlyUTXOSetIterator : Type :=
  | PlainIterator (c : cursor)
  | DiffIterator (r : readOnlyUTXOIteratorWithDiff).

Section WithDiff.

(** Modelled from the spec: [utxoDiff.WithDiff], which is missing; the
    composition of two diffs, or [ErrDiffCompose]. *)
Variable WithDiff : utxoDiff -> utxoDiff -> option utxoDiff.

(** [IteratorWithDiff]; [None] is the error of [WithDiff]. An iterator
    with diff is flattened: its base is never an iterator with diff. *)
Definition IteratorWithDiff (iterator : ReadOnlyUTXOSetIterator) (d : utxoDiff)
    : option readOnlyUTXOIteratorWithDiff :=
  match iterator with
  | DiffIterator iteratorWithDiff =>
      match WithDiff (diff iteratorWithDiff) d with
      | None => None
      | Some combinedDiff =>
          Some {| baseIterator := baseIterator iteratorWithDiff;
                  diff := combinedDiff;
                  currentPair := None;
                  toAddIterator := collectionIterator (toAdd combinedDiff) |}
      end
  | PlainIterator c =>
      Some {| baseIterator := c;
              diff := d;
              currentPair := None;
              toAddIterator := collectionIterator (toAdd d) |}
  end.

End WithDiff.

(** [for r.baseIterator.Next() { ... }] of [Next]: advance the base until
    a pair that [toRemove] does not hold with its blue score. The result
    tells whether one was found, with the base cursor and the current pair
    the loop leaves behind. *)
Fixpoint nextFromBase (toRemove_ : gmap DomainOutpoint UTXOEntry)
    (rest : list (DomainOutpoint * UTXOEntry))
    (cur : option (DomainOutpoint * UTXOEntry))
    : bool * cursor * option (DomainOutpoint * UTXOEntry) :=
  match rest with
  | [] => (false, mkCursor [] cur, cur)
  | x :: rest' =>
      if negb (containsWithBlueScore toRemove_ (fst x) (BlockBlueScore (snd x)))
      then (true, mkCursor rest' (Some x), Some x)
      else nextFromBase toRemove_ rest' (Some x)
  end.

(** [Next]. *)
Definition Next (r : readOnlyUTXOIteratorWithDiff)
    : bool * readOnlyUTXOIteratorWithDiff :=
  match nextFromBase (toRemove (diff r)) (remaining (baseIterator r))
                     (currentPair r) with
  | (true, base, cur) =>
      (true, mkIteratorWithDiff base (diff r) cur (toAddIterator r))
  | (false, base, cur) =>
      match cursorNext (toAddIterator r) with
      | (true, toAddIterator') =>
          (true, mkIteratorWithDiff base (diff r)
                   (cursorGet toAddIterator') toAddIterator')
      | (false, toAddIterator') =>
          (false, mkIteratorWithDiff base (diff r) cur toAddIterator')
      end
  end.

(** [Get]. *)
Definition Get (r : readOnlyUTXOIteratorWithDiff)
    : option (DomainOutpoint * UTXOEntry) :=
  currentPair r.

(** A consumer: [for it.Next() { pair := it.Get(); ... }], collecting the
    pairs in the order they come; [None] when [fuel] calls of [Next] were
    not enough to reach the end. *)
Fixpoint drain (fuel : nat) (r : readOnlyUTXOIteratorWithDiff)
    : option (list (DomainOutpoint * UTXOEntry)) :=
  match fuel with
  | O => None
  | S fuel' =>
      match Next r with
      | (false, _) => Some []
      | (true, r') =>
          match Get r', drain fuel' r' with
          | Some p, Some rest => Some (p :: rest)
          | _, _ => None
          end
      end
  end.

(** The pairs of the base that an outpoint-only test against [toRemove]
    would let through. *)
Definition notInToRemove (d : utxoDiff) (p : DomainOutpoint * UTXOEntry) : bool :=
  match toRemove d !! fst p with
  | Some _ => false
  | None => true
  end.

(** The pairs of the base that [Next] lets through. *)
Definition keptByNext (d : utxoDiff) (p : DomainOutpoint * UTXOEntry) : bool :=
  negb (containsWithBlueScore (toRemove d) (fst p) (BlockBlueScore (snd p))).

(** No composition of diffs is needed over a plain iterator. *)
Definition noWithDiff : utxoDiff -> utxoDiff -> option utxoDiff :=
  fun _ _ => None.

End Utxo.

(* ===================================================================== *)
(** * The store of the headers selected tip                               *)
(* ===================================================================== *)
Module HeadersSelectedTipStore.
Local Open Scope Z_scope.

(** [headerSelectedTipStore]: two pointers to a hash, nil when unset. *)
Record headerSelectedTipStore := mkStore {
  staging : option Hash;
  cache : option Hash
}.

(** [New]. *)
Definition New : headerSelectedTipStore := mkStore None None.

(** [Discard]. *)
Definition Discard (hts : headerSelectedTipStore) : headerSelectedTipStore :=
  mkStore None (cache hts).

(** [Stage]; the tip is a pointer, which may be nil. *)
Definition Stage (hts : headerSelectedTipStore) (selectedTip : option Hash)
    : headerSelectedTipStore :=
  mkStore selectedTip (cache hts).

(** [IsStaged]. *)
Definition IsStaged (hts : headerSelectedTipStore) : bool :=
  match staging hts with Some _ => true | None => false end.

Section Database.

(** Modelled from the spec: the database behind [model.DBReader] and
    [model.DBTransaction], which is missing: "a single commit(tx)
    atomically flushes to the byte store"; [dbHas], [dbGet] and [dbPut]
    are [Has], [Get] and [Put] at the key [headers-selected-tip], on a
    byte store of type [DB]. *)
Variable DB : Type.
Variable dbHas : DB -> string + bool.
Variable dbGet : DB -> string + list Z.
Variable dbPut : DB -> list Z -> string + DB.

(** Modelled from the spec: [proto.Marshal] and [proto.Unmarshal] with
    the conversions of package [serialization], which are missing;
    taken as they are, with the errors they may return. *)
Variable serializeHeadersSelectedTip : Hash -> string + list Z.
Variable deserializeHeadersSelectedTip : list Z -> string + Hash.

(** [Has]. *)
Definition Has (hts : headerSelectedTipStore) (dbContext : DB) : string + bool :=
  match staging hts with
  | Some _ => inr true
  | None =>
      match cache hts with
      | Some _ => inr true
      | None => dbHas dbContext
      end
  end.

(** [Commit]: the error, if any, with the store and the transaction as
    the call leaves them. *)
Definition Commit (hts : headerSelectedTipStore) (dbTx : DB)
    : option string * headerSelectedTipStore * DB :=
  match staging hts with
  | None => (None, hts, dbTx)
  | Some tip =>
      match serializeHeadersSelectedTip tip with
      | inl err => (Some err, hts, dbTx)
      | inr selectedTipBytes =>
          match dbPut dbTx selectedTipBytes with
          | inl err => (Some err, hts, dbTx)
          | inr dbTx' =>
              (None, Discard (mkStore (staging hts) (staging hts)), dbTx')
          end
      end
  end.

(** [HeadersSelectedTip]: the tip or the error, with the store as the
    call leaves it. *)
Definition HeadersSelectedTip (hts : headerSelectedTipStore) (dbContext : DB)
    : (string + Hash) * headerSelectedTipStore :=
  match staging hts with
  | Some tip => (inr tip, hts)
  | None =>
      match cache hts with
      | Some tip => (inr tip, hts)
      | None =>
          match dbGet dbContext with
          | inl err => (inl err, hts)
          | inr selectedTipBytes =>
              match deserializeHeadersSelectedTip selectedTipBytes with
              | inl err => (inl err, hts)
              | inr selectedTip =>
                  (inr selectedTip, mkStore (staging hts) (Some selectedTip))
              end
          end
      end
  end.

(** The cache agrees with the database: a cached tip is what the bytes
    in the database deserialize to. *)
Definition cacheCoherent (hts : headerSelectedTipStore) (db : DB) : Prop :=
  forall tip, cache hts = Some tip ->
    exists selectedTipBytes,
      dbGet db = inr selectedTipBytes /\
      deserializeHeadersSelectedTip selectedTipBytes = inr tip.

End Database.

(** A byte store that holds at most the one value, and a serialization
    of a hash as the one number it is read as. *)
Definition exampleHas (db : option (list Z)) : string + bool :=
  inr (match db with Some _ => true | None => false end).

Definition exampleGet (db : option (list Z)) : string + list Z :=
  match db with Some b => inr b | None => inl "not found"%string end.

Definition examplePut (db : option (list Z)) (b : list Z)
    : string + option (list Z) := inr (Some b).

Definition exampleSerialize (h : Hash) : string + list Z := inr [Z.of_N h].

Definition exampleDeserialize (b : list Z) : string + Hash :=
  match b with
  | [z] => inr (Z.to_N z)
  | _ => inl "malformed"%string
  end.

End HeadersSelectedTipStore.

(* ===================================================================== *)
(** * The multiset store                                                  *)
(* ===================================================================== *)
Module Multiset.
Local Open Scope Z_scope.

Inductive storeError : Type :=
  | multisetNotFoundError (blockHash : Hash)
  | ErrCantOverride (blockHash : Hash)
  | ErrSerialization (reason : string).

(** Modelled from the spec: the bucket "multiset/<hash>" of the database
    behind package [dbaccess], which is missing: a map from block hash to
    the serialized multiset, with [HasMultiset] and [StoreMultiset]. *)
Abbreviation Database := (gmap Hash (list Z)) (only parsing).

Section Store.

(** Modelled from the spec: [secp256k1.MultiSet], which is missing: "a
    homomorphic commitment element"; a value type the store copies. *)
Variable MultiSet : Type.

(** Modelled from the spec: [serializeMultiset] and
    [deserializeMultiset], which are missing; taken as they are, with
    the errors they may return. *)
Variable serializeMultiset : MultiSet -> string + list Z.
Variable deserializeMultiset : list Z -> string + MultiSet.

(** [MultisetStore], without its mutex. *)
Record MultisetStore := mkMultisetStore {
  new : gset Hash;
  loaded : gmap Hash MultiSet
}.

Definition HasMultiset (dbContext : Database) (blockHash : Hash) : bool :=
  match dbContext !! blockHash with Some _ => true | None => false end.

Definition StoreMultiset (dbContext : Database) (blockHash : Hash)
    (serializedMS : list Z) : Database :=
  <[blockHash := serializedMS]> dbContext.

(** [NewMultisetStore]. *)
Definition NewMultisetStore : MultisetStore := mkMultisetStore ∅ ∅.

(** [addToNewBlocks]. *)
Definition addToNewBlocks (store : MultisetStore) (blockHash : Hash)
    : MultisetStore :=
  mkMultisetStore ({[blockHash]} ∪ new store) (loaded store).

(** [SetMultiset], on the hash of the node. *)
Definition SetMultiset (store : MultisetStore) (nodeHash : Hash) (ms : MultiSet)
    : MultisetStore :=
  addToNewBlocks (mkMultisetStore (new store) (<[nodeHash := ms]> (loaded store)))
                 nodeHash.

(** [multisetByBlockHash]. *)
Definition multisetByBlockHash (store : MultisetStore) (hash : Hash)
    : option MultiSet :=
  loaded store !! hash.

(** [MultisetByBlockNode], on the hash of the node. *)
Definition MultisetByBlockNode (store : MultisetStore) (nodeHash : Hash)
    : storeError + MultiSet :=
  match multisetByBlockHash store nodeHash with
  | Some ms => inr ms
  | None => inl (multisetNotFoundError nodeHash)
  end.

(** [storeMultiset]: the error, if any, and the database as the call
    leaves it. *)
Definition storeMultiset (dbContext : Database) (blockHash : Hash)
    (serializedMS : list Z) : option storeError * Database :=
  if HasMultiset dbContext blockHash
  then (Some (ErrCantOverride blockHash), dbContext)
  else (None, StoreMultiset dbContext blockHash serializedMS).

(** [for hash := range store.new { ... }] of [FlushToDB], over the hashes
    in the order the map yields them. *)
Fixpoint flushLoop (store : MultisetStore) (hashes : list Hash)
    (dbContext : Database) : option storeError * Database :=
  match hashes with
  | [] => (None, dbContext)
  | hash :: rest =>
      match loaded store !! hash with
      | None => (Some (multisetNotFoundError hash), dbContext)
      | Some ms =>
          match serializeMultiset ms with
          | inl err => (Some (ErrSerialization err), dbContext)
          | inr bytes =>
              match storeMultiset dbContext hash bytes with
              | (Some err, dbContext') => (Some err, dbContext')
              | (None, dbContext') => flushLoop store rest dbContext'
              end
          end
      end
  end.

(** [FlushToDB]; [order] is the order in which the range over the map
    [store.new] yields its keys, which Go leaves open. *)
Definition FlushToDB (order : list Hash) (store : MultisetStore)
    (dbContext : Database) : option storeError * Database :=
  if (size (new store) =? 0)%nat then (None, dbContext)
  else flushLoop store order dbContext.

(** [ClearNewEntries]. *)
Definition ClearNewEntries (store : MultisetStore) : MultisetStore :=
  mkMultisetStore ∅ (loaded store).

(** The loop of [Init] over the entries the cursor yields. *)
Fixpoint initLoop (store : MultisetStore) (entries : list (Hash * list Z))
    : option storeError * MultisetStore :=
  match entries with
  | [] => (None, store)
  | (hash, serializedMS) :: rest =>
      match deserializeMultiset serializedMS with
      | inl err => (Some (ErrSerialization err), store)
      | inr ms =>
          initLoop (mkMultisetStore (new store) (<[hash := ms]> (loaded store)))
                   rest
      end
  end.

(** [Init]: the cursor walks the bucket. The errors of the cursor and
    of [daghash.NewHash] belong to the missing packages and do not occur
    over a database that is a map keyed by hash. *)
Definition Init (store : MultisetStore) (dbContext : Database)
    : option storeError * MultisetStore :=
  initLoop store (map_to_list dbContext).

(** Every new hash has a multiset loaded. *)
Definition newAreLoaded (store : MultisetStore) : Prop :=
  forall hash, hash ∈ new store -> is_Some (loaded store !! hash).

End Store.

(** Multisets as numbers, serialized as the one number. *)
Definition exampleSerializeMultiset (ms : Z) : string + list Z := inr [ms].

Definition exampleDeserializeMultiset (b : list Z) : string + Z :=
  match b with
  | [z] => inr z
  | _ => inl "malformed"%string
  end.


End Multiset.

(* ===================================================================== *)
(** * Properties of the GHOSTDAG data and engine                          *)
(* ===================================================================== *)
Section GhostdagFacts.
Import Ghostdag.
Local Open Scope Z_scope.

(** The engine, driven through the six DAGs of [TestGHOSTDA] with the
    colouring the test prescribes, meets every expectation of the test on
    blue scores and selected parents. *)
Lemma runTest_passes :
  forall t, In t testsArr -> runTest t <> None.
Proof.
  intros t Ht. simpl in Ht.
  repeat (destruct Ht as [<- | Ht]; [vm_compute; discriminate |]).
  contradiction.
Qed.

(** The expectations of [TestGHOSTDA] themselves satisfy the equation of
    the blue score invariant, block by block, in all six DAGs. *)
Lemma TestGHOSTDA_expectations_blue_score :
  forall test, In test testsArr ->
    forallb (expectationSatisfiesInvariant (subTests test)) (subTests test) = true.
Proof.
  intros t Ht. simpl in Ht.
  repeat (destruct Ht as [<- | Ht]; [vm_compute; reflexivity |]).
  contradiction.
Qed.

Lemma rankLe_refl dagMap a : rankLe dagMap a a.
Proof. intros da db Ha Hb. right. split; [congruence | lia]. Qed.

Lemma rankLe_trans dagMap a b c :
  is_Some (dagMap !! b) -> rankLe dagMap a b -> rankLe dagMap b c -> rankLe dagMap a c.
Proof.
  intros [db Hb] Hab Hbc da dc Ha Hc.
  destruct (Hab da db Ha Hb) as [H1 | [H1 H1']];
    destruct (Hbc db dc Hb Hc) as [H2 | [H2 H2']]; try (left; lia).
  right. split; lia.
Qed.

Lemma less_Some dagMap a b r :
  less dagMap a b = Some r ->
  is_Some (dagMap !! a) /\ is_Some (dagMap !! b) /\
  (r = true -> rankLe dagMap a b) /\ (r = false -> rankLe dagMap b a).
Proof.
  unfold less, rankLe.
  destruct (dagMap !! a) as [da|] eqn:Ha; [| discriminate].
  destruct (dagMap !! b) as [db|] eqn:Hb; [| discriminate].
  intros Hr. injection Hr as <-.
  split; [eauto |]. split; [eauto |].
  split; intros Hc da' db' Ha' Hb';
    injection Ha' as <-; injection Hb' as <-;
    destruct (Z.eqb_spec (BlueWork da) (BlueWork db)) as [He | Hne].
  - apply N.ltb_lt in Hc. right. split; [done | lia].
  - apply Z.ltb_lt in Hc. left. lia.
  - apply N.ltb_ge in Hc. right. split; [done | lia].
  - apply Z.ltb_ge in Hc. left. lia.
Qed.

Lemma less_total dagMap a b :
  is_Some (dagMap !! a) -> is_Some (dagMap !! b) -> is_Some (less dagMap a b).
Proof. intros [da Ha] [db Hb]. unfold less. rewrite Ha, Hb. eauto. Qed.

(** The pass over the parents returns one of them, and none of them ranks
    above it. *)
Lemma chooseSelectedParent_best dagMap rest :
  forall selected chosen,
    chooseSelectedParent dagMap selected rest = Some chosen ->
    In chosen (selected :: rest) /\
    forall q, In q (selected :: rest) -> rankLe dagMap q chosen.
Proof.
  induction rest as [| p rest IH]; intros selected chosen H; simpl in H.
  - injection H as <-. split; [by left |].
    intros q [<- | []]. apply rankLe_refl.
  - destruct (less dagMap selected p) as [[|]|] eqn:Hl; [| | discriminate];
      apply less_Some in Hl as (Hs & Hp & Ht & Hf);
      apply IH in H as [Hin Hbest].
    + split; [by right |].
      intros q [<- | Hq]; [| by apply Hbest].
      apply rankLe_trans with p; [done | by apply Ht | apply Hbest; by left].
    + split; [destruct Hin as [<- | Hin]; [by left | by right; right] |].
      intros q [<- | [<- | Hq]].
      * apply Hbest. by left.
      * apply rankLe_trans with selected; [done | by apply Hf | apply Hbest; by left].
      * apply Hbest. by right.
Qed.

Lemma chooseSelectedParent_total dagMap rest :
  forall selected,
    (forall q, In q (selected :: rest) -> is_Some (dagMap !! q)) ->
    is_Some (chooseSelectedParent dagMap selected rest).
Proof.
  induction rest as [| p rest IH]; intros selected Hall; simpl; [eauto |].
  destruct (less_total dagMap selected p) as [[|] Hl];
    [apply Hall; by left | apply Hall; right; by left | |];
    rewrite Hl; apply IH; intros q [<- | Hq]; apply Hall; simpl; auto.
Qed.

(** C1, refuted as stated (ties broken by the lower hash): block 5 of
    test 2 of [TestGHOSTDA] has the parents 2, 3 and 4, all three at the
    same, maximal blue work; the test expects 4 as its selected parent and
    the engine selects it, although the tied parent 2 has a lower hash. *)
Lemma C1_selected_parent_not_lower_hash :
  nth_error (subTests dag2) 4
    = Some (mkTest (blk 5) [blk 2; blk 3; blk 4] 6 (blk 4) [blk 4; blk 2; blk 3] []) /\
  (forall q, In q [blk 2; blk 3; blk 4] ->
     BlueWork <$> (dag2BeforeBlock5 !! q) = Some 2) /\
  findSelectedParent dag2BeforeBlock5 [blk 2; blk 3; blk 4] = Some (blk 4) /\
  ~ tieBrokenByLowerHash dag2BeforeBlock5 [blk 2; blk 3; blk 4] (blk 4).
Proof.
  split; [reflexivity |].
  split.
  { intros q Hq. simpl in Hq.
    repeat (destruct Hq as [<- | Hq]; [vm_compute; reflexivity |]).
    contradiction. }
  split; [vm_compute; reflexivity |].
  intros Htie.
  assert (H2 : exists d, dag2BeforeBlock5 !! blk 2 = Some d /\ BlueWork d = 2)
    by (vm_compute; eexists; split; reflexivity).
  assert (H4 : exists d, dag2BeforeBlock5 !! blk 4 = Some d /\ BlueWork d = 2)
    by (vm_compute; eexists; split; reflexivity).
  destruct H2 as (d2 & Hd2 & Hw2), H4 as (d4 & Hd4 & Hw4).
  specialize (Htie (blk 2) d2 d4 (or_introl eq_refl) Hd2 Hd4 ltac:(congruence)).
  vm_compute in Htie. apply Htie. reflexivity.
Qed.

Lemma findSelectedParent_best dagMap blockParents :
  blockParents <> [] ->
  (forall q, In q blockParents -> is_Some (dagMap !! q)) ->
  exists chosen,
    findSelectedParent dagMap blockParents = Some chosen /\
    In chosen blockParents /\
    forall q, In q blockParents -> rankLe dagMap q chosen.
Proof.
  intros Hne Hall. destruct blockParents as [| first rest]; [done |].
  destruct (chooseSelectedParent_total dagMap rest first Hall) as [chosen Hc].
  exists chosen. split; [exact Hc |].
  by apply chooseSelectedParent_best in Hc.
Qed.

(** C1, as amended: for a block whose parents all have GHOSTDAG data, the
    engine selects one of the parents, of maximal blue work among them,
    and among parents tied at that blue work the one with the higher
    hash. *)
Theorem C1_findSelectedParent_higher_hash
    (dagMap : gmap Hash BlockGHOSTDAGData) (blockParents : list Hash) :
  blockParents <> [] ->
  (forall q, In q blockParents -> is_Some (dagMap !! q)) ->
  exists chosen,
    findSelectedParent dagMap blockParents = Some chosen /\
    maximisesBlueWork dagMap blockParents chosen /\
    tieBrokenByHigherHash dagMap blockParents chosen.
Proof.
  intros Hne Hall.
  destruct (findSelectedParent_best dagMap blockParents Hne Hall)
    as (chosen & Hc & Hin & Hbest).
  exists chosen. split; [exact Hc |].
  split; [split; [exact Hin |] |].
  - intros q dq dc Hq Hdq Hdc.
    destruct (Hbest q Hq dq dc Hdq Hdc) as [? | [? _]]; lia.
  - intros q dq dc Hq Hdq Hdc Heq.
    destruct (Hbest q Hq dq dc Hdq Hdc) as [? | [_ ?]]; [lia | done].
Qed.

(** The amended C1 on block 5 of test 2. *)
Lemma C1_findSelectedParent_higher_hash_witness :
  [blk 2; blk 3; blk 4] <> [] /\
  (forall q, In q [blk 2; blk 3; blk 4] -> is_Some (dag2BeforeBlock5 !! q)) /\
  exists chosen,
    findSelectedParent dag2BeforeBlock5 [blk 2; blk 3; blk 4] = Some chosen /\
    maximisesBlueWork dag2BeforeBlock5 [blk 2; blk 3; blk 4] chosen /\
    tieBrokenByHigherHash dag2BeforeBlock5 [blk 2; blk 3; blk 4] chosen.
Proof.
  assert (Hall : forall q, In q [blk 2; blk 3; blk 4] ->
                           is_Some (dag2BeforeBlock5 !! q)).
  { intros q Hq. simpl in Hq.
    repeat (destruct Hq as [<- | Hq]; [vm_compute; eauto |]).
    contradiction. }
  split; [discriminate |]. split; [exact Hall |].
  apply (C1_findSelectedParent_higher_hash dag2BeforeBlock5 [blk 2; blk 3; blk 4]);
    [discriminate | exact Hall].
Defined.



(** A blue score of 1 for genesis is also what the expectations of the
    chain test force under the blue score invariant: block 1 has blue
    score 2, selected parent genesis and one merge set blue. *)
Lemma genesis_blue_score_forced (dagMap : gmap Hash BlockGHOSTDAGData) d1 dg :
  blueScoreInvariant dagMap ->
  dagMap !! blk 1 = Some d1 ->
  dagMap !! genesisHash = Some dg ->
  BlueScore d1 = 2 -> SelectedParent d1 = Some genesisHash ->
  MergeSetBlues d1 = [genesisHash] ->
  BlueScore dg = 1.
Proof.
  intros Hinv H1 Hg Hs Hp Hb.
  destruct (Hinv _ _ H1) as (p & dp & Hp' & Hdp & Heq); [congruence |].
  rewrite Hp in Hp'. injection Hp' as <-.
  rewrite Hg in Hdp. injection Hdp as <-.
  rewrite Hs, Hb in Heq. simpl in Heq. lia.
Qed.

Lemma blueScoreInvariant_initial : blueScoreInvariant initialDagMap.
Proof.
  intros b d Hb Hsp. unfold initialDagMap in Hb.
  apply lookup_insert_Some in Hb as [[_ <-] | [_ Hb]]; [done |].
  by rewrite lookup_empty in Hb.
Qed.

(** C3: for a newly connected block whose parents all have GHOSTDAG data,
    [GHOSTDAG] succeeds, the data it stages for the block has the blue
    score of the selected parent plus the number of merge set blues, and
    the invariant that every block with a selected parent satisfies this
    equation is preserved. *)
Theorem C3_GHOSTDAG_blue_score
    (work : Hash -> Z)
    (colourMergeSet : gmap Hash (list Hash) -> gmap Hash BlockGHOSTDAGData ->
                      Hash -> Hash -> list Hash ->
                      list Hash * list Hash * gmap Hash Z)
    (parentsMap : gmap Hash (list Hash))
    (dagMap : gmap Hash BlockGHOSTDAGData) (blockHash : Hash) :
  blueScoreInvariant dagMap ->
  dagMap !! blockHash = None ->
  Parents parentsMap blockHash <> [] ->
  (forall q, In q (Parents parentsMap blockHash) -> is_Some (dagMap !! q)) ->
  exists dagMap' d p dp,
    GHOSTDAG work colourMergeSet parentsMap dagMap blockHash = Some dagMap' /\
    Get dagMap' blockHash = Some d /\
    SelectedParent d = Some p /\
    Get dagMap' p = Some dp /\
    BlueScore d = BlueScore dp + Z.of_nat (length (MergeSetBlues d)) /\
    blueScoreInvariant dagMap'.
Proof.
  intros Hinv Hnew Hne Hall.
  destruct (findSelectedParent_best dagMap _ Hne Hall) as (sp & Hsp & Hin & _).
  destruct (Hall sp Hin) as [dsp Hdsp].
  assert (Hneq : sp <> blockHash) by congruence.
  unfold GHOSTDAG, Get. rewrite Hsp, Hdsp.
  destruct (colourMergeSet parentsMap dagMap blockHash sp
              (Parents parentsMap blockHash)) as [[blues reds] sizes].
  eexists _, _, sp, dsp. split; [reflexivity |]. unfold Stage.
  split; [apply lookup_insert_eq |].
  split; [reflexivity |].
  split; [by rewrite lookup_insert_ne |].
  split; [reflexivity |].
  intros b d Hb Hd.
  apply lookup_insert_Some in Hb as [[<- <-] | [Hbne Hb]].
  - exists sp, dsp. simpl. split; [done |]. split; [| done].
    by rewrite lookup_insert_ne.
  - destruct (Hinv b d Hb Hd) as (p & dp & Hp & Hdp & Heq).
    exists p, dp. split; [done |]. split; [| done].
    rewrite lookup_insert_ne; [done | congruence].
Qed.

(** C3 on block 1 of the chain test. *)
Lemma C3_GHOSTDAG_blue_score_witness :
  let parentsMap := <[blk 1 := [genesisHash]]> initialParentsMap in
  exists dagMap' d p dp,
    GHOSTDAG unitWork chainColouring parentsMap initialDagMap (blk 1) = Some dagMap' /\
    Get dagMap' (blk 1) = Some d /\
    SelectedParent d = Some p /\
    Get dagMap' p = Some dp /\
    BlueScore d = BlueScore dp + Z.of_nat (length (MergeSetBlues d)) /\
    blueScoreInvariant dagMap'.
Proof.
  intros parentsMap.
  apply (C3_GHOSTDAG_blue_score unitWork chainColouring parentsMap
           initialDagMap (blk 1)).
  - exact blueScoreInvariant_initial.
  - vm_compute. reflexivity.
  - vm_compute. discriminate.
  - intros q Hq. vm_compute in Hq. destruct Hq as [<- | []].
    vm_compute. eauto.
Defined.

Lemma GHOSTDAG_Some_parents work colourMergeSet parentsMap dagMap b dagMap' :
  GHOSTDAG work colourMergeSet parentsMap dagMap b = Some dagMap' ->
  exists sp dsp d,
    dagMap !! sp = Some dsp /\ dagMap' = <[b := d]> dagMap /\
    SelectedParent d = Some sp /\
    BlueScore d = BlueScore dsp + Z.of_nat (length (MergeSetBlues d)).
Proof.
  unfold GHOSTDAG, Get, Stage.
  destruct (findSelectedParent dagMap (Parents parentsMap b)) as [sp|]; [| done].
  destruct (dagMap !! sp) as [dsp|] eqn:Hsp; [| done].
  destruct (colourMergeSet parentsMap dagMap b sp (Parents parentsMap b))
    as [[blues reds] sizes].
  intros H. injection H as <-. eexists sp, dsp, _. repeat split; done.
Qed.

(** Every store the engine builds from a store that satisfies the
    invariant, one newly connected block after the other, satisfies it. *)
Lemma addBlocks_invariant work colourMergeSet parentsMap blocks :
  forall dagMap dagMap',
    blueScoreInvariant dagMap ->
    addBlocks work colourMergeSet parentsMap dagMap blocks = Some dagMap' ->
    blueScoreInvariant dagMap'.
Proof.
  induction blocks as [| b rest IH]; intros dagMap dagMap' Hinv H; simpl in H.
  - by injection H as <-.
  - destruct (dagMap !! b) eqn:Hb; [done |].
    destruct (GHOSTDAG work colourMergeSet parentsMap dagMap b) as [dm|] eqn:Hg;
      [| done].
    apply IH with dm; [| done].
    apply GHOSTDAG_Some_parents in Hg as (sp & dsp & d & Hsp & -> & Hd & Heq).
    assert (sp <> b) by congruence.
    intros x dx Hx Hdx.
    apply lookup_insert_Some in Hx as [[<- <-] | [Hne Hx]].
    + exists sp, dsp. split; [done |]. split; [| done].
      by rewrite lookup_insert_ne.
    + destruct (Hinv x dx Hx Hdx) as (p & dp & Hp & Hdp & He).
      exists p, dp. split; [done |]. split; [| done].
      rewrite lookup_insert_ne; [done | congruence].
Qed.

End GhostdagFacts.

(* ===================================================================== *)
(** * Properties of the block locator                                     *)
(* ===================================================================== *)
Section BlockLocatorFacts.
Import BlockLocator.
Local Open Scope Z_scope.

(** Induction along the selected-parent chain of a node. *)
Lemma BlockNode_chain_ind (P : BlockNode -> Prop) :
  (forall h s, P (mkBlockNode h s None)) ->
  (forall h s p, P p -> P (mkBlockNode h s (Some p))) ->
  forall n, P n.
Proof.
  intros Hnil Hcons. fix IH 1. intros [h s [p |]].
  - apply Hcons, IH.
  - apply Hnil.
Qed.

Lemma chainHashes_head n : In (Hash_ n) (chainHashes n).
Proof. destruct n as [h s p]. simpl. by left. Qed.

(** Above the blue score at the bottom of the chain, [SelectedAncestor]
    finds a node, and that node is on the chain. *)
Lemma SelectedAncestor_on_chain n :
  forall t, bottomBlueScore n <= t ->
    exists n', SelectedAncestor n t = Some n' /\
               bottomBlueScore n' = bottomBlueScore n /\
               forall h, In h (chainHashes n') -> In h (chainHashes n).
Proof.
  induction n as [h s | h s p IH] using BlockNode_chain_ind; intros t Ht.
  - simpl in *. destruct (Z.leb_spec s t); [| lia].
    eexists. split; [reflexivity |]. split; [reflexivity | auto].
  - cbn [SelectedAncestor]. destruct (Z.leb_spec s t).
    + eexists. split; [reflexivity |]. split; [reflexivity | auto].
    + destruct (IH t Ht) as (n' & Hn' & Hb & Hin).
      exists n'. split; [exact Hn' |]. split; [exact Hb |].
      intros x Hx. simpl. right. by apply Hin.
Qed.

(** What the loop returns when it runs on from a node whose chain bottoms
    out at or below the blue score of the low node: a locator that extends
    the one built so far with hashes of the chain, starting with the
    current node and ending with the low node, or the error. *)
Lemma blockLocatorLoop_result lowNode fuel :
  forall st n r,
    node st = Some n ->
    bottomBlueScore n <= BlueScore lowNode ->
    blockLocatorLoop fuel lowNode st = Some r ->
    match r with
    | inr loc =>
        exists mid, loc = locator st ++ Hash_ n :: mid /\
                    last loc = Some (Hash_ lowNode) /\
                    forall h, In h (Hash_ n :: mid) -> In h (chainHashes n)
    | inl e => e = ErrNotInSameSelectedParentChain
    end.
Proof.
  induction fuel as [| fuel IH]; intros st n r Hn Hbot Hr; [done |].
  simpl in Hr. unfold loopBody in Hr. rewrite Hn in Hr.
  destruct (Z.leb_spec (BlueScore n) (BlueScore lowNode)) as [Hle | Hgt].
  - destruct (sameNode n lowNode) eqn:Hsame; simpl in Hr; injection Hr as <-.
    + exists []. apply N.eqb_eq in Hsame.
      split; [reflexivity |]. split; [by rewrite last_snoc, Hsame |].
      intros h [<- | []]. apply chainHashes_head.
    + reflexivity.
  - set (next := if wrap64 (BlueScore n - step st) <? BlueScore lowNode
                 then BlueScore lowNode
                 else wrap64 (BlueScore n - step st)) in Hr.
    assert (Hnext : bottomBlueScore n <= next).
    { subst next. destruct (Z.ltb_spec (wrap64 (BlueScore n - step st))
                              (BlueScore lowNode)); lia. }
    destruct (SelectedAncestor_on_chain n next Hnext) as (n' & Hn' & Hb' & Hin').
    rewrite Hn' in Hr.
    eapply IH in Hr; [| reflexivity | lia]. clear IH.
    rename Hr into IH. cbn [locator] in IH.
    destruct r as [e | loc]; [exact IH |].
    destruct IH as (mid & -> & Hlast & Hmem). simpl.
    exists (Hash_ n' :: mid). split; [by rewrite <- app_assoc |].
    split; [exact Hlast |].
    intros h [<- | Hh]; [apply chainHashes_head | by apply Hin', Hmem].
Qed.

(** The step of the loop doubles with every iteration, starting at 1. *)
Lemma loopAfter_step lowNode n :
  forall st st', loopAfter n lowNode st = Some st' ->
    step st' = wrap64 (step st * 2 ^ Z.of_nat n) \/ (n = 0%nat /\ st' = st).
Proof.
  induction n as [| n IH]; intros st st' H; simpl in H.
  - right. split; [done | congruence].
  - left. destruct (loopBody lowNode st) as [st1 | r] eqn:Hb; [| done].
    assert (Hs : step st1 = wrap64 (step st * 2)).
    { unfold loopBody in Hb. destruct (node st) as [b |]; [| done].
      destruct (BlueScore b <=? BlueScore lowNode).
      - destruct (negb (sameNode b lowNode)); discriminate Hb.
      - by injection Hb as <-. }
    destruct (IH _ _ H) as [-> | [-> ->]].
    + rewrite Hs. unfold wrap64.
      rewrite Z.mul_mod_idemp_l by lia. f_equal.
      rewrite Nat2Z.inj_succ, Z.pow_succ_r by lia. lia.
    + rewrite Hs. f_equal; simpl; lia.
Qed.

Lemma loopAfter_running lowNode n :
  forall st st' k, loopAfter n lowNode st = Some st' ->
    blockLocatorLoop (n + k) lowNode st = blockLocatorLoop k lowNode st'.
Proof.
  induction n as [| n IH]; intros st st' k H; simpl in H.
  - by injection H as <-.
  - simpl. destruct (loopBody lowNode st); [by apply IH | done].
Qed.

(** On the chain 0..20, with genesis as the low node, the loop is
    stuck at block 1 once the step exceeds its blue score: the unsigned
    subtraction wraps around, the wrapped score is above the blue score of
    block 1, and the selected ancestor of block 1 at that score is block 1
    again. *)
Lemma blockLocatorLoop_stuck_at_block_1 fuel :
  forall s loc, 0 <= s < 2 ^ 64 -> Z.even s = true ->
    blockLocatorLoop fuel (chainNode 0)
      {| node := Some (chainNode 1); step := s; locator := loc |} = None.
Proof.
  induction fuel as [| fuel IH]; intros s loc Hs He; [done |].
  cbn [blockLocatorLoop]. unfold loopBody. cbn [node step locator].
  change (BlueScore (chainNode 1)) with 1.
  change (BlueScore (chainNode 0)) with 0.
  change (1 <=? 0) with false. cbv iota.
  assert (Hw : 1 <= wrap64 (1 - s)).
  { unfold wrap64. destruct (Z.eq_dec s 0) as [-> | Hne]; [done |].
    assert (s <> 1) by (intros ->; done).
    replace (1 - s) with ((2 ^ 64 + 1 - s) + (-1) * 2 ^ 64) by lia.
    rewrite Z.mod_add by lia. rewrite Z.mod_small; lia. }
  destruct (Z.ltb_spec (wrap64 (1 - s)) 0); [lia |].
  assert (Ha : SelectedAncestor (chainNode 1) (wrap64 (1 - s)) = Some (chainNode 1)).
  { change (chainNode 1) with (mkBlockNode 1%N 1 (Some (chainNode 0))).
    cbn [SelectedAncestor]. by destruct (Z.leb_spec 1 (wrap64 (1 - s))); [| lia]. }
  rewrite Ha. apply IH.
  - unfold wrap64. apply Z.mod_pos_bound. lia.
  - unfold wrap64. change (2 ^ 64) with (2 ^ 63 * 2).
    rewrite Z.mul_mod_distr_r by lia.
    rewrite Z.even_mul. apply orb_true_r.
Qed.

(** With block 17 as the high node and genesis as the low node the loop
    does not end. *)
Lemma blockLocator_17_genesis_runs_on fuel :
  BlockLocatorFromHashes fuel (chainStore 20) 17%N 0%N = None.
Proof.
  assert (H17 : chainStore 20 !! 17%N = Some (chainNode 17)) by (vm_compute; reflexivity).
  assert (H0 : chainStore 20 !! 0%N = Some (chainNode 0)) by (vm_compute; reflexivity).
  unfold BlockLocatorFromHashes. rewrite H17, H0. unfold blockLocator.
  destruct (le_lt_dec 5 fuel) as [Hge | Hlt].
  - replace fuel with (5 + (fuel - 5))%nat by lia.
    rewrite (loopAfter_running _ 5 _
               {| node := Some (chainNode 1); step := 32;
                  locator := [16; 15; 13; 9; 1]%N |})
      by (vm_compute; reflexivity).
    apply blockLocatorLoop_stuck_at_block_1; [lia | reflexivity].
  - do 5 (destruct fuel as [| fuel]; [vm_compute; reflexivity |]). lia.
Qed.

(** The hashes are the same when the blue scores of the chain start at 1
    instead of 0. *)
Lemma blockLocator_17_genesis_blue_scores_from_1 :
  loopAfter 5 (chainNodeFrom1 0) (initialState (chainNodeFrom1 17))
    = Some {| node := Some (chainNodeFrom1 1); step := 32;
              locator := [16; 15; 13; 9; 1]%N |}.
Proof. vm_compute. reflexivity. Qed.

(** C4, refuted as stated: on the chain 0..20 with block 17 as the high
    hash and genesis as the low hash, the first five hashes the loop emits
    are 16, 15, 13, 9 and 1, and however long it runs [BlockLocatorFromHashes]
    does not return [17, 16, 14, 11, 7, 2, genesis]. *)
Lemma C4_locator_is_not_17_16_14_11_7_2_0 :
  loopAfter 5 (chainNode 0) (initialState (chainNode 17))
    = Some {| node := Some (chainNode 1); step := 32;
              locator := [16; 15; 13; 9; 1]%N |} /\
  ~ (exists fuel,
       BlockLocatorFromHashes fuel (chainStore 20) 17%N 0%N
         = Some (inr [17; 16; 14; 11; 7; 2; 0]%N)).
Proof.
  split; [vm_compute; reflexivity |].
  intros [fuel H]. by rewrite blockLocator_17_genesis_runs_on in H.
Qed.

(** C4, as amended. On the chain 0..20 with block 17 as the high hash the
    loop starts at the selected parent of the high node, block 16, with
    step 1, and doubles the step with every iteration: with genesis as the
    low hash its first five hashes are 16, 15, 13, 9, 1, and with block 1
    as the low hash [BlockLocatorFromHashes] returns exactly these. In
    general the step after [n] iterations is [2^n] (modulo [2^64]); and
    when the selected-parent chain of the high node bottoms out at or
    below the blue score of the low node, a call that returns a locator
    returns one that starts with the selected parent of the high node,
    holds hashes of its selected-parent chain only and ends with the low
    hash, and a call that returns while the low hash is not on that chain
    returns the error. *)
Theorem C4_blockLocator_doubling_steps :
  loopAfter 5 (chainNode 0) (initialState (chainNode 17))
    = Some {| node := Some (chainNode 1); step := 32;
              locator := [16; 15; 13; 9; 1]%N |} /\
  BlockLocatorFromHashes 6 (chainStore 20) 17%N 1%N
    = Some (inr [16; 15; 13; 9; 1]%N) /\
  (forall n highNode lowNode st,
     loopAfter n lowNode (initialState highNode) = Some st ->
     step st = wrap64 (2 ^ Z.of_nat n)) /\
  (forall fuel highNode lowNode p r,
     SelectedParent highNode = Some p ->
     bottomBlueScore p <= BlueScore lowNode ->
     blockLocator fuel highNode lowNode = Some r ->
     match r with
     | inr loc =>
         (exists mid, loc = Hash_ p :: mid) /\
         last loc = Some (Hash_ lowNode) /\
         (forall h, In h loc -> In h (chainHashes p))
     | inl e => e = ErrNotInSameSelectedParentChain
     end /\
     (~ In (Hash_ lowNode) (chainHashes p) ->
      r = inl ErrNotInSameSelectedParentChain)).
Proof.
  split; [vm_compute; reflexivity |].
  split; [vm_compute; reflexivity |].
  split.
  { intros n highNode lowNode st H.
    destruct (loopAfter_step _ _ _ _ H) as [-> | [-> ->]]; simpl.
    - f_equal. lia.
    - reflexivity. }
  intros fuel highNode lowNode p r Hp Hbot Hr.
  unfold blockLocator in Hr.
  pose proof (blockLocatorLoop_result lowNode fuel (initialState highNode) p r
                Hp Hbot Hr) as Hres.
  destruct r as [e | loc].
  - split; [exact Hres |]. intros _. by rewrite Hres.
  - destruct Hres as (mid & Hloc & Hlast & Hmem). simpl in Hloc.
    split.
    + split; [by exists mid |]. split; [exact Hlast |].
      intros h Hh. apply Hmem. by rewrite <- Hloc.
    + intros Hnot. exfalso. apply Hnot, Hmem. rewrite <- Hloc.
      apply last_Some in Hlast as [l' ->]. apply in_or_app. right. by left.
Qed.

(** The amended C4 on a block off the chain: high hash 17, low the block
    21 built on block 3. *)
Lemma C4_blockLocator_doubling_steps_witness :
  SelectedParent (chainNode 17) = Some (chainNode 16) /\
  bottomBlueScore (chainNode 16) <= BlueScore sideNode /\
  blockLocator 6 (chainNode 17) sideNode
    = Some (inl ErrNotInSameSelectedParentChain) /\
  ~ In (Hash_ sideNode) (chainHashes (chainNode 16)).
Proof.
  split; [reflexivity |].
  split; [vm_compute; discriminate |].
  destruct C4_blockLocator_doubling_steps as (_ & _ & _ & H).
  assert (Hnot : ~ In (Hash_ sideNode) (chainHashes (chainNode 16))).
  { vm_compute. intros Hin.
    repeat (destruct Hin as [Hin | Hin]; [discriminate Hin |]). exact Hin. }
  destruct (blockLocator 6 (chainNode 17) sideNode) as [r |] eqn:Hr;
    [| vm_compute in Hr; discriminate Hr].
  destruct (H 6%nat (chainNode 17) sideNode (chainNode 16) r eq_refl
              ltac:(vm_compute; discriminate) Hr) as [_ Herr].
  split; [by rewrite (Herr Hnot) | exact Hnot].
Defined.

(** ** [FindNextLocatorBoundaries] *)

Lemma firstKnown_None blockNodeStore locator :
  forall i, firstKnown blockNodeStore locator i = None <->
            forall h, In h locator -> blockNodeStore !! h = None.
Proof.
  induction locator as [| h rest IH]; intros i; simpl.
  - split; [intros _ h [] | done].
  - destruct (blockNodeStore !! h) eqn:Hh.
    + split; [done |]. intros H. specialize (H h (or_introl eq_refl)). congruence.
    + rewrite IH. split.
      * intros H x [<- | Hx]; auto.
      * intros H x Hx. apply H. by right.
Qed.

Lemma firstKnown_Some blockNodeStore locator :
  forall i j n, firstKnown blockNodeStore locator i = Some (j, n) ->
    exists k h,
      j = i + Z.of_nat k /\
      locator !! k = Some h /\ blockNodeStore !! h = Some n /\
      forall k' h', (k' < k)%nat -> locator !! k' = Some h' ->
                    blockNodeStore !! h' = None.
Proof.
  induction locator as [| h rest IH]; intros i j n H; simpl in H; [done |].
  destruct (blockNodeStore !! h) as [n0 |] eqn:Hh.
  - injection H as <- <-. exists 0%nat, h.
    split; [lia |]. split; [done |]. split; [done |]. intros; lia.
  - destruct (IH _ _ _ H) as (k & h0 & -> & Hk & Hn & Hpre).
    exists (S k), h0. split; [lia |]. split; [done |]. split; [done |].
    intros [| k'] h' Hlt Hk'; simpl in Hk'.
    + by injection Hk' as <-.
    + apply (Hpre k'); [lia | done].
Qed.

(** C5, refuted as stated: for the locator [10, 9, 3] over a store that
    knows the blocks 0..3, the high hash returned is 9 and the low hash is
    3; the first unknown entry is 10, not 9, and 3 comes after 9, not
    before it. *)
Lemma C5_boundaries_not_first_unknown :
  FindNextLocatorBoundaries (chainStore 3) 0%N [10; 9; 3]%N
    = Some (Some 9%N, 3%N) /\
  ~ firstUnknownAndItsPredecessor (chainStore 3) [10; 9; 3]%N 9%N 3%N.
Proof.
  split; [vm_compute; reflexivity |].
  intros (j & Hj & _ & Hpre & Hpos & _).
  destruct j as [| [| [| j]]]; simpl in Hj; try discriminate.
  destruct (Hpre 0%nat 10%N ltac:(lia) eq_refl) as [n Hn].
  vm_compute in Hn. discriminate.
Qed.

(** C5, as amended: over a store that keeps its nodes under their hashes
    and knows genesis, [FindNextLocatorBoundaries] returns as low hash the
    first locator entry that is known locally and as high hash the entry
    immediately before it, the lowest of the unknown entries above it, or
    nil when the first entry is known; when every entry is unknown the low
    hash is genesis and the high hash is the last locator entry (nil for
    an empty locator). *)
Theorem C5_FindNextLocatorBoundaries
    (blockNodeStore : gmap Hash BlockNode) (GenesisHash : Hash)
    (locator : list Hash) :
  storeKeyedByHash blockNodeStore ->
  is_Some (blockNodeStore !! GenesisHash) ->
  exists highHash lowHash,
    FindNextLocatorBoundaries blockNodeStore GenesisHash locator
      = Some (highHash, lowHash) /\
    ((exists k,
        locator !! k = Some lowHash /\
        is_Some (blockNodeStore !! lowHash) /\
        (forall k' h', (k' < k)%nat -> locator !! k' = Some h' ->
                       blockNodeStore !! h' = None) /\
        highHash = match k with O => None | S k' => locator !! k' end)
     \/
     ((forall h, In h locator -> blockNodeStore !! h = None) /\
      lowHash = GenesisHash /\
      highHash = last locator)).
Proof.
  intros Hkeyed [g Hg]. unfold FindNextLocatorBoundaries. rewrite Hg.
  destruct (firstKnown blockNodeStore locator 0) as [[j n] |] eqn:Hfk.
  - destruct (firstKnown_Some _ _ _ _ _ Hfk) as (k & h & -> & Hk & Hn & Hpre).
    pose proof (Hkeyed _ _ Hn) as Hh. subst h.
    destruct k as [| k].
    + exists None, (Hash_ n). split; [reflexivity |]. left.
      exists 0%nat. split; [exact Hk |]. split; [by exists n |].
      split; [exact Hpre | reflexivity].
    + destruct (Z.ltb_spec (0 + Z.of_nat (S k) - 1) 0); [lia |].
      replace (Z.to_nat (0 + Z.of_nat (S k) - 1)) with k by lia.
      assert (Hlt : (k < length locator)%nat).
      { apply lookup_lt_Some in Hk. lia. }
      destruct (lookup_lt_is_Some_2 locator k Hlt) as [hk Hhk].
      rewrite Hhk. exists (Some hk), (Hash_ n). split; [reflexivity |].
      left. exists (S k). split; [exact Hk |]. split; [by exists n |].
      split; [exact Hpre | by rewrite Hhk].
  - rewrite firstKnown_None in Hfk.
    rewrite (Hkeyed _ _ Hg).
    destruct (Z.ltb_spec (Z.of_nat (length locator) - 1) 0) as [Hlt | Hge].
    + exists None, GenesisHash. split; [reflexivity |]. right.
      destruct locator; [done | simpl in Hlt; lia].
    + assert (Hl : (Z.to_nat (Z.of_nat (length locator) - 1) < length locator)%nat)
        by lia.
      destruct (lookup_lt_is_Some_2 locator _ Hl) as [hl Hhl].
      rewrite Hhl. exists (Some hl), GenesisHash. split; [reflexivity |].
      right. split; [exact Hfk |]. split; [reflexivity |].
      rewrite last_lookup. rewrite <- Hhl. f_equal. lia.
Qed.

Lemma chainStore_keyed n : storeKeyedByHash (chainStore n).
Proof.
  induction n as [| n IH]; intros h x Hx; simpl in Hx.
  - apply lookup_insert_Some in Hx as [[<- <-] | [_ Hx]]; [done |].
    by rewrite lookup_empty in Hx.
  - apply lookup_insert_Some in Hx as [[<- <-] | [_ Hx]]; [done |].
    by apply IH.
Qed.

(** The amended C5 on the locator [10, 9, 3] over the blocks 0..3. *)
Lemma C5_FindNextLocatorBoundaries_witness :
  storeKeyedByHash (chainStore 3) /\
  is_Some (chainStore 3 !! 0%N) /\
  exists highHash lowHash,
    FindNextLocatorBoundaries (chainStore 3) 0%N [10; 9; 3]%N
      = Some (highHash, lowHash) /\
    ((exists k,
        [10; 9; 3]%N !! k = Some lowHash /\
        is_Some (chainStore 3 !! lowHash) /\
        (forall k' h', (k' < k)%nat -> [10; 9; 3]%N !! k' = Some h' ->
                       chainStore 3 !! h' = None) /\
        highHash = match k with O => None | S k' => [10; 9; 3]%N !! k' end)
     \/
     ((forall h, In h [10; 9; 3]%N -> chainStore 3 !! h = None) /\
      lowHash = 0%N /\
      highHash = last [10; 9; 3]%N)).
Proof.
  assert (Hg : is_Some (chainStore 3 !! 0%N)) by (vm_compute; eauto).
  split; [apply chainStore_keyed |]. split; [exact Hg |].
  apply (C5_FindNextLocatorBoundaries (chainStore 3) 0%N [10; 9; 3]%N
           (chainStore_keyed 3) Hg).
Defined.

End BlockLocatorFacts.

(* ===================================================================== *)
(** * Properties of package [txscript]                                    *)
(* ===================================================================== *)
Section TxScriptFacts.
Import TxScript.
Local Open Scope Z_scope.

(** ** Sig-op counting *)

Lemma sigOpStep_contribution pre pop rest precise nSigs :
  sigOpStep (pre ++ pop :: rest) precise nSigs (length pre) pop
  = nSigs + sigOpContribution precise (last pre) pop.
Proof.
  unfold sigOpStep, sigOpContribution.
  destruct ((value (opcode_ pop) =? OpCheckSig)
            || (value (opcode_ pop) =? OpCheckSigVerify)); [reflexivity |].
  destruct ((value (opcode_ pop) =? OpCheckMultiSig)
            || (value (opcode_ pop) =? OpCheckMultiSigVerify)); [| lia].
  destruct pre as [| x pre'] using rev_ind.
  - simpl. rewrite andb_false_r. reflexivity.
  - rewrite last_snoc, length_app. simpl length.
    replace (length pre' + 1 - 1)%nat with (length pre') by lia.
    rewrite <- app_assoc. simpl app.
    rewrite (list_lookup_middle pre' (pop :: rest) x (length pre') eq_refl).
    replace (0 <? length pre' + 1)%nat with true
      by (symmetry; apply Nat.ltb_lt; lia).
    destruct precise; cbn [andb]; [| reflexivity].
    rewrite Z.geb_leb.
    destruct ((Op1 <=? value (opcode_ x)) && (value (opcode_ x) <=? Op16));
      reflexivity.
Qed.

Lemma sigOpLoop_contributions precise rest :
  forall pre nSigs,
    sigOpLoop (pre ++ rest) precise nSigs (length pre) rest
    = nSigs + sumContributions (sigOpContribution precise) (last pre) rest.
Proof.
  induction rest as [| pop rest IH]; intros pre nSigs; simpl.
  - lia.
  - rewrite sigOpStep_contribution.
    specialize (IH (pre ++ [pop])). rewrite <- app_assoc in IH. simpl in IH.
    rewrite length_app in IH. simpl in IH.
    replace (S (length pre)) with (length pre + 1)%nat by lia.
    rewrite IH, last_snoc. lia.
Qed.

Lemma getSigOpCount_sum pops precise :
  getSigOpCount pops precise
  = sumContributions (sigOpContribution precise) None pops.
Proof.
  unfold getSigOpCount.
  pose proof (sigOpLoop_contributions precise pops [] 0) as H.
  simpl in H. exact H.
Qed.

(** C8, refuted as stated (the opcode before a multisig tested with
    [isSmallInt]): [OP_0] is a small integer of value 0, yet in precise
    mode [OP_0 OP_CHECKMULTISIG] counts 20 signature operations. *)
Lemma C8_OP_0_before_multisig_counts_20 :
  let pops := [mkParsedOpcode (opcodeArray Op0) [];
               mkParsedOpcode (opcodeArray OpCheckMultiSig) []] in
  parseScript [Op0; OpCheckMultiSig] = (pops, None) /\
  isSmallInt (opcodeArray Op0) = true /\
  asSmallInt (opcodeArray Op0) = 0 /\
  getSigOpCount pops true = 20 /\
  getSigOpCount pops true
    <> sumContributions (sigOpContributionSmallInt true) None pops.
Proof. vm_compute. repeat split; discriminate. Qed.

(** C8, as amended: the count of [getSigOpCount] is the sum over the
    opcodes of the script of [sigOpContribution]: 1 for [OP_CHECKSIG] and
    [OP_CHECKSIG_VERIFY]; for [OP_CHECKMULTISIG] and
    [OP_CHECKMULTISIG_VERIFY] the integer value of the opcode immediately
    before it when the mode is precise and that opcode is one of [OP_1] to
    [OP_16], and 20 otherwise (mode not precise, no opcode before it, or
    an opcode before it outside [OP_1] to [OP_16], [OP_0] included); 0 for
    every other opcode. *)
Theorem C8_getSigOpCount_contributions
    (pops : list parsedOpcode) (precise : bool) :
  getSigOpCount pops precise
    = sumContributions (sigOpContribution precise) None pops /\
  (forall prev pop,
     sigOpContribution precise prev pop
     = let v := value (opcode_ pop) in
       if (v =? OpCheckSig) || (v =? OpCheckSigVerify) then 1
       else if (v =? OpCheckMultiSig) || (v =? OpCheckMultiSigVerify) then
         match prev with
         | Some p =>
             if precise && (Op1 <=? value (opcode_ p))
                && (value (opcode_ p) <=? Op16)
             then value (opcode_ p) - 80
             else 20
         | None => 20
         end
       else 0).
Proof.
  split; [apply getSigOpCount_sum |].
  intros prev pop. unfold sigOpContribution. cbv zeta.
  {
    destruct (_ || _); [reflexivity |].
    destruct (_ || _); [| reflexivity].
    destruct prev as [p |]; [| reflexivity].
    destruct precise; simpl; [| reflexivity].
    destruct (Z.leb_spec Op1 (value (opcode_ p))); simpl; [| reflexivity].
    destruct (Z.leb_spec (value (opcode_ p)) Op16); [| reflexivity].
    unfold asSmallInt. unfold Op0, Op1 in *.
    destruct (Z.eqb_spec (value (opcode_ p)) 0); lia. }
Qed.

Lemma sumContributions_snoc contribution pops pop :
  forall prev,
    sumContributions contribution prev (pops ++ [pop])
    = sumContributions contribution prev pops
      + contribution (match last pops with Some x => Some x | None => prev end) pop.
Proof.
  induction pops as [| x pops IH]; intros prev; cbn [sumContributions app].
  - simpl. lia.
  - rewrite IH, last_cons. destruct (last pops); lia.
Qed.

(** Each further opcode adds its contribution to the count. *)
Lemma getSigOpCount_snoc pops pop precise :
  getSigOpCount (pops ++ [pop]) precise
  = getSigOpCount pops precise + sigOpContribution precise (last pops) pop.
Proof.
  rewrite !getSigOpCount_sum, sumContributions_snoc. by destruct (last pops).
Qed.

(** ** Parsing *)

Lemma parseLoop_acc opcodes fuel :
  forall rest acc,
    parseLoop fuel opcodes rest acc
    = match parseLoop fuel opcodes rest [] with
      | Some (pops, e) => Some (acc ++ pops, e)
      | None => None
      end.
Proof.
  induction fuel as [| fuel IH]; intros rest acc.
  - destruct rest; simpl; [by rewrite app_nil_r | done].
  - destruct rest as [| instr tl]; simpl; [by rewrite app_nil_r |].
    destruct (parseInstr opcodes (instr :: tl) instr) as [e | [pop n]].
    + by rewrite app_nil_r.
    + rewrite (IH _ (acc ++ [pop])), (IH _ ([] ++ [pop])).
      destruct (parseLoop fuel opcodes (drop n (instr :: tl)) [])
        as [[pops e] |]; [| done].
      by rewrite <- app_assoc.
Qed.

(** An instruction that parses, of an opcode whose length in the table is
    not zero, advances by at least one byte and stays within the script. *)
Lemma parseInstr_advance_gen opcodes (rest : list Z) instr pop n :
  opLength (opcodes instr) <> 0 ->
  (1 <= length rest)%nat ->
  parseInstr opcodes rest instr = inr (pop, n) ->
  (1 <= n <= length rest)%nat.
Proof.
  intros Hnz Hlen. unfold parseInstr.
  set (L := opLength (opcodes instr)) in *.
  destruct (Z.eqb_spec L 1) as [H1 | H1].
  { intros Hx. injection Hx as _ <-. lia. }
  destruct (Z.gtb_spec L 1) as [Hgt | Hle].
  { destruct (Z.ltb_spec (Z.of_nat (length rest)) L);
      [intros Hx; discriminate Hx |].
    intros Hx. injection Hx as _ <-. lia. }
  destruct (Z.ltb_spec L 0) as [Hneg | Hpos]; [| lia].
  destruct (Z.ltb_spec (Z.of_nat (length (drop 1 rest))) (- L));
    [intros Hx; discriminate Hx |].
  destruct (if L =? -1 then _ else _) as [l |]; [| intros Hx; discriminate Hx].
  destruct (orb _ _) eqn:Hc; [intros Hx; discriminate Hx |].
  apply orb_false_elim in Hc as [Hc1 Hc2]. apply Z.ltb_ge in Hc2.
  match type of Hc1 with (?x >? ?y) = false =>
    assert (Hc1' : x <= y)
      by (destruct (Z.gtb_spec x y); [discriminate | lia])
  end.
  rewrite !length_drop in *.
  intros Hx. injection Hx as _ <-. lia.
Qed.

Lemma opcodeArray_length_nonzero instr : opLength (opcodeArray instr) <> 0.
Proof.
  unfold opcodeArray. cbn [opLength].
  unfold OpData1, OpData75, OpPushData1, OpPushData2, OpPushData4.
  destruct (Z.leb_spec 1 instr); destruct (Z.leb_spec instr 75); simpl;
    try lia;
    destruct (instr =? 76); try lia;
    destruct (instr =? 77); try lia;
    destruct (instr =? 78); lia.
Qed.

Lemma parseInstr_advance instr tl pop n :
  parseInstr opcodeArray (instr :: tl) instr = inr (pop, n) ->
  (1 <= n <= length (instr :: tl))%nat.
Proof.
  apply parseInstr_advance_gen; [apply opcodeArray_length_nonzero |].
  simpl. lia.
Qed.

(** The loop of [parseScript] ends within [len(script)] iterations. *)
Lemma parseLoop_terminates fuel :
  forall rest acc, (length rest <= fuel)%nat ->
    is_Some (parseLoop fuel opcodeArray rest acc).
Proof.
  induction fuel as [| fuel IH]; intros rest acc Hlen.
  - destruct rest; [simpl; eauto | simpl in Hlen; lia].
  - destruct rest as [| instr tl]; [simpl; eauto |].
    cbn [parseLoop].
    destruct (parseInstr opcodeArray (instr :: tl) instr) as [e | [pop n]] eqn:Hi;
      [eauto |].
    apply parseInstr_advance in Hi. apply IH.
    rewrite length_drop. simpl in *. lia.
Qed.

Lemma parseScript_terminates script :
  parseScriptTemplate script opcodeArray = Some (parseScript script).
Proof.
  unfold parseScript.
  destruct (parseLoop_terminates (length script) script [] (le_n _)) as [r Hr].
  unfold parseScriptTemplate. by rewrite Hr.
Qed.

Lemma parseLoop_more_fuel opcodes fuel :
  forall rest acc r fuel',
    parseLoop fuel opcodes rest acc = Some r -> (fuel <= fuel')%nat ->
    parseLoop fuel' opcodes rest acc = Some r.
Proof.
  induction fuel as [| fuel IH]; intros rest acc r fuel' H Hle.
  - destruct rest; [| done]. by destruct fuel'.
  - destruct rest as [| instr tl]; [by destruct fuel' |].
    destruct fuel' as [| fuel']; [lia |]. cbn [parseLoop] in *.
    destruct (parseInstr opcodes (instr :: tl) instr) as [e | [pop n]]; [done |].
    eapply IH; [exact H | lia].
Qed.

(** The equations of [parseScript]. *)
Lemma parseScript_nil : parseScript [] = ([], None).
Proof. reflexivity. Qed.

Lemma parseScript_cons instr tl :
  parseScript (instr :: tl)
  = match parseInstr opcodeArray (instr :: tl) instr with
    | inl e => ([], Some e)
    | inr (pop, n) =>
        let '(pops, e) := parseScript (drop n (instr :: tl)) in
        (pop :: pops, e)
    end.
Proof.
  pose proof (parseScript_terminates (instr :: tl)) as H.
  unfold parseScriptTemplate in H. cbn [length parseLoop] in H.
  destruct (parseInstr opcodeArray (instr :: tl) instr) as [e | [pop n]] eqn:Hi.
  - by injection H as <-.
  - rewrite parseLoop_acc in H.
    pose proof (parseScript_terminates (drop n (instr :: tl))) as H'.
    unfold parseScriptTemplate in H'.
    apply parseInstr_advance in Hi.
    eapply parseLoop_more_fuel with (fuel' := length tl) in H';
      [| rewrite length_drop; simpl; lia].
    rewrite H' in H. destruct (parseScript (drop n (instr :: tl))) as [pops e].
    by injection H as <-.
Qed.

Lemma byteAt_app_l (a b : list Z) i :
  (i < length a)%nat -> byteAt (a ++ b) i = byteAt a i.
Proof. intros H. unfold byteAt. by rewrite app_nth1. Qed.

(** An instruction that parses within [a] parses the same way when more
    bytes follow [a]. *)
Lemma parseInstr_app opcodes (a b : list Z) instr pop n :
  (1 <= length a)%nat ->
  parseInstr opcodes a instr = inr (pop, n) ->
  (n <= length a)%nat ->
  parseInstr opcodes (a ++ b) instr = inr (pop, n).
Proof.
  intros Ha. unfold parseInstr.
  destruct (opLength (opcodes instr) =? 1); [done |].
  destruct (Z.gtb_spec (opLength (opcodes instr)) 1) as [Hgt | _].
  { rewrite length_app.
    destruct (Z.ltb_spec (Z.of_nat (length a)) (opLength (opcodes instr)));
      [intros Hx; discriminate Hx |].
    destruct (Z.ltb_spec (Z.of_nat (length a + length b))
                (opLength (opcodes instr))); [lia |].
    intros Hres Hn. injection Hres as <- <-. do 2 f_equal.
    rewrite drop_app_le by lia. rewrite take_app_le; [done |].
    rewrite length_drop. lia. }
  destruct (Z.ltb_spec (opLength (opcodes instr)) 0) as [Hneg | _]; [| done].
  rewrite (drop_app_le a b 1) by lia.
  set (off := drop 1 a).
  assert (Hoff : length off = (length a - 1)%nat) by apply length_drop.
  rewrite length_app.
  destruct (Z.ltb_spec (Z.of_nat (length off)) (- opLength (opcodes instr)));
    [intros Hx; discriminate Hx |].
  destruct (Z.ltb_spec (Z.of_nat (length off + length b))
              (- opLength (opcodes instr))); [lia |].
  assert (Hl :
    (if opLength (opcodes instr) =? -1 then Some (byteAt (off ++ b) 0)
     else if opLength (opcodes instr) =? -2 then
       Some (Z.lor (Z.shiftl (byteAt (off ++ b) 1) 8) (byteAt (off ++ b) 0))
     else if opLength (opcodes instr) =? -4 then
       Some (Z.lor (Z.lor (Z.lor (Z.shiftl (byteAt (off ++ b) 3) 24)
                                 (Z.shiftl (byteAt (off ++ b) 2) 16))
                          (Z.shiftl (byteAt (off ++ b) 1) 8))
                   (byteAt (off ++ b) 0))
     else None)
    = (if opLength (opcodes instr) =? -1 then Some (byteAt off 0)
       else if opLength (opcodes instr) =? -2 then
         Some (Z.lor (Z.shiftl (byteAt off 1) 8) (byteAt off 0))
       else if opLength (opcodes instr) =? -4 then
         Some (Z.lor (Z.lor (Z.lor (Z.shiftl (byteAt off 3) 24)
                                   (Z.shiftl (byteAt off 2) 16))
                            (Z.shiftl (byteAt off 1) 8))
                     (byteAt off 0))
       else None)).
  { destruct (Z.eqb_spec (opLength (opcodes instr)) (-1));
      [by rewrite byteAt_app_l by lia |].
    destruct (Z.eqb_spec (opLength (opcodes instr)) (-2));
      [by rewrite !byteAt_app_l by lia |].
    destruct (Z.eqb_spec (opLength (opcodes instr)) (-4));
      [by rewrite !byteAt_app_l by lia | done]. }
  rewrite Hl. clear Hl.
  destruct (if opLength (opcodes instr) =? -1 then _ else _) as [l |];
    [| intros Hx; discriminate Hx].
  rewrite drop_app_le by lia. rewrite length_app, !length_drop.
  destruct (orb _ _) eqn:Hc; [intros Hx; discriminate Hx |].
  apply orb_false_elim in Hc as [Hc1 Hc2]. apply Z.ltb_ge in Hc2.
  match type of Hc1 with (?x >? ?y) = false =>
    assert (Hc1' : x <= y)
      by (destruct (Z.gtb_spec x y); [discriminate | lia])
  end.
  match goal with |- context [(?x >? ?y) || _] =>
    destruct (Z.gtb_spec x y); [lia |]
  end.
  destruct (Z.ltb_spec l 0); [lia |]. simpl.
  intros Hres Hn. injection Hres as <- <-. do 2 f_equal.
  rewrite take_app_le; [done |]. rewrite length_drop. lia.
Qed.

(** A script that parses without error parses the same way as the front
    of a longer script, and parsing goes on with what follows. *)
Lemma parseScript_app (b : list Z) :
  forall k (a : list Z) pa,
    (length a <= k)%nat ->
    parseScript a = (pa, None) ->
    parseScript (a ++ b)
    = (pa ++ fst (parseScript b), snd (parseScript b)).
Proof.
  induction k as [| k IH]; intros a pa Hk Ha.
  - destruct a; [| simpl in Hk; lia]. rewrite parseScript_nil in Ha.
    injection Ha as <-. simpl. by destruct (parseScript b).
  - destruct a as [| instr tl].
    { rewrite parseScript_nil in Ha. injection Ha as <-. simpl.
      by destruct (parseScript b). }
    rewrite parseScript_cons in Ha.
    change ((instr :: tl) ++ b) with (instr :: (tl ++ b)).
    rewrite parseScript_cons.
    change (instr :: (tl ++ b)) with ((instr :: tl) ++ b).
    destruct (parseInstr opcodeArray (instr :: tl) instr) as [e | [pop n]] eqn:Hi;
      [done |].
    pose proof (parseInstr_advance _ _ _ _ Hi) as Hn.
    rewrite (parseInstr_app opcodeArray (instr :: tl) b instr pop n
               ltac:(simpl; lia) Hi ltac:(lia)).
    rewrite drop_app_le by lia.
    destruct (parseScript (drop n (instr :: tl))) as [pops e] eqn:Hd.
    injection Ha as <- ->.
    rewrite (IH (drop n (instr :: tl)) pops); [| | done].
    + reflexivity.
    + rewrite length_drop. simpl in *. lia.
Qed.






End TxScriptFacts.

Section SignatureHashFacts.
Import TxScript.
Local Open Scope Z_scope.

(** ** The signature hash *)

Lemma bind_Some {A B : Type} (c : M A) (f : A -> M B) m b m' :
  bind c f m = Some (b, m') ->
  exists a m1, c m = Some (a, m1) /\ f a m1 = Some (b, m').
Proof.
  unfold bind. destruct (c m) as [[a m1] |]; [| done]. eauto.
Qed.

(** [calcSignatureHash] returns an error only from its first check: the
    hash type is [SigHashSingle] under the mask, the index is not below
    the number of outputs, the error is [ErrInvalidSigHashSingleIndex],
    and memory is as it was. *)
Lemma calcSignatureHash_error bytes TransactionHashForSigning
    prevScriptPublicKey scriptVersion hashType tx idx m e m' :
  calcSignatureHash bytes TransactionHashForSigning prevScriptPublicKey
    scriptVersion hashType tx idx m = Some (inl e, m') ->
  e = scriptError ErrInvalidSigHashSingleIndex /\
  Z.land hashType sigHashMask = SigHashSingle /\
  idx >= Z.of_nat (length (Outputs tx)) /\
  m' = m.
Proof.
  unfold calcSignatureHash.
  destruct ((Z.land hashType sigHashMask =? SigHashSingle)
            && (idx >=? Z.of_nat (length (Outputs tx)))) eqn:Hguard.
  - intros H. injection H as <- <-.
    apply andb_prop in Hguard as [H1 H2].
    apply Z.eqb_eq in H1. apply Z.geb_le in H2. repeat split; [done | lia].
  - intros H.
    apply bind_Some in H as (txCopy & m1 & _ & H).
    apply bind_Some in H as (? & m2 & _ & H).
    apply bind_Some in H as (txCopy2 & m3 & _ & H).
    apply bind_Some in H as (txCopy3 & m4 & _ & H).
    apply bind_Some in H as (view & m5 & _ & H).
    discriminate H.
Qed.

(** C6: for a hash type that is [SigHashSingle] under the mask,
    [calcSignatureHash] fails with [ErrInvalidSigHashSingleIndex] exactly
    when the index is at least the number of outputs of the
    transaction. *)
Theorem C6_calcSignatureHash_SigHashSingle_index
    (bytes : parsedOpcode -> error + list Z)
    (TransactionHashForSigning : TxView -> Z -> Hash)
    (prevScriptPublicKey : list parsedOpcode) (scriptVersion hashType : Z)
    (tx : DomainTransaction) (idx : Z) (m : memory) :
  Z.land hashType sigHashMask = SigHashSingle ->
  ((exists m',
      calcSignatureHash bytes TransactionHashForSigning prevScriptPublicKey
        scriptVersion hashType tx idx m
      = Some (inl (scriptError ErrInvalidSigHashSingleIndex), m'))
   <-> idx >= Z.of_nat (length (Outputs tx))).
Proof.
  intros Hmask. split.
  - intros [m' H]. by apply calcSignatureHash_error in H as (_ & _ & H & _).
  - intros Hidx. exists m. unfold calcSignatureHash.
    rewrite Hmask, Z.eqb_refl.
    destruct (Z.geb_spec idx (Z.of_nat (length (Outputs tx)))); [| lia].
    reflexivity.
Qed.

(** C6 on a transaction with three inputs and two outputs, at index 2. *)
Lemma C6_calcSignatureHash_SigHashSingle_index_witness :
  Z.land SigHashSingle sigHashMask = SigHashSingle /\
  length (Inputs tx3in2out) = 3%nat /\
  length (Outputs tx3in2out) = 2%nat /\
  exists m',
    calcSignatureHash exampleBytes exampleHash [] 0 SigHashSingle tx3in2out 2
      exampleMemory
    = Some (inl (scriptError ErrInvalidSigHashSingleIndex), m').
Proof.
  split; [reflexivity |]. split; [reflexivity |]. split; [reflexivity |].
  apply (C6_calcSignatureHash_SigHashSingle_index exampleBytes exampleHash []
           0 SigHashSingle tx3in2out 2 exampleMemory eq_refl).
  simpl. lia.
Defined.

(** The exported [CalcSignatureHash] reaches that check once the version
    of the script is known and the script parses; before, it fails with
    errors of its own. *)
Lemma CalcSignatureHash_SigHashSingle_index
    bytes TransactionHashForSigning script hashType tx idx m :
  Version script <= MaxScriptPublicKeyVersion ->
  snd (parseScript (Script script)) = None ->
  Z.land hashType sigHashMask = SigHashSingle ->
  ((exists m',
      CalcSignatureHash bytes TransactionHashForSigning script hashType tx idx m
      = Some (inl (scriptError ErrInvalidSigHashSingleIndex), m'))
   <-> idx >= Z.of_nat (length (Outputs tx))).
Proof.
  intros Hv Hp Hmask. unfold CalcSignatureHash.
  destruct (Z.gtb_spec (Version script) MaxScriptPublicKeyVersion); [lia |].
  destruct (parseScript (Script script)) as [pops [e |]]; [done |].
  split.
  - intros [m' Hc]. by apply calcSignatureHash_error in Hc as (_ & _ & Hc & _).
  - intros Hidx. exists m. unfold calcSignatureHash.
    rewrite Hmask, Z.eqb_refl.
    destruct (Z.geb_spec idx (Z.of_nat (length (Outputs tx)))); [| lia].
    reflexivity.
Qed.

Lemma CalcSignatureHash_unparsable_script
    bytes TransactionHashForSigning hashType tx idx m :
  CalcSignatureHash bytes TransactionHashForSigning
    (mkScriptPublicKey [OpData1] 0) hashType tx idx m
  = Some (inl (Errorf "cannot parse output script"), m).
Proof. reflexivity. Qed.

(** C10, where the code departs from it and changes the transaction: with
    [SigHashSingle] at index 1 of a transaction with two outputs, the call
    succeeds and the transaction that was passed in has lost the script of
    its output 0; the copy of an output shares the [ScriptPublicKey] the
    original points to, and the script is cleared through it. *)
Theorem C10_calcSignatureHash_SigHashSingle_clears_script
    (bytes : parsedOpcode -> error + list Z)
    (TransactionHashForSigning : TxView -> Z -> Hash)
    (prevScriptPublicKey : list parsedOpcode) :
  exists h m',
    calcSignatureHash bytes TransactionHashForSigning prevScriptPublicKey 0
      SigHashSingle tx2in2out 1 exampleMemory = Some (inr h, m') /\
    viewOutputs <$> viewTx exampleMemory tx2in2out
      = Some [(5000, mkScriptPublicKey [OpCheckSig] 0);
              (7000, mkScriptPublicKey [Op1; OpCheckSig] 0)] /\
    viewOutputs <$> viewTx m' tx2in2out
      = Some [(5000, mkScriptPublicKey [] 0);
              (7000, mkScriptPublicKey [Op1; OpCheckSig] 0)] /\
    viewInputs <$> viewTx m' tx2in2out
      = viewInputs <$> viewTx exampleMemory tx2in2out /\
    viewTx m' tx2in2out <> viewTx exampleMemory tx2in2out.
Proof.
  eexists _, _. split; [vm_compute; reflexivity |].
  split; [vm_compute; reflexivity |].
  split; [vm_compute; reflexivity |].
  split; [vm_compute; reflexivity |].
  vm_compute. discriminate.
Qed.

(** At index 0, where no output precedes the signed one, and with
    [SigHashAll] or [SigHashNone], the same transaction is left as it
    was. *)
Lemma calcSignatureHash_examples_unchanged
    (bytes : parsedOpcode -> error + list Z)
    (TransactionHashForSigning : TxView -> Z -> Hash)
    (prevScriptPublicKey : list parsedOpcode) :
  forall hashType idx,
    In (hashType, idx)
       [(SigHashSingle, 0); (SigHashAll, 0); (SigHashAll, 1);
        (SigHashNone, 0); (SigHashNone, 1);
        (Z.lor SigHashAll SigHashAnyOneCanPay, 1)] ->
    exists h m',
      calcSignatureHash bytes TransactionHashForSigning prevScriptPublicKey 0
        hashType tx2in2out idx exampleMemory = Some (inr h, m') /\
      viewTx m' tx2in2out = viewTx exampleMemory tx2in2out.
Proof.
  intros hashType idx Hin. simpl in Hin.
  repeat (destruct Hin as [Heq | Hin];
          [injection Heq as <- <-; eexists _, _;
           split; vm_compute; reflexivity |]).
  contradiction.
Qed.

End SignatureHashFacts.

Section FrameFacts.
Import TxScript.
Local Open Scope Z_scope.

Lemma kept_refl strict m : kept strict m m.
Proof. split; [| split]; [intros p v H; exact H | intros p v H; exact H | reflexivity]. Qed.

Lemma keeps_ret {A : Type} strict m0 (a : A) (Q : A -> Prop) :
  Q a -> keeps strict m0 (ret a) Q.
Proof. intros HQ m x m' Hk H. injection H as <- <-. done. Qed.

Lemma keeps_bind {A B : Type} strict m0 (c : M A) (f : A -> M B)
    (Q : A -> Prop) (R : B -> Prop) :
  keeps strict m0 c Q ->
  (forall a, Q a -> keeps strict m0 (f a) R) ->
  keeps strict m0 (bind c f) R.
Proof.
  intros Hc Hf m b m' Hk H. unfold bind in H.
  destruct (c m) as [[a m1] |] eqn:Hcm; [| done].
  destruct (Hc _ _ _ Hk Hcm) as [Hk1 HQ].
  by apply (Hf a HQ m1).
Qed.

Lemma keeps_weaken {A : Type} strict m0 (c : M A) (Q R : A -> Prop) :
  keeps strict m0 c Q -> (forall a, Q a -> R a) -> keeps strict m0 c R.
Proof.
  intros Hc HQR m a m' Hk H. destruct (Hc _ _ _ Hk H). split; auto.
Qed.

Lemma keeps_panic {A : Type} strict m0 (Q : A -> Prop) :
  keeps strict m0 panic Q.
Proof. intros m a m' _ H. discriminate H. Qed.

Lemma keeps_loadInput strict m0 p :
  keeps strict m0 (loadInput p) (fun _ => True).
Proof.
  intros m a m' Hk H. unfold loadInput in H.
  destruct (inputCells m !! p); [| done]. by injection H as <- <-.
Qed.

Lemma keeps_loadOutput strict m0 p :
  keeps strict m0 (loadOutput p) (fun _ => True).
Proof.
  intros m a m' Hk H. unfold loadOutput in H.
  destruct (outputCells m !! p); [| done]. by injection H as <- <-.
Qed.

Lemma keeps_loadScript strict m0 p :
  keeps strict m0 (loadScript p) (fun _ => True).
Proof.
  intros m a m' Hk H. unfold loadScript in H.
  destruct (scriptCells m !! p); [| done]. by injection H as <- <-.
Qed.

Lemma keeps_storeInput strict m0 p v :
  inputCells m0 !! p = None ->
  keeps strict m0 (storeInput p v) (fun _ => True).
Proof.
  intros Hp m a m' (Hi & Ho & Hs) H. unfold storeInput in H.
  destruct (inputCells m !! p); [| done]. injection H as <- <-.
  split; [| done]. split; [| done].
  intros q w Hq. cbn [inputCells].
  rewrite lookup_insert_ne; [by apply Hi | congruence].
Qed.

Lemma keeps_storeOutput strict m0 p v :
  outputCells m0 !! p = None ->
  keeps strict m0 (storeOutput p v) (fun _ => True).
Proof.
  intros Hp m a m' (Hi & Ho & Hs) H. unfold storeOutput in H.
  destruct (outputCells m !! p); [| done]. injection H as <- <-.
  split; [| done]. split; [done |]. split; [| done].
  intros q w Hq. cbn [outputCells].
  rewrite lookup_insert_ne; [by apply Ho | congruence].
Qed.

Lemma keeps_storeScript m0 p v :
  keeps false m0 (storeScript p v) (fun _ => True).
Proof.
  intros m a m' (Hi & Ho & Hs) H. unfold storeScript in H.
  destruct (scriptCells m !! p); [| done]. injection H as <- <-.
  split; [| done]. split; [done |]. split; [done |]. done.
Qed.

Lemma In_take {A : Type} (x : A) n (l : list A) : In x (take n l) -> In x l.
Proof.
  rewrite <- !list_elem_of_In. apply subseteq_take.
Qed.

Lemma insertAll_lookup_ne {V : Type} (ps : list ptr) (v : V) cells q :
  ~ In q ps -> insertAll ps v cells !! q = cells !! q.
Proof.
  induction ps as [| p ps IH]; intros Hq; simpl; [done |].
  rewrite lookup_insert_ne; [| intros ->; apply Hq; by left].
  apply IH. intros Hin. apply Hq. by right.
Qed.

Lemma fresh_list_not_in_cells {V : Type} (c0 c : gmap ptr V) n p :
  cellsKept c0 c -> In p (fresh_list n (dom c)) -> c0 !! p = None.
Proof.
  intros Hk Hin. apply list_elem_of_In, fresh_list_is_fresh in Hin.
  destruct (c0 !! p) as [v |] eqn:Hp; [| done].
  exfalso. apply Hin, elem_of_dom. exists v. by apply Hk.
Qed.

Lemma cellsKept_insertAll_fresh {V : Type} (c0 c : gmap ptr V) n v :
  cellsKept c0 c -> cellsKept c0 (insertAll (fresh_list n (dom c)) v c).
Proof.
  intros Hk p w Hp. rewrite insertAll_lookup_ne; [by apply Hk |].
  intros Hin. pose proof (fresh_list_not_in_cells _ _ _ _ Hk Hin). congruence.
Qed.

Lemma keeps_allocInputs strict m0 n :
  keeps strict m0 (allocInputs n)
    (fun ps => forall p, In p ps -> inputCells m0 !! p = None).
Proof.
  intros m ps m' (Hi & Ho & Hs) H. unfold allocInputs in H.
  injection H as <- <-. split.
  - split; [| done]. cbn [inputCells]. by apply cellsKept_insertAll_fresh.
  - intros p Hp. by eapply fresh_list_not_in_cells.
Qed.

Lemma keeps_allocOutputs strict m0 n nilPtr :
  keeps strict m0 (allocOutputs n nilPtr)
    (fun ps => forall p, In p ps -> outputCells m0 !! p = None).
Proof.
  intros m ps m' (Hi & Ho & Hs) H. unfold allocOutputs in H.
  injection H as <- <-. split.
  - split; [done |]. split; [| done]. cbn [outputCells].
    by apply cellsKept_insertAll_fresh.
  - intros p Hp. by eapply fresh_list_not_in_cells.
Qed.

Lemma keeps_forRangeFrom {A : Type} strict m0 (l : list A)
    (body : nat -> A -> M unit) :
  (forall i x, In x l -> keeps strict m0 (body i x) (fun _ => True)) ->
  forall i, keeps strict m0 (forRangeFrom i l body) (fun _ => True).
Proof.
  induction l as [| x l IH]; intros Hbody i; cbn [forRangeFrom].
  - by apply keeps_ret.
  - eapply keeps_bind; [apply Hbody; by left |].
    intros _ _. apply IH. intros j y Hy. apply Hbody. by right.
Qed.

Lemma keeps_forRange {A : Type} strict m0 (l : list A)
    (body : nat -> A -> M unit) :
  (forall i x, In x l -> keeps strict m0 (body i x) (fun _ => True)) ->
  keeps strict m0 (forRange l body) (fun _ => True).
Proof. intros H. by apply keeps_forRangeFrom. Qed.

Lemma keeps_mapM {A B : Type} strict m0 (f : A -> M B) (l : list A) :
  (forall x, keeps strict m0 (f x) (fun _ => True)) ->
  keeps strict m0 (mapM f l) (fun _ => True).
Proof.
  intros Hf. induction l as [| x l IH]; cbn [mapM].
  - by apply keeps_ret.
  - eapply keeps_bind; [apply Hf |]. intros y _.
    eapply keeps_bind; [apply IH |]. intros ys _. by apply keeps_ret.
Qed.

(** [shallowCopyTx] writes to the cells it allocates only. *)
Lemma keeps_shallowCopyTx strict m0 tx :
  keeps strict m0 (shallowCopyTx tx) (freshCopy m0).
Proof.
  unfold shallowCopyTx.
  eapply keeps_bind; [apply keeps_allocInputs |]. intros txIns HIns.
  eapply keeps_bind.
  { apply keeps_forRange. intros i oldTxIn _.
    eapply keeps_bind; [apply keeps_loadInput |]. intros v _.
    destruct (txIns !! i) as [p |] eqn:Hp; [| apply keeps_panic].
    apply keeps_storeInput, HIns.
    apply list_elem_of_In, list_elem_of_lookup. eauto. }
  intros _ _.
  eapply keeps_bind with (Q := fun _ => True).
  { intros m a m' Hk H. injection H as <- <-. done. }
  intros nilPtr _.
  eapply keeps_bind; [apply keeps_allocOutputs |]. intros txOuts HOuts.
  eapply keeps_bind.
  { apply keeps_forRange. intros i oldTxOut _.
    eapply keeps_bind; [apply keeps_loadOutput |]. intros v _.
    destruct (txOuts !! i) as [p |] eqn:Hp; [| apply keeps_panic].
    apply keeps_storeOutput, HOuts.
    apply list_elem_of_In, list_elem_of_lookup. eauto. }
  intros _ _. apply keeps_ret. split; assumption.
Qed.

Lemma keeps_zeroOtherSequences strict m0 ins idx :
  (forall p, In p ins -> inputCells m0 !! p = None) ->
  keeps strict m0 (zeroOtherSequences ins idx) (fun _ => True).
Proof.
  intros Hins. unfold zeroOtherSequences. apply keeps_forRange.
  intros i p Hp. destruct (negb (Z.of_nat i =? idx)); [| by apply keeps_ret].
  eapply keeps_bind; [apply keeps_loadInput |]. intros v _.
  by apply keeps_storeInput, Hins.
Qed.

Lemma keeps_readTx strict m0 tx :
  keeps strict m0 (readTx tx) (fun _ => True).
Proof.
  unfold readTx.
  eapply keeps_bind; [apply keeps_mapM; intros; apply keeps_loadInput |].
  intros ins _.
  eapply keeps_bind.
  { apply keeps_mapM. intros p. unfold readOutput.
    eapply keeps_bind; [apply keeps_loadOutput |]. intros o _.
    eapply keeps_bind; [apply keeps_loadScript |]. intros s _.
    by apply keeps_ret. }
  intros outs _. by apply keeps_ret.
Qed.

(** [calcSignatureHash] writes to the inputs and outputs of its copy
    only; and it leaves the script public keys alone ([strict]) unless the
    hash type is [SigHashSingle] with a positive index. *)
Lemma keeps_calcSignatureHash strict bytes TransactionHashForSigning
    prevScriptPublicKey scriptVersion hashType tx idx m0 :
  (strict = true ->
   Z.land hashType sigHashMask <> SigHashSingle \/ idx <= 0) ->
  keeps strict m0
    (calcSignatureHash bytes TransactionHashForSigning prevScriptPublicKey
       scriptVersion hashType tx idx)
    (fun _ => True).
Proof.
  intros Hstrict. unfold calcSignatureHash.
  destruct (_ && _); [by apply keeps_ret |].
  eapply keeps_bind; [apply keeps_shallowCopyTx |].
  intros txCopy [HIns HOuts].
  eapply keeps_bind.
  { apply keeps_forRange. intros i p Hp. cbn [setPayload Inputs] in Hp.
    eapply keeps_bind; [apply keeps_loadInput |]. intros v _.
    destruct (Z.of_nat i =? idx); by apply keeps_storeInput, HIns. }
  intros _ _.
  eapply keeps_bind with (Q := freshCopy m0).
  { destruct (Z.land hashType sigHashMask =? SigHashNone).
    { eapply keeps_bind; [by apply keeps_zeroOtherSequences |].
      intros _ _. apply keeps_ret. split; [exact HIns |]. intros p []. }
    destruct (Z.eqb_spec (Z.land hashType sigHashMask) SigHashSingle)
      as [Hsingle | _];
      [| apply keeps_ret; by split].
    destruct (_ || _); [apply keeps_panic |].
    eapply keeps_bind.
    { apply keeps_forRange. intros i p Hp.
      cbn [setOutputs setPayload Outputs] in Hp.
      apply In_take in Hp as Hp'. apply In_take in Hp'.
      destruct strict.
      - destruct (Hstrict eq_refl) as [? | Hle]; [done |].
        replace (Z.to_nat idx) with 0%nat in Hp by lia.
        rewrite take_0 in Hp. destruct Hp.
      - eapply keeps_bind; [apply keeps_loadOutput |]. intros o _.
        eapply keeps_bind; [by apply keeps_storeOutput, HOuts |]. intros _ _.
        eapply keeps_bind; [apply keeps_loadScript |]. intros s _.
        eapply keeps_bind; [apply keeps_storeScript |]. intros _ _.
        eapply keeps_bind; [apply keeps_loadScript |]. intros s' _.
        apply keeps_storeScript. }
    intros _ _.
    eapply keeps_bind; [by apply keeps_zeroOtherSequences |].
    intros _ _. apply keeps_ret. split; [exact HIns |].
    intros p Hp. cbn [setOutputs setPayload Outputs] in Hp.
    apply In_take in Hp. by apply HOuts. }
  intros txCopy2 _.
  eapply keeps_bind with (Q := fun _ => True).
  { destruct (negb _); [| by apply keeps_ret].
    destruct (_ || _); [apply keeps_panic | by apply keeps_ret]. }
  intros txCopy3 _.
  eapply keeps_bind; [apply keeps_readTx |].
  intros view _. by apply keeps_ret.
Qed.

Lemma loadInput_Some p m v m1 :
  loadInput p m = Some (v, m1) -> inputCells m !! p = Some v /\ m1 = m.
Proof.
  unfold loadInput. destruct (inputCells m !! p); [| done].
  intros H. by injection H as <- <-.
Qed.

Lemma readOutput_Some p m r m1 :
  readOutput p m = Some (r, m1) ->
  exists o s, outputCells m !! p = Some o /\
              scriptCells m !! ScriptPublicKeyPtr o = Some s /\
              r = (Value o, s) /\ m1 = m.
Proof.
  unfold readOutput. intros H.
  apply bind_Some in H as (o & m2 & Ho & H).
  apply bind_Some in H as (s & m3 & Hs & H).
  unfold loadOutput in Ho. destruct (outputCells m !! p) as [o' |]; [| done].
  injection Ho as <- <-.
  unfold loadScript in Hs.
  destruct (scriptCells m !! ScriptPublicKeyPtr o') as [s' |] eqn:Hs'; [| done].
  injection Hs as <- <-. injection H as <- <-.
  exists o', s'. done.
Qed.

Lemma mapM_loadInput_kept ps :
  forall m m' vs m1,
    cellsKept (inputCells m) (inputCells m') ->
    mapM loadInput ps m = Some (vs, m1) ->
    m1 = m /\ mapM loadInput ps m' = Some (vs, m').
Proof.
  induction ps as [| p ps IH]; intros m m' vs m1 Hk H; cbn [mapM] in *.
  - by injection H as <- <-.
  - apply bind_Some in H as (v & m2 & Hl & H).
    apply loadInput_Some in Hl as [Hp ->].
    apply bind_Some in H as (ys & m3 & Hps & H).
    destruct (IH _ _ _ _ Hk Hps) as [-> Hps'].
    injection H as <- <-. split; [done |].
    unfold bind at 1. unfold loadInput at 1. rewrite (Hk _ _ Hp).
    unfold bind. by rewrite Hps'.
Qed.

Lemma mapM_readOutput_kept ps :
  forall m m' vs m1,
    cellsKept (outputCells m) (outputCells m') ->
    scriptCells m' = scriptCells m ->
    mapM readOutput ps m = Some (vs, m1) ->
    m1 = m /\ mapM readOutput ps m' = Some (vs, m').
Proof.
  induction ps as [| p ps IH]; intros m m' vs m1 Hk Hs H; cbn [mapM] in *.
  - by injection H as <- <-.
  - apply bind_Some in H as (v & m2 & Hl & H).
    apply readOutput_Some in Hl as (o & s & Ho & Hsc & -> & ->).
    apply bind_Some in H as (ys & m3 & Hps & H).
    destruct (IH _ _ _ _ Hk Hs Hps) as [-> Hps'].
    injection H as <- <-. split; [done |].
    unfold bind at 1. unfold readOutput at 1. unfold bind, loadOutput, loadScript.
    rewrite (Hk _ _ Ho), Hs, Hsc. unfold ret at 1.
    rewrite Hps'. reflexivity.
Qed.

(** A transaction that can be read in [m] reads the same in a memory that
    keeps [m], script public keys included. *)
Lemma viewTx_kept m m' tx view :
  kept true m m' -> viewTx m tx = Some view -> viewTx m' tx = Some view.
Proof.
  intros (Hi & Ho & Hs) H. unfold viewTx in *.
  destruct (readTx tx m) as [[v m1] |] eqn:Hr; [| done].
  injection H as ->. unfold readTx in *.
  apply bind_Some in Hr as (ins & m2 & Hins & Hr).
  destruct (mapM_loadInput_kept _ _ _ _ _ Hi Hins) as [-> Hins'].
  apply bind_Some in Hr as (outs & m3 & Houts & Hr).
  destruct (mapM_readOutput_kept _ _ _ _ _ Ho (Hs eq_refl) Houts) as [-> Houts'].
  injection Hr as <- _.
  unfold bind. rewrite Hins', Houts'. reflexivity.
Qed.

(** The part of C10 that holds: whenever the hash type is not
    [SigHashSingle] under the mask, or the index is not positive, a call
    of [calcSignatureHash] that returns leaves every transaction that
    could be read before, the one passed in among them, as it was; and for
    every hash type the inputs and the output structures in memory are as
    they were. *)
Theorem calcSignatureHash_leaves_tx_unchanged
    bytes TransactionHashForSigning prevScriptPublicKey scriptVersion
    hashType tx idx m r m' :
  calcSignatureHash bytes TransactionHashForSigning prevScriptPublicKey
    scriptVersion hashType tx idx m = Some (r, m') ->
  cellsKept (inputCells m) (inputCells m') /\
  cellsKept (outputCells m) (outputCells m') /\
  (Z.land hashType sigHashMask <> SigHashSingle \/ idx <= 0 ->
   forall tx' view, viewTx m tx' = Some view -> viewTx m' tx' = Some view).
Proof.
  intros H.
  destruct (keeps_calcSignatureHash false bytes TransactionHashForSigning
              prevScriptPublicKey scriptVersion hashType tx idx m
              ltac:(discriminate) m r m' (kept_refl _ _) H)
    as [(Hi & Ho & _) _].
  split; [exact Hi |]. split; [exact Ho |].
  intros Hcase tx' view Hview.
  destruct (keeps_calcSignatureHash true bytes TransactionHashForSigning
              prevScriptPublicKey scriptVersion hashType tx idx m
              (fun _ => Hcase) m r m' (kept_refl _ _) H) as [Hk _].
  by apply viewTx_kept with m.
Qed.

End FrameFacts.

(* ===================================================================== *)
(** * Properties of the iterator with diff                                *)
(* ===================================================================== *)
Section UtxoFacts.
Import Utxo.
Local Open Scope Z_scope.

(** What the loop over the base leaves behind: either it stopped at the
    first pair it lets through, after pairs it skipped, or the base is
    exhausted and it let none through. *)
Lemma nextFromBase_spec (d : utxoDiff) base :
  forall cur,
    match nextFromBase (toRemove d) base cur with
    | (true, c, cur') =>
        exists skipped x,
          base = skipped ++ x :: remaining c /\
          List.filter (keptByNext d) skipped = [] /\
          keptByNext d x = true /\
          cur' = Some x
    | (false, c, _) =>
        remaining c = [] /\ List.filter (keptByNext d) base = []
    end.
Proof.
  induction base as [| x rest IH]; intros cur; simpl; [done |].
  fold (keptByNext d x).
  destruct (keptByNext d x) eqn:Hk.
  - exists [], x. done.
  - specialize (IH (Some x)).
    destruct (nextFromBase (toRemove d) rest (Some x)) as [[[|] c] cur'].
    + destruct IH as (skipped & y & -> & Hs & Hy & ->).
      exists (x :: skipped), y. simpl. rewrite Hk. done.
    + done.
Qed.

(** Draining an iterator with diff yields the pairs of the base that
    [Next] lets through, in the order of the base, and then the pairs the
    iterator over [toAdd] still holds. *)
Lemma drain_base_then_toAdd (d : utxoDiff) fuel :
  forall base cb cur ta ct,
    (length base + length ta < fuel)%nat ->
    drain fuel {| baseIterator := mkCursor base cb;
                  diff := d;
                  currentPair := cur;
                  toAddIterator := mkCursor ta ct |}
    = Some (List.filter (keptByNext d) base ++ ta).
Proof.
  induction fuel as [| fuel IH]; intros base cb cur ta ct Hlen; [lia |].
  cbn [drain]. unfold Next. cbn [baseIterator diff currentPair toAddIterator remaining].
  pose proof (nextFromBase_spec d base cur) as Hspec.
  destruct (nextFromBase (toRemove d) base cur) as [[[|] [rest cb']] cur'].
  - destruct Hspec as (skipped & x & -> & Hs & Hx & ->).
    cbn [remaining] in *. unfold Get. cbn [currentPair].
    rewrite IH by (rewrite length_app in Hlen; simpl in Hlen; lia).
    rewrite List.filter_app, Hs. simpl. by rewrite Hx.
  - destruct Hspec as [Hrest Hnone]. cbn [remaining] in Hrest. subst rest.
    rewrite Hnone. unfold cursorNext. cbn [remaining].
    destruct ta as [| y ta']; [done |].
    unfold Get, cursorGet. cbn [currentPair current].
    rewrite IH by (simpl in *; lia). reflexivity.
Qed.

(** C9, refuted as stated (a pair of the base is skipped when its
    outpoint is in [toRemove]): the base pair at outpoint (1, 0) carries a
    blue score of 5, [toRemove] holds that outpoint with a blue score of 7,
    and the iterator yields the pair. *)
Lemma C9_base_pair_in_toRemove_is_yielded :
  let outpoint := (1%N, 0) in
  let base := [(outpoint, mkUTXOEntry 10 [] 5 false)] in
  let d := mkUtxoDiff ∅ (<[outpoint := mkUTXOEntry 10 [] 7 false]> ∅) in
  exists r,
    IteratorWithDiff noWithDiff (PlainIterator (mkCursor base None)) d = Some r /\
    drain 2 r = Some base /\
    is_Some (toRemove d !! outpoint) /\
    drain 2 r <> Some (List.filter (notInToRemove d) base
                       ++ map_to_list (toAdd d)).
Proof.
  eexists. split; [reflexivity |].
  split; [vm_compute; reflexivity |].
  split; [vm_compute; eauto |].
  vm_compute. discriminate.
Qed.

(** C9, as amended: for a base iterator that is not itself an iterator
    with diff and for every diff, the iterator produced by
    [IteratorWithDiff] yields first, in the order of the base, every pair
    of the base that [toRemove] does not hold under the same outpoint with
    the same blue score, and afterwards the pairs of [toAdd], each of
    them. *)
Theorem C9_IteratorWithDiff_yields
    (WithDiff : utxoDiff -> utxoDiff -> option utxoDiff)
    (base : list (DomainOutpoint * UTXOEntry))
    (cur : option (DomainOutpoint * UTXOEntry))
    (d : utxoDiff) (fuel : nat) :
  (length base + size (toAdd d) < fuel)%nat ->
  exists r,
    IteratorWithDiff WithDiff (PlainIterator (mkCursor base cur)) d = Some r /\
    drain fuel r
      = Some (List.filter (keptByNext d) base ++ map_to_list (toAdd d)) /\
    (forall p, In p (List.filter (keptByNext d) base) ->
       containsWithBlueScore (toRemove d) (fst p) (BlockBlueScore (snd p)) = false) /\
    (forall outpoint entry,
       In (outpoint, entry) (map_to_list (toAdd d)) <->
       toAdd d !! outpoint = Some entry).
Proof.
  intros Hfuel. eexists. split; [reflexivity |].
  split.
  - unfold collectionIterator. apply drain_base_then_toAdd.
    by rewrite length_map_to_list.
  - split.
    + intros p Hp. apply filter_In in Hp as [_ Hp].
      unfold keptByNext in Hp. by apply negb_true_iff in Hp.
    + intros outpoint entry. rewrite <- list_elem_of_In.
      apply elem_of_map_to_list.
Qed.

(** The amended C9 on a base of three pairs, two of them at the outpoint
    that [toRemove] holds. *)
Lemma C9_IteratorWithDiff_yields_witness :
  let o1 := (1%N, 0) in
  let e5 := mkUTXOEntry 10 [] 5 false in
  let e7 := mkUTXOEntry 10 [] 7 false in
  let base := [(o1, e5); ((2%N, 0), e5); (o1, e7)] in
  let d := mkUtxoDiff (<[(9%N, 0) := e5]> ∅) (<[o1 := e7]> ∅) in
  exists r,
    IteratorWithDiff noWithDiff (PlainIterator (mkCursor base None)) d = Some r /\
    drain 5 r = Some [(o1, e5); ((2%N, 0), e5); ((9%N, 0), e5)].
Proof.
  intros o1 e5 e7 base d.
  destruct (C9_IteratorWithDiff_yields noWithDiff base None d 5)
    as (r & Hr & Hdrain & _).
  - vm_compute. lia.
  - exists r. split; [exact Hr |]. rewrite Hdrain. vm_compute. reflexivity.
Defined.

(** Over an iterator with diff, [IteratorWithDiff] composes the two diffs
    and iterates over the base of that iterator. *)
Lemma IteratorWithDiff_flattens WithDiff r d combined :
  WithDiff (diff r) d = Some combined ->
  IteratorWithDiff WithDiff (DiffIterator r) d
  = IteratorWithDiff WithDiff (PlainIterator (baseIterator r)) combined.
Proof. intros H. simpl. by rewrite H. Qed.

End UtxoFacts.

(* ===================================================================== *)
(** * Further properties of parsing and of counting signature operations *)
(* ===================================================================== *)
Section ParseFacts.
Import TxScript.
Local Open Scope Z_scope.


(** ** More on parsing *)

Lemma parseLoop_terminates_gen opcodes fuel :
  (forall instr, opLength (opcodes instr) <> 0) ->
  forall rest acc, (length rest <= fuel)%nat ->
    is_Some (parseLoop fuel opcodes rest acc).
Proof.
  intros Hnz. induction fuel as [| fuel IH]; intros rest acc Hlen.
  - destruct rest; [simpl; eauto | simpl in Hlen; lia].
  - destruct rest as [| instr tl]; [simpl; eauto |].
    cbn [parseLoop].
    destruct (parseInstr opcodes (instr :: tl) instr) as [e | [pop n]] eqn:Hi;
      [eauto |].
    apply parseInstr_advance_gen in Hi; [| apply Hnz | simpl; lia].
    apply IH. rewrite length_drop. simpl in *. lia.
Qed.

Lemma parseInstr_zero_length opcodes rest instr :
  opLength (opcodes instr) = 0 ->
  parseInstr opcodes rest instr = inr (mkParsedOpcode (opcodes instr) [], 0%nat).
Proof. intros H. unfold parseInstr. by rewrite H. Qed.

(** The loop of [parseScriptTemplate] has no increment of its own: it
    ends because every opcode of the table has a length other than zero.
    With such a table it ends within [len(script)] iterations; at an
    opcode of length zero it would append the opcode and stay where it
    is, for ever. *)
Theorem parseScriptTemplate_terminates
    (opcodes : Z -> opcode) (script : list Z) :
  (forall instr, opLength (opcodes instr) <> 0) ->
  is_Some (parseScriptTemplate script opcodes) /\
  (forall instr tl acc fuel (zeroTable : Z -> opcode),
     opLength (zeroTable instr) = 0 ->
     parseLoop fuel zeroTable (instr :: tl) acc = None).
Proof.
  intros Hnz. split.
  - by apply parseLoop_terminates_gen.
  - intros instr tl acc fuel zeroTable Hz. revert acc.
    induction fuel as [| fuel IH]; intros acc; [done |].
    cbn [parseLoop]. rewrite (parseInstr_zero_length _ _ _ Hz).
    rewrite drop_0. apply IH.
Qed.

Lemma parseScriptTemplate_terminates_witness :
  (forall instr, opLength (opcodeArray instr) <> 0) /\
  is_Some (parseScriptTemplate [OpCheckSig; 2; 7] opcodeArray).
Proof.
  split; [apply opcodeArray_length_nonzero |].
  apply (parseScriptTemplate_terminates opcodeArray [OpCheckSig; 2; 7]
           opcodeArray_length_nonzero).
Defined.

(** An instruction that parses advances by the size of the parsed
    opcode. *)
Lemma parseInstr_popSize opcodes (rest : list Z) instr pop n :
  parseInstr opcodes rest instr = inr (pop, n) -> n = popSize pop.
Proof.
  unfold parseInstr, popSize.
  set (L := opLength (opcodes instr)).
  destruct (Z.eqb_spec L 1) as [H1 | H1].
  { intros Hx. injection Hx as <- <-. cbn [opcode_]. fold L.
    by destruct (Z.eqb_spec L 1). }
  destruct (Z.gtb_spec L 1) as [Hgt | Hle].
  { destruct (Z.of_nat (length rest) <? L); [intros Hx; discriminate Hx |].
    intros Hx. injection Hx as <- <-. cbn [opcode_]. fold L.
    destruct (Z.eqb_spec L 1); [lia |]. by destruct (Z.gtb_spec L 1); [| lia]. }
  destruct (Z.ltb_spec L 0) as [Hneg | Hpos].
  2:{ intros Hx. injection Hx as <- <-. cbn [opcode_]. fold L.
      destruct (Z.eqb_spec L 1); [lia |].
      destruct (Z.gtb_spec L 1); [lia |]. by destruct (Z.ltb_spec L 0); [lia |]. }
  destruct (Z.of_nat (length (drop 1 rest)) <? - L);
    [intros Hx; discriminate Hx |].
  destruct (if L =? -1 then _ else _) as [l |]; [| intros Hx; discriminate Hx].
  destruct (orb _ _) eqn:Hc; [intros Hx; discriminate Hx |].
  apply orb_false_elim in Hc as [Hc1 Hc2]. apply Z.ltb_ge in Hc2.
  match type of Hc1 with (?x >? ?y) = false =>
    assert (Hc1' : x <= y)
      by (destruct (Z.gtb_spec x y); [discriminate | lia])
  end.
  intros Hx. injection Hx as <- <-. cbn [opcode_ data]. fold L.
  destruct (Z.eqb_spec L 1); [lia |].
  destruct (Z.gtb_spec L 1); [lia |]. destruct (Z.ltb_spec L 0); [| lia].
  rewrite length_take. lia.
Qed.

(** A parsed [OP_DATA_n] carries [n] bytes. *)
Lemma parseInstr_data_length (rest : list Z) instr pop n :
  parseInstr opcodeArray rest instr = inr (pop, n) ->
  OpData1 <= instr <= OpData75 ->
  value (opcode_ pop) = instr /\ Z.of_nat (length (data pop)) = instr.
Proof.
  unfold parseInstr, opcodeArray. cbn [opLength value].
  unfold OpData1, OpData75. intros H Hr. revert H.
  destruct (Z.leb_spec 1 instr); [| lia].
  destruct (Z.leb_spec instr 75); [| lia]. cbn [andb].
  destruct (Z.eqb_spec (instr + 1) 1); [lia |].
  destruct (Z.gtb_spec (instr + 1) 1); [| lia].
  destruct (Z.ltb_spec (Z.of_nat (length rest)) (instr + 1));
    [intros Hx; discriminate Hx |].
  intros Hx. injection Hx as <- <-. cbn [opcode_ data value].
  split; [done |]. rewrite length_take, length_drop. lia.
Qed.

Lemma parseInstr_value opcodes (rest : list Z) instr pop n :
  parseInstr opcodes rest instr = inr (pop, n) ->
  opcode_ pop = opcodes instr.
Proof.
  unfold parseInstr. set (L := opLength (opcodes instr)).
  destruct (L =? 1); [intros Hx; by injection Hx as <- <- |].
  destruct (L >? 1).
  { destruct (Z.of_nat (length rest) <? L); [intros Hx; discriminate Hx |].
    intros Hx; by injection Hx as <- <-. }
  destruct (L <? 0); [| intros Hx; by injection Hx as <- <-].
  destruct (Z.of_nat (length (drop 1 rest)) <? - L);
    [intros Hx; discriminate Hx |].
  destruct (if L =? -1 then _ else _) as [l |]; [| intros Hx; discriminate Hx].
  destruct (orb _ _); [intros Hx; discriminate Hx |].
  intros Hx; by injection Hx as <- <-.
Qed.

Lemma parseScript_accounts_for_bytes_upto k :
  forall script : list Z,
    (length script <= k)%nat ->
    (scriptSize (fst (parseScript script)) <= length script)%nat /\
    (snd (parseScript script) = None ->
     scriptSize (fst (parseScript script)) = length script) /\
    (length (fst (parseScript script)) <= length script)%nat /\
    Forall (fun pop =>
              OpData1 <= value (opcode_ pop) <= OpData75 ->
              Z.of_nat (length (data pop)) = value (opcode_ pop))
           (fst (parseScript script)).
Proof.
  induction k as [| k IH]; intros script Hle.
  - destruct script; [| simpl in Hle; lia]. rewrite parseScript_nil.
    simpl. repeat split; auto.
  - destruct script as [| instr tl].
    { rewrite parseScript_nil. simpl. repeat split; auto. }
    rewrite parseScript_cons.
    destruct (parseInstr opcodeArray (instr :: tl) instr) as [e | [pop n]] eqn:Hi.
    { simpl. repeat split; [lia | done | lia | constructor]. }
    pose proof (parseInstr_advance _ _ _ _ Hi) as Hadv.
    pose proof (parseInstr_popSize _ _ _ _ _ Hi) as Hsize.
    pose proof (parseInstr_value _ _ _ _ _ Hi) as Hval.
    specialize (IH (drop n (instr :: tl))).
    rewrite length_drop in IH.
    destruct (parseScript (drop n (instr :: tl))) as [pops e].
    destruct IH as (H1 & H2 & H3 & H4); [simpl in *; lia |].
    cbn [fst snd] in *.
    cbn [scriptSize fold_right length] in *. fold (scriptSize pops).
    split; [lia |]. split; [intros He; specialize (H2 He); lia |].
    split; [lia |].
    constructor; [| exact H4].
    intros Hr. rewrite Hval in Hr. cbn [opcodeArray value] in Hr.
    destruct (parseInstr_data_length _ _ _ _ Hi Hr) as [Hv Hd].
    by rewrite Hv.
Qed.

(** The bytes of a script are accounted for by the opcodes parsed from
    it: the sizes of the parsed opcodes add up to the length of the script
    when it parses, and to no more than that when parsing stops at an
    error. There are at most as many parsed opcodes as bytes (the capacity
    [parseScriptTemplate] reserves), and a parsed [OP_DATA_n] carries
    exactly [n] bytes. *)
Theorem parseScript_accounts_for_bytes (script : list Z) :
  (scriptSize (fst (parseScript script)) <= length script)%nat /\
  (snd (parseScript script) = None ->
   scriptSize (fst (parseScript script)) = length script) /\
  (length (fst (parseScript script)) <= length script)%nat /\
  Forall (fun pop =>
            OpData1 <= value (opcode_ pop) <= OpData75 ->
            Z.of_nat (length (data pop)) = value (opcode_ pop))
         (fst (parseScript script)).
Proof. by apply (parseScript_accounts_for_bytes_upto (length script)). Qed.

(** Parsing composes: a script that parses without error, followed by
    any bytes, parses to its opcodes followed by those of the bytes, with
    the error of the bytes if they have one. *)
Theorem parseScript_concat (a b : list Z) (pa : list parsedOpcode) :
  parseScript a = (pa, None) ->
  parseScript (a ++ b) = (pa ++ fst (parseScript b), snd (parseScript b)).
Proof. intros H. by apply (parseScript_app b (length a) a pa). Qed.

Lemma parseScript_concat_witness :
  parseScript [Op1; OpCheckSig] = ([mkParsedOpcode (opcodeArray Op1) [];
                                    mkParsedOpcode (opcodeArray OpCheckSig) []],
                                   None) /\
  parseScript ([Op1; OpCheckSig] ++ [2; 7])
  = ([mkParsedOpcode (opcodeArray Op1) [];
      mkParsedOpcode (opcodeArray OpCheckSig) []] ++ fst (parseScript [2; 7]),
     snd (parseScript [2; 7])).
Proof.
  split; [vm_compute; reflexivity |].
  apply (parseScript_concat [Op1; OpCheckSig] [2; 7]).
  vm_compute. reflexivity.
Defined.

(** ** More on sig-op counting *)

Lemma sigOpContribution_bounds precise prev pop :
  0 <= sigOpContribution precise prev pop <= 20 /\
  sigOpContribution true prev pop <= sigOpContribution false prev pop.
Proof.
  unfold sigOpContribution.
  destruct (_ || _); [lia |]. destruct (_ || _); [| lia].
  destruct prev as [p |]; [| lia]. cbn [andb].
  unfold asSmallInt, Op0, Op1, Op16.
  destruct (Z.leb_spec 81 (value (opcode_ p)));
    destruct (Z.leb_spec (value (opcode_ p)) 96);
    destruct (Z.eqb_spec (value (opcode_ p)) 0);
    destruct precise; cbn [andb]; lia.
Qed.

Lemma sumContributions_bounds precise pops :
  forall prev,
    0 <= sumContributions (sigOpContribution precise) prev pops
      <= 20 * Z.of_nat (length pops) /\
    sumContributions (sigOpContribution true) prev pops
      <= sumContributions (sigOpContribution false) prev pops.
Proof.
  induction pops as [| pop pops IH]; intros prev;
    cbn [sumContributions length]; [lia |].
  destruct (IH (Some pop)) as [H1 H2].
  pose proof (sigOpContribution_bounds precise prev pop) as [H3 _].
  pose proof (sigOpContribution_bounds true prev pop) as [_ H4].
  lia.
Qed.

(** A count of signature operations is between 0 and 20 per opcode, and
    the precise count never exceeds the quick one: for an input that is
    not P2SH, [GetPreciseSigOpCount] is at most [GetSigOpCount] of the
    public key script. *)
Theorem sigOpCount_bounds (pops : list parsedOpcode) (precise : bool) :
  0 <= getSigOpCount pops precise <= 20 * Z.of_nat (length pops) /\
  getSigOpCount pops true <= getSigOpCount pops false /\
  (forall scriptSig scriptPubKey,
     GetPreciseSigOpCount scriptSig scriptPubKey false
     <= GetSigOpCount (Script scriptPubKey)).
Proof.
  split; [| split].
  - rewrite getSigOpCount_sum. apply sumContributions_bounds.
  - rewrite !getSigOpCount_sum.
    apply (sumContributions_bounds true pops None).
  - intros scriptSig scriptPubKey. unfold GetPreciseSigOpCount, GetSigOpCount.
    cbn [andb negb]. rewrite !getSigOpCount_sum.
    apply (sumContributions_bounds true _ None).
Qed.

Lemma sumContributions_quick_prev pops :
  forall prev prev',
    sumContributions (sigOpContribution false) prev pops
    = sumContributions (sigOpContribution false) prev' pops.
Proof.
  destruct pops as [| pop pops]; intros prev prev'; cbn [sumContributions];
    [done |].
  f_equal. unfold sigOpContribution.
  destruct (_ || _); [done |]. destruct (_ || _); [| done].
  by destruct prev, prev'.
Qed.

Lemma sumContributions_quick_app pops pops' :
  forall prev,
    sumContributions (sigOpContribution false) prev (pops ++ pops')
    = sumContributions (sigOpContribution false) prev pops
      + sumContributions (sigOpContribution false) None pops'.
Proof.
  induction pops as [| pop pops IH]; intros prev; cbn [sumContributions app].
  - rewrite (sumContributions_quick_prev pops' prev None). lia.
  - rewrite IH. lia.
Qed.

(** The quick count is additive: after a script that parses without
    error, the count of the concatenation is the sum of the counts. *)
Theorem GetSigOpCount_concat (a b : list Z) :
  snd (parseScript a) = None ->
  GetSigOpCount (a ++ b) = GetSigOpCount a + GetSigOpCount b.
Proof.
  intros Ha. unfold GetSigOpCount.
  destruct (parseScript a) as [pa ea] eqn:Hpa. simpl in Ha. subst ea.
  rewrite (parseScript_app b (length a) a pa (le_n _) Hpa). cbn [fst].
  rewrite !getSigOpCount_sum. apply sumContributions_quick_app.
Qed.

Lemma GetSigOpCount_concat_witness :
  snd (parseScript [Op1; OpCheckMultiSig]) = None /\
  GetSigOpCount ([Op1; OpCheckMultiSig] ++ [OpCheckSig; 2])
  = GetSigOpCount [Op1; OpCheckMultiSig] + GetSigOpCount [OpCheckSig; 2].
Proof.
  split; [vm_compute; reflexivity |].
  apply (GetSigOpCount_concat [Op1; OpCheckMultiSig] [OpCheckSig; 2]).
  vm_compute. reflexivity.
Defined.

(** ** Standard forms *)

Lemma parseInstr_one_byte (rest : list Z) instr :
  opLength (opcodeArray instr) = 1 ->
  parseInstr opcodeArray rest instr
  = inr (mkParsedOpcode (opcodeArray instr) [], 1%nat).
Proof. intros H. unfold parseInstr. by rewrite H. Qed.

Lemma parseInstr_data (bytes tail : list Z) :
  (1 <= length bytes <= 75)%nat ->
  parseInstr opcodeArray (Z.of_nat (length bytes) :: bytes ++ tail)
    (Z.of_nat (length bytes))
  = inr (mkParsedOpcode (opcodeArray (Z.of_nat (length bytes))) bytes,
         S (length bytes)).
Proof.
  intros Hlen. unfold parseInstr.
  assert (HL : opLength (opcodeArray (Z.of_nat (length bytes)))
               = Z.of_nat (length bytes) + 1).
  { unfold opcodeArray. cbn [opLength]. unfold OpData1, OpData75.
    destruct (Z.leb_spec 1 (Z.of_nat (length bytes))); [| lia].
    by destruct (Z.leb_spec (Z.of_nat (length bytes)) 75); [| lia]. }
  rewrite HL.
  destruct (Z.eqb_spec (Z.of_nat (length bytes) + 1) 1); [lia |].
  destruct (Z.gtb_spec (Z.of_nat (length bytes) + 1) 1); [| lia].
  cbn [length]. rewrite length_app.
  destruct (Z.ltb_spec (Z.of_nat (S (length bytes + length tail)))
              (Z.of_nat (length bytes) + 1)); [lia |].
  replace (Z.to_nat (Z.of_nat (length bytes) + 1)) with (S (length bytes)) by lia.
  do 3 f_equal. cbn [drop]. rewrite drop_0.
  replace (S (length bytes) - 1)%nat with (length bytes) by lia.
  by rewrite take_app_length.
Qed.

(** [IsPayToScriptHash] holds exactly of the scripts of 23 bytes made of
    [OP_HASH160], [OP_DATA_20], twenty bytes and [OP_EQUAL]. *)
Theorem IsPayToScriptHash_iff (script : ScriptPublicKey) :
  IsPayToScriptHash script = true <->
  exists scriptHash,
    length scriptHash = 20%nat /\
    Script script = payToScriptHashScript scriptHash.
Proof.
  unfold IsPayToScriptHash, payToScriptHashScript. split.
  - destruct (Script script) as [| i0 tl0] eqn:Hs.
    { rewrite parseScript_nil. discriminate. }
    rewrite parseScript_cons.
    destruct (parseInstr opcodeArray (i0 :: tl0) i0) as [e | [p0 n0]] eqn:H0;
      [discriminate |].
    pose proof (parseInstr_value _ _ _ _ _ H0) as Hv0.
    destruct (parseScript (drop n0 (i0 :: tl0))) as [pops1 e1] eqn:Hp1.
    destruct e1; [discriminate |].
    destruct pops1 as [| p1 [| p2 [| p3 pops]]]; try discriminate.
    cbn [isScriptHash]. intros Hsh.
    apply andb_prop in Hsh as [Hsh H2]. apply andb_prop in Hsh as [Hh H1].
    apply Z.eqb_eq in Hh, H1, H2.
    rewrite Hv0 in Hh. cbn [opcodeArray value] in Hh. subst i0.
    rewrite (parseInstr_one_byte _ OpHash160 eq_refl) in H0.
    injection H0 as <- <-. cbn [drop] in Hp1. rewrite drop_0 in Hp1.
    destruct tl0 as [| i1 tl1]; [rewrite parseScript_nil in Hp1; discriminate |].
    rewrite parseScript_cons in Hp1.
    destruct (parseInstr opcodeArray (i1 :: tl1) i1) as [e | [q1 n1]] eqn:H1';
      [discriminate |].
    pose proof (parseInstr_value _ _ _ _ _ H1') as Hv1.
    destruct (parseScript (drop n1 (i1 :: tl1))) as [pops2 e2] eqn:Hp2.
    injection Hp1 as -> -> ->.
    rewrite Hv1 in H1. cbn [opcodeArray value] in H1. subst i1.
    assert (Hn1 : n1 = 21%nat).
    { apply parseInstr_popSize in H1' as ->. unfold popSize. rewrite Hv1.
      reflexivity. }
    subst n1.
    pose proof (parseInstr_advance _ _ _ _ H1') as Hadv. cbn [length] in Hadv.
    destruct (drop 21 (OpData20 :: tl1)) as [| i2 tl2] eqn:Hd;
      [rewrite parseScript_nil in Hp2; discriminate |].
    rewrite parseScript_cons in Hp2.
    destruct (parseInstr opcodeArray (i2 :: tl2) i2) as [e | [q2 n2]] eqn:H2';
      [discriminate |].
    pose proof (parseInstr_value _ _ _ _ _ H2') as Hv2.
    destruct (parseScript (drop n2 (i2 :: tl2))) as [pops3 e3] eqn:Hp3.
    injection Hp2 as -> -> ->.
    rewrite Hv2 in H2. cbn [opcodeArray value] in H2. subst i2.
    rewrite (parseInstr_one_byte _ OpEqual eq_refl) in H2'.
    injection H2' as <- <-. cbn [drop] in Hp3. rewrite drop_0 in Hp3.
    destruct tl2 as [| i3 tl3].
    2:{ rewrite parseScript_cons in Hp3.
        destruct (parseInstr opcodeArray (i3 :: tl3) i3) as [e | [q3 n3]];
          [discriminate |].
        destruct (parseScript (drop n3 (i3 :: tl3))). discriminate. }
    cbn [drop] in Hd.
    exists (take 20 tl1). split.
    + rewrite length_take. lia.
    + do 2 f_equal. rewrite <- (take_drop 20 tl1) at 1. by rewrite Hd.
  - intros (h & Hlen & ->).
    rewrite parseScript_cons.
    rewrite (parseInstr_one_byte _ OpHash160 eq_refl). cbn [drop].
    rewrite parseScript_cons.
    assert (Hi : parseInstr opcodeArray (OpData20 :: h ++ [OpEqual]) OpData20
                 = inr (mkParsedOpcode (opcodeArray OpData20) h, 21%nat)).
    { pose proof (parseInstr_data h [OpEqual] ltac:(lia)) as Hd.
      rewrite Hlen in Hd. exact Hd. }
    rewrite Hi.
    change (drop 21 (OpData20 :: h ++ [OpEqual])) with (drop 20 (h ++ [OpEqual])).
    rewrite drop_app_length'; [| done].
    rewrite parseScript_cons.
    rewrite (parseInstr_one_byte _ OpEqual eq_refl). cbn [drop].
    rewrite parseScript_nil. reflexivity.
Qed.

(** A script that begins with [OP_RETURN] is unspendable whatever
    follows, and so is every script that fails to parse; the empty script
    is not. *)
Theorem IsUnspendable_cases :
  (forall rest, IsUnspendable (OpReturn :: rest) = true) /\
  (forall script, snd (parseScript script) <> None ->
                  IsUnspendable script = true) /\
  IsUnspendable [] = false.
Proof.
  split; [| split].
  - intros rest. unfold IsUnspendable. rewrite parseScript_cons.
    rewrite (parseInstr_one_byte _ OpReturn eq_refl).
    destruct (parseScript (drop 1 (OpReturn :: rest))) as [pops [e |]];
      reflexivity.
  - intros script He. unfold IsUnspendable.
    destruct (parseScript script) as [pops [e |]]; done.
  - reflexivity.
Qed.

End ParseFacts.
Section CanonicalPushFacts.
Import TxScript.
Local Open Scope Z_scope.


Lemma lor_below (a b n : Z) :
  0 <= n -> 0 <= a < 2 ^ n -> 0 <= b < 2 ^ n -> 0 <= Z.lor a b < 2 ^ n.
Proof.
  intros Hn Ha Hb.
  pose proof (proj2 (Z.lor_nonneg a b) (conj (proj1 Ha) (proj1 Hb))) as Hnn.
  split; [exact Hnn |].
  destruct (Z.eq_dec a 0) as [-> | Ha0]; [rewrite Z.lor_0_l; lia |].
  destruct (Z.eq_dec b 0) as [-> | Hb0]; [rewrite Z.lor_0_r; lia |].
  destruct (Z.eq_dec (Z.lor a b) 0) as [-> | Hne]; [lia |].
  apply Z.log2_lt_pow2; [lia |].
  rewrite Z.log2_lor by lia.
  apply Z.max_lub_lt; apply Z.log2_lt_pow2; lia.
Qed.

Lemma shiftl_below (a n k : Z) :
  0 <= n -> 0 <= k -> 0 <= a < 2 ^ k -> 0 <= Z.shiftl a n < 2 ^ (k + n).
Proof.
  intros Hn Hk Ha. rewrite Z.shiftl_mul_pow2 by lia. rewrite Z.pow_add_r by lia.
  assert (0 < 2 ^ n) by (pose proof (Z.pow_pos_nonneg 2 n); lia). nia.
Qed.

Lemma byteAt_isByte (s : list Z) (i : nat) :
  Forall isByte s -> 0 <= byteAt s i < 2 ^ 8.
Proof.
  intros Hs. unfold byteAt.
  destruct (nth_in_or_default i s 0) as [Hin | ->]; [| lia].
  rewrite Forall_forall in Hs. apply list_elem_of_In, Hs in Hin.
  unfold isByte in Hin. lia.
Qed.

(** What [parseInstr] parses from bytes: no data, or the data of a push
    of the length its opcode allows. *)
Lemma opLength_opcodeArray instr :
  (OpData1 <= instr <= OpData75 /\ opLength (opcodeArray instr) = instr + 1) \/
  (instr = OpPushData1 /\ opLength (opcodeArray instr) = -1) \/
  (instr = OpPushData2 /\ opLength (opcodeArray instr) = -2) \/
  (instr = OpPushData4 /\ opLength (opcodeArray instr) = -4) \/
  opLength (opcodeArray instr) = 1.
Proof.
  unfold opcodeArray. cbn [opLength].
  unfold OpData1, OpData75, OpPushData1, OpPushData2, OpPushData4.
  destruct (Z.leb_spec 1 instr); destruct (Z.leb_spec instr 75); cbn [andb];
    try (left; lia);
    (destruct (Z.eqb_spec instr 76); [right; left; lia |];
     destruct (Z.eqb_spec instr 77); [right; right; left; lia |];
     destruct (Z.eqb_spec instr 78); [right; right; right; left; lia |];
     by repeat right).
Qed.

(** What [parseInstr] parses from bytes: no data, or the data of a push
    of the length its opcode allows. *)
Lemma parseInstr_push_shape (rest : list Z) instr pop n :
  Forall isByte rest ->
  parseInstr opcodeArray rest instr = inr (pop, n) ->
  value (opcode_ pop) = instr /\
  (data pop = [] \/
   (OpData1 <= instr <= OpData75 /\ Z.of_nat (length (data pop)) = instr) \/
   (instr = OpPushData1 /\ Z.of_nat (length (data pop)) <= 255) \/
   (instr = OpPushData2 /\ Z.of_nat (length (data pop)) <= 65535) \/
   instr = OpPushData4).
Proof.
  intros Hbytes Hparse.
  assert (Hoff : forall k, Forall isByte (drop k rest)) by (intros; by apply Forall_drop).
  pose proof (parseInstr_value _ _ _ _ _ Hparse) as Hop.
  split; [by rewrite Hop |].
  revert Hparse. unfold parseInstr.
  destruct (opLength_opcodeArray instr)
    as [[Hr HL] | [[Hi HL] | [[Hi HL] | [[Hi HL] | HL]]]]; rewrite HL.
  - unfold OpData1, OpData75 in Hr.
    destruct (Z.eqb_spec (instr + 1) 1); [lia |].
    destruct (Z.gtb_spec (instr + 1) 1); [| lia].
    destruct (Z.ltb_spec (Z.of_nat (length rest)) (instr + 1));
      [intros Hx; discriminate Hx |].
    intros Hx. injection Hx as <- <-. cbn [data].
    right. left. split; [done |].
    rewrite length_take, length_drop. lia.
  - simpl (-1 =? 1). simpl (-1 >? 1). simpl (-1 <? 0). simpl (-1 =? -1).
    cbv iota.
    destruct (Z.of_nat (length (drop 1 rest)) <? - -1);
      [intros Hx; discriminate Hx |].
    pose proof (byteAt_isByte (drop 1 rest) 0 (Hoff 1%nat)) as Hb.
    destruct (Z.gtb_spec (byteAt (drop 1 rest) 0)
                (Z.of_nat (length (drop (Z.to_nat (- -1)) (drop 1 rest)))));
      [intros Hx; discriminate Hx |].
    destruct (Z.ltb_spec (byteAt (drop 1 rest) 0) 0);
      [intros Hx; discriminate Hx |].
    cbn [orb]. intros Hx. injection Hx as <- <-. cbn [data].
    right. right. left. split; [done |]. rewrite length_take.
    change (2 ^ 8) with 256 in Hb.
    rewrite Nat.min_l by lia. rewrite Z2Nat.id by lia. clear -Hb. lia.
  - simpl (-2 =? 1). simpl (-2 >? 1). simpl (-2 <? 0). simpl (-2 =? -1).
    simpl (-2 =? -2). cbv iota.
    destruct (Z.of_nat (length (drop 1 rest)) <? - -2);
      [intros Hx; discriminate Hx |].
    pose proof (byteAt_isByte (drop 1 rest) 0 (Hoff 1%nat)) as Hb0.
    pose proof (byteAt_isByte (drop 1 rest) 1 (Hoff 1%nat)) as Hb1.
    pose proof (shiftl_below _ 8 8 ltac:(lia) ltac:(lia) Hb1) as Hs1.
    assert (Hb0' : 0 <= byteAt (drop 1 rest) 0 < 2 ^ 16)
      by (change (2 ^ 8) with 256 in Hb0; change (2 ^ 16) with 65536; lia).
    pose proof (lor_below _ _ 16 ltac:(lia) Hs1 Hb0') as Hl.
    set (l := Z.lor (Z.shiftl (byteAt (drop 1 rest) 1) 8) (byteAt (drop 1 rest) 0))
      in *.
    destruct (Z.gtb_spec l
                (Z.of_nat (length (drop (Z.to_nat (- -2)) (drop 1 rest)))));
      [intros Hx; discriminate Hx |].
    destruct (Z.ltb_spec l 0); [intros Hx; discriminate Hx |].
    cbn [orb]. intros Hx. injection Hx as <- <-. cbn [data].
    right. right. right. left. split; [done |]. rewrite length_take.
    change (2 ^ 16) with 65536 in Hl.
    rewrite Nat.min_l by lia. rewrite Z2Nat.id by lia. clear -Hl. lia.
  - intros _. by repeat right.
  - simpl (1 =? 1). cbv iota. intros Hx. injection Hx as <- <-. by left.
Qed.

(** Every opcode parsed from a script was parsed by [parseInstr] from a
    tail of the script. *)
Lemma parseLoop_In fuel :
  forall rest acc r pop,
    Forall isByte rest ->
    parseLoop fuel opcodeArray rest acc = Some r ->
    In pop (fst r) ->
    In pop acc \/
    exists rest' instr n,
      Forall isByte rest' /\
      parseInstr opcodeArray rest' instr = inr (pop, n).
Proof.
  induction fuel as [| fuel IH]; intros rest acc r pop Hbytes Hrun Hin.
  - destruct rest; [| done]. injection Hrun as <-. by left.
  - destruct rest as [| instr tl]; [injection Hrun as <-; by left |].
    cbn [parseLoop] in Hrun.
    destruct (parseInstr opcodeArray (instr :: tl) instr) as [e | [pop' n]] eqn:Hi.
    + injection Hrun as <-. by left.
    + destruct (IH _ _ _ pop (Forall_drop _ n _ Hbytes) Hrun Hin) as [Hacc | Hex].
      * apply in_app_or in Hacc as [Hacc | [<- | []]]; [by left |].
        right. by exists (instr :: tl), instr, n.
      * by right.
Qed.

Lemma parseScript_In script pop :
  Forall isByte script ->
  In pop (fst (parseScript script)) ->
  value (opcode_ pop) = value (opcode_ pop) /\
  (data pop = [] \/
   (OpData1 <= value (opcode_ pop) <= OpData75 /\
    Z.of_nat (length (data pop)) = value (opcode_ pop)) \/
   (value (opcode_ pop) = OpPushData1 /\ Z.of_nat (length (data pop)) <= 255) \/
   (value (opcode_ pop) = OpPushData2 /\ Z.of_nat (length (data pop)) <= 65535) \/
   value (opcode_ pop) = OpPushData4) /\
  opcode_ pop = opcodeArray (value (opcode_ pop)).
Proof.
  intros Hbytes Hin. unfold parseScript, parseScriptTemplate in Hin.
  destruct (parseLoop (length script) opcodeArray script []) as [r |] eqn:Hrun;
    [| done].
  destruct (parseLoop_In _ _ _ _ pop Hbytes Hrun Hin)
    as [[] | (rest' & instr & n & Hb & Hi)].
  destruct (parseInstr_push_shape _ _ _ _ Hb Hi) as [Hv Hshape].
  split; [done |]. rewrite Hv. split; [exact Hshape |].
  rewrite (parseInstr_value _ _ _ _ _ Hi). done.
Qed.

(** The canonical push of given bytes is unique: two opcodes parsed from
    scripts that carry the same bytes, at least one byte, and are both
    canonical are the same opcode. One byte of a value up to 16 has no
    canonical push with data: it is to be pushed by [OP_0] or one of
    [OP_1] to [OP_16]. *)
Theorem canonicalPush_unique (script1 script2 : list Z) (pop1 pop2 : parsedOpcode) :
  Forall isByte script1 -> Forall isByte script2 ->
  In pop1 (fst (parseScript script1)) ->
  In pop2 (fst (parseScript script2)) ->
  data pop1 = data pop2 ->
  data pop1 <> [] ->
  canonicalPush pop1 = true ->
  (canonicalPush pop2 = true -> pop1 = pop2) /\
  (forall b, data pop1 = [b] -> 16 < b).
Proof.
  intros Hb1 Hb2 Hin1 Hin2 Hdata Hne Hc1.
  destruct (parseScript_In _ _ Hb1 Hin1) as (_ & Hs1 & Ho1).
  destruct (parseScript_In _ _ Hb2 Hin2) as (_ & Hs2 & Ho2).
  assert (Hne2 : data pop2 <> []) by congruence.
  assert (Hlen : 1 <= Z.of_nat (length (data pop1))).
  { destruct (data pop1); [done | simpl; lia]. }
  assert (Hcanon : forall pop,
            canonicalPush pop = true ->
            1 <= Z.of_nat (length (data pop)) ->
            (OpData1 <= value (opcode_ pop) <= OpData75 /\
             Z.of_nat (length (data pop)) = value (opcode_ pop)) \/
            (value (opcode_ pop) = OpPushData1 /\
             Z.of_nat (length (data pop)) <= 255) \/
            (value (opcode_ pop) = OpPushData2 /\
             Z.of_nat (length (data pop)) <= 65535) \/
            value (opcode_ pop) = OpPushData4 ->
            (1 <= value (opcode_ pop) <= 75 /\
             Z.of_nat (length (data pop)) = value (opcode_ pop) /\
             (Z.of_nat (length (data pop)) = 1 -> 16 < byteAt (data pop) 0)) \/
            (value (opcode_ pop) = 76 /\ 76 <= Z.of_nat (length (data pop)) <= 255) \/
            (value (opcode_ pop) = 77 /\
             256 <= Z.of_nat (length (data pop)) <= 65535) \/
            (value (opcode_ pop) = 78 /\ 65536 <= Z.of_nat (length (data pop)))).
  { intros pop Hc Hl Hshape. unfold canonicalPush in Hc.
    unfold OpData1, OpData75, OpPushData1, OpPushData2, OpPushData4, Op16, Op0 in *.
    set (v := value (opcode_ pop)) in *. set (n := Z.of_nat (length (data pop))) in *.
    destruct (Z.gtb_spec v 96); [lia |].
    destruct (Z.ltb_spec v 76); destruct (Z.gtb_spec v 0);
      destruct (Z.eqb_spec n 1); destruct (Z.leb_spec (byteAt (data pop) 0) 16);
      cbn [andb] in Hc; try discriminate Hc;
      destruct (Z.eqb_spec v 76); destruct (Z.ltb_spec n 76);
      cbn [andb] in Hc; try discriminate Hc;
      destruct (Z.eqb_spec v 77); destruct (Z.leb_spec n 255);
      cbn [andb] in Hc; try discriminate Hc;
      destruct (Z.eqb_spec v 78); destruct (Z.leb_spec n 65535);
      cbn [andb] in Hc; try discriminate Hc; lia. }
  assert (Hs1' : (OpData1 <= value (opcode_ pop1) <= OpData75 /\
                  Z.of_nat (length (data pop1)) = value (opcode_ pop1)) \/
                 (value (opcode_ pop1) = OpPushData1 /\
                  Z.of_nat (length (data pop1)) <= 255) \/
                 (value (opcode_ pop1) = OpPushData2 /\
                  Z.of_nat (length (data pop1)) <= 65535) \/
                 value (opcode_ pop1) = OpPushData4)
    by (destruct Hs1 as [Hnil | Hs1]; [done | exact Hs1]).
  assert (Hs2' : (OpData1 <= value (opcode_ pop2) <= OpData75 /\
                  Z.of_nat (length (data pop2)) = value (opcode_ pop2)) \/
                 (value (opcode_ pop2) = OpPushData1 /\
                  Z.of_nat (length (data pop2)) <= 255) \/
                 (value (opcode_ pop2) = OpPushData2 /\
                  Z.of_nat (length (data pop2)) <= 65535) \/
                 value (opcode_ pop2) = OpPushData4)
    by (destruct Hs2 as [Hnil | Hs2]; [done | exact Hs2]).
  pose proof (Hcanon pop1 Hc1 Hlen Hs1') as Hk1.
  split.
  - intros Hc2.
    pose proof (Hcanon pop2 Hc2 ltac:(by rewrite <- Hdata) Hs2') as Hk2.
    assert (Hv : value (opcode_ pop1) = value (opcode_ pop2)).
    { rewrite <- Hdata in Hk2. clear -Hk1 Hk2. lia. }
    destruct pop1 as [op1 d1], pop2 as [op2 d2]. cbn [opcode_ data] in *.
    congruence.
  - intros b Hb. rewrite Hb in Hk1. cbn [length byteAt nth] in Hk1.
    unfold byteAt in Hk1. cbn [nth] in Hk1. clear -Hk1. lia.
Qed.

Lemma canonicalPush_unique_witness :
  In (mkParsedOpcode (opcodeArray 1) [17]) (fst (parseScript [1; 17])) /\
  In (mkParsedOpcode (opcodeArray 1) [17]) (fst (parseScript [Op1; 1; 17])) /\
  canonicalPush (mkParsedOpcode (opcodeArray 1) [17]) = true /\
  16 < 17.
Proof.
  assert (H1 : In (mkParsedOpcode (opcodeArray 1) [17]) (fst (parseScript [1; 17])))
    by (vm_compute; by left).
  assert (H2 : In (mkParsedOpcode (opcodeArray 1) [17])
                  (fst (parseScript [Op1; 1; 17])))
    by (vm_compute; right; by left).
  split; [exact H1 |]. split; [exact H2 |]. split; [reflexivity |].
  destruct (canonicalPush_unique [1; 17] [Op1; 1; 17]
              (mkParsedOpcode (opcodeArray 1) [17])
              (mkParsedOpcode (opcodeArray 1) [17])) as [_ Hbyte].
  - repeat constructor; unfold isByte; lia.
  - repeat constructor; unfold isByte, Op1; lia.
  - exact H1.
  - exact H2.
  - reflexivity.
  - discriminate.
  - reflexivity.
  - by apply Hbyte.
Defined.

End CanonicalPushFacts.
(* ===================================================================== *)
(** * Further properties of the signature hash *)
(* ===================================================================== *)
Section CopyFacts.
Import TxScript.
Local Open Scope Z_scope.


(** ** What [shallowCopyTx] builds *)

Lemma insertAll_lookup_in {V : Type} (ps : list ptr) (v : V) cells q :
  In q ps -> is_Some (insertAll ps v cells !! q).
Proof.
  induction ps as [| p ps IH]; intros Hin; [done |]. simpl.
  destruct (decide (p = q)) as [-> | Hne].
  - rewrite lookup_insert_eq. by eexists.
  - rewrite lookup_insert_ne by done. apply IH. by destruct Hin.
Qed.

Lemma copyInputs_run (ps : list ptr) :
  NoDup ps ->
  forall olds i m,
    (forall old, In old olds -> ~ In old ps) ->
    (forall old, In old olds -> is_Some (inputCells m !! old)) ->
    (forall p, In p ps -> is_Some (inputCells m !! p)) ->
    (i + length olds <= length ps)%nat ->
    exists m',
      forRangeFrom i olds (fun i oldTxIn =>
        v <- loadInput oldTxIn ;;
        match ps !! i with
        | Some p => storeInput p v
        | None => panic
        end) m = Some (tt, m') /\
      outputCells m' = outputCells m /\
      scriptCells m' = scriptCells m /\
      (forall j old, olds !! j = Some old ->
         exists p, ps !! (i + j)%nat = Some p /\
                   inputCells m' !! p = inputCells m !! old) /\
      (forall q, (forall k, (i <= k)%nat -> ps !! k <> Some q) ->
                 inputCells m' !! q = inputCells m !! q).
Proof.
  intros Hnd. induction olds as [| old olds IH]; intros i m Hfresh Hold Hps Hlen.
  - exists m. split; [done |]. split; [done |]. split; [done |].
    split; [intros j old Hj; by rewrite lookup_nil in Hj | done].
  - cbn [forRangeFrom]. unfold bind at 1. unfold bind at 1.
    destruct (Hold old ltac:(by left)) as [v Hv].
    unfold loadInput at 1. rewrite Hv.
    simpl in Hlen.
    destruct (lookup_lt_is_Some_2 ps i ltac:(lia)) as [p Hp]. rewrite Hp.
    assert (Hpin : In p ps) by (apply list_elem_of_In; by eapply list_elem_of_lookup_2).
    destruct (Hps p Hpin) as [v0 Hv0].
    unfold storeInput at 1. rewrite Hv0.
    set (m1 := mkMemory _ _ _).
    assert (Hne : forall old', In old' (old :: olds) -> old' <> p).
    { intros old' Hin ->. by apply (Hfresh p Hin). }
    destruct (IH (S i) m1) as (m' & Hrun & Ho & Hs & Hcopy & Hframe).
    { intros old' Hin. apply Hfresh. by right. }
    { intros old' Hin. subst m1. cbn [inputCells].
      assert (old' <> p) by (apply Hne; by right).
      rewrite lookup_insert_ne by done.
      apply Hold. by right. }
    { intros q Hq. subst m1. cbn [inputCells].
      destruct (decide (p = q)) as [-> | Hpq].
      - rewrite lookup_insert_eq. by eexists.
      - rewrite lookup_insert_ne by done. by apply Hps. }
    { lia. }
    exists m'. split; [exact Hrun |]. split; [exact Ho |]. split; [exact Hs |].
    split.
    + intros j old' Hj. destruct j as [| j].
      * injection Hj as <-. exists p. rewrite Nat.add_0_r. split; [exact Hp |].
        rewrite Hframe.
        -- subst m1. cbn [inputCells]. by rewrite lookup_insert_eq.
        -- intros k Hk Hkp. pose proof (NoDup_lookup _ _ _ _ Hnd Hp Hkp). lia.
      * cbn [lookup list_lookup] in Hj.
        destruct (Hcopy j old' Hj) as (p' & Hp' & Hcell).
        exists p'. replace (i + S j)%nat with (S i + j)%nat by lia.
        split; [exact Hp' |]. rewrite Hcell. subst m1. cbn [inputCells].
        assert (old' <> p).
        { apply Hne. right. apply list_elem_of_In. by eapply list_elem_of_lookup_2. }
        by rewrite lookup_insert_ne.
    + intros q Hq. rewrite Hframe by (intros k Hk; apply Hq; lia).
      subst m1. cbn [inputCells]. rewrite lookup_insert_ne; [done |].
      intros ->. by apply (Hq i).
Qed.

Lemma copyOutputs_run (ps : list ptr) :
  NoDup ps ->
  forall olds i m,
    (forall old, In old olds -> ~ In old ps) ->
    (forall old, In old olds -> is_Some (outputCells m !! old)) ->
    (forall p, In p ps -> is_Some (outputCells m !! p)) ->
    (i + length olds <= length ps)%nat ->
    exists m',
      forRangeFrom i olds (fun i oldTxOut =>
        v <- loadOutput oldTxOut ;;
        match ps !! i with
        | Some p => storeOutput p v
        | None => panic
        end) m = Some (tt, m') /\
      inputCells m' = inputCells m /\
      scriptCells m' = scriptCells m /\
      (forall j old, olds !! j = Some old ->
         exists p, ps !! (i + j)%nat = Some p /\
                   outputCells m' !! p = outputCells m !! old) /\
      (forall q, (forall k, (i <= k)%nat -> ps !! k <> Some q) ->
                 outputCells m' !! q = outputCells m !! q).
Proof.
  intros Hnd. induction olds as [| old olds IH]; intros i m Hfresh Hold Hps Hlen.
  - exists m. split; [done |]. split; [done |]. split; [done |].
    split; [intros j old Hj; by rewrite lookup_nil in Hj | done].
  - cbn [forRangeFrom]. unfold bind at 1. unfold bind at 1.
    destruct (Hold old ltac:(by left)) as [v Hv].
    unfold loadOutput at 1. rewrite Hv.
    simpl in Hlen.
    destruct (lookup_lt_is_Some_2 ps i ltac:(lia)) as [p Hp]. rewrite Hp.
    assert (Hpin : In p ps) by (apply list_elem_of_In; by eapply list_elem_of_lookup_2).
    destruct (Hps p Hpin) as [v0 Hv0].
    unfold storeOutput at 1. rewrite Hv0.
    set (m1 := mkMemory _ _ _).
    assert (Hne : forall old', In old' (old :: olds) -> old' <> p).
    { intros old' Hin ->. by apply (Hfresh p Hin). }
    destruct (IH (S i) m1) as (m' & Hrun & Ho & Hs & Hcopy & Hframe).
    { intros old' Hin. apply Hfresh. by right. }
    { intros old' Hin. subst m1. cbn [outputCells].
      assert (old' <> p) by (apply Hne; by right).
      rewrite lookup_insert_ne by done.
      apply Hold. by right. }
    { intros q Hq. subst m1. cbn [outputCells].
      destruct (decide (p = q)) as [-> | Hpq].
      - rewrite lookup_insert_eq. by eexists.
      - rewrite lookup_insert_ne by done. by apply Hps. }
    { lia. }
    exists m'. split; [exact Hrun |]. split; [exact Ho |]. split; [exact Hs |].
    split.
    + intros j old' Hj. destruct j as [| j].
      * injection Hj as <-. exists p. rewrite Nat.add_0_r. split; [exact Hp |].
        rewrite Hframe.
        -- subst m1. cbn [outputCells]. by rewrite lookup_insert_eq.
        -- intros k Hk Hkp. pose proof (NoDup_lookup _ _ _ _ Hnd Hp Hkp). lia.
      * cbn [lookup list_lookup] in Hj.
        destruct (Hcopy j old' Hj) as (p' & Hp' & Hcell).
        exists p'. replace (i + S j)%nat with (S i + j)%nat by lia.
        split; [exact Hp' |]. rewrite Hcell. subst m1. cbn [outputCells].
        assert (old' <> p).
        { apply Hne. right. apply list_elem_of_In. by eapply list_elem_of_lookup_2. }
        by rewrite lookup_insert_ne.
    + intros q Hq. rewrite Hframe by (intros k Hk; apply Hq; lia).
      subst m1. cbn [outputCells]. rewrite lookup_insert_ne; [done |].
      intros ->. by apply (Hq i).
Qed.

Lemma bind_run {A B : Type} (c : M A) (f : A -> M B) m a m1 :
  c m = Some (a, m1) -> bind c f m = f a m1.
Proof. intros H. unfold bind. by rewrite H. Qed.

Lemma mapM_loadInput_all ps :
  forall m vs m1,
    mapM loadInput ps m = Some (vs, m1) ->
    m1 = m /\ forall p, In p ps -> is_Some (inputCells m !! p).
Proof.
  induction ps as [| p ps IH]; intros m vs m1 H.
  - injection H as <- <-. by split.
  - cbn [mapM] in H. apply bind_Some in H as (v & m2 & Hv & H).
    apply loadInput_Some in Hv as [Hv ->].
    apply bind_Some in H as (vs' & m3 & Hvs & H).
    destruct (IH _ _ _ Hvs) as [-> Hall]. injection H as <- <-.
    split; [done |]. intros q [<- | Hq]; [by eexists | by apply Hall].
Qed.

Lemma mapM_readOutput_all ps :
  forall m vs m1,
    mapM readOutput ps m = Some (vs, m1) ->
    m1 = m /\ forall p, In p ps -> is_Some (outputCells m !! p).
Proof.
  induction ps as [| p ps IH]; intros m vs m1 H.
  - injection H as <- <-. by split.
  - cbn [mapM] in H. apply bind_Some in H as (v & m2 & Hv & H).
    apply readOutput_Some in Hv as (o & sc & Ho & Hsc & -> & ->).
    apply bind_Some in H as (vs' & m3 & Hvs & H).
    destruct (IH _ _ _ Hvs) as [-> Hall]. injection H as <- <-.
    split; [done |]. intros q [<- | Hq]; [by eexists | by apply Hall].
Qed.

(** Pointers that hold, one by one, what the pointers of [olds] hold
    read the same. *)
Lemma mapM_loadInput_copy olds :
  forall ps m m' vs,
    length ps = length olds ->
    (forall j old, olds !! j = Some old ->
       exists p, ps !! j = Some p /\ inputCells m' !! p = inputCells m !! old) ->
    mapM loadInput olds m = Some (vs, m) ->
    mapM loadInput ps m' = Some (vs, m').
Proof.
  induction olds as [| old olds IH]; intros ps m m' vs Hlen Hcopy H.
  - destruct ps; [| done]. by injection H as <-.
  - destruct ps as [| p ps]; [done |].
    cbn [mapM] in H. apply bind_Some in H as (v & m2 & Hv & H).
    apply loadInput_Some in Hv as [Hv ->].
    apply bind_Some in H as (vs' & m3 & Hvs & H).
    destruct (mapM_loadInput_all _ _ _ _ Hvs) as [-> _]. injection H as <-.
    destruct (Hcopy 0%nat old eq_refl) as (p' & Hp' & Hcell).
    injection Hp' as <-.
    cbn [mapM]. unfold bind at 1. unfold loadInput at 1. rewrite Hcell, Hv.
    unfold bind at 1.
    rewrite (IH ps m m' vs'); [done | by injection Hlen | | done].
    intros j old' Hj. apply (Hcopy (S j) old' Hj).
Qed.

Lemma mapM_readOutput_copy olds :
  forall ps m m' vs,
    length ps = length olds ->
    scriptCells m' = scriptCells m ->
    (forall j old, olds !! j = Some old ->
       exists p, ps !! j = Some p /\ outputCells m' !! p = outputCells m !! old) ->
    mapM readOutput olds m = Some (vs, m) ->
    mapM readOutput ps m' = Some (vs, m').
Proof.
  induction olds as [| old olds IH]; intros ps m m' vs Hlen Hsc Hcopy H.
  - destruct ps; [| done]. by injection H as <-.
  - destruct ps as [| p ps]; [done |].
    cbn [mapM] in H. apply bind_Some in H as (v & m2 & Hv & H).
    apply readOutput_Some in Hv as (o & sc & Ho & Hs & -> & ->).
    apply bind_Some in H as (vs' & m3 & Hvs & H).
    destruct (mapM_readOutput_all _ _ _ _ Hvs) as [-> _]. injection H as <-.
    destruct (Hcopy 0%nat old eq_refl) as (p' & Hp' & Hcell).
    injection Hp' as <-.
    cbn [mapM]. unfold bind at 1. unfold readOutput at 1.
    unfold bind at 1. unfold loadOutput at 1. rewrite Hcell, Ho.
    unfold bind at 1. unfold loadScript at 1. rewrite Hsc, Hs.
    unfold ret at 1. unfold bind at 1.
    rewrite (IH ps m m' vs'); [done | by injection Hlen | done | | done].
    intros j old' Hj. apply (Hcopy (S j) old' Hj).
Qed.

(** The run of [shallowCopyTx] on a transaction that can be read. *)
Lemma shallowCopyTx_run (tx : DomainTransaction) (m : memory) (view : TxView) :
  viewTx m tx = Some view ->
  exists txCopy m',
    shallowCopyTx tx m = Some (txCopy, m') /\
    viewTx m' txCopy = Some view /\
    kept true m m' /\
    freshCopy m txCopy /\
    NoDup (Inputs txCopy) /\ NoDup (Outputs txCopy) /\
    scriptCells m' = scriptCells m /\
    (forall j old, Outputs tx !! j = Some old ->
       exists p, Outputs txCopy !! j = Some p /\
                 outputCells m' !! p = outputCells m !! old) /\
    length (Inputs txCopy) = length (Inputs tx) /\
    length (Outputs txCopy) = length (Outputs tx) /\
    setPayload txCopy (Payload tx)
    = setOutputs (setInputs tx (Inputs txCopy)) (Outputs txCopy).
Proof.
  intros Hview. pose proof Hview as Hview0. unfold viewTx in Hview.
  destruct (readTx tx m) as [[v mr] |] eqn:Hread; [| done].
  injection Hview as ->. unfold readTx in Hread.
  apply bind_Some in Hread as (ins & m1 & Hins & Hread).
  destruct (mapM_loadInput_all _ _ _ _ Hins) as [-> HinsAll].
  apply bind_Some in Hread as (outs & m2 & Houts & Hread).
  destruct (mapM_readOutput_all _ _ _ _ Houts) as [-> HoutsAll].
  injection Hread as <- <-.
  (* the inputs *)
  set (txIns := fresh_list (length (Inputs tx)) (dom (inputCells m))).
  set (mI := mkMemory (insertAll txIns (mkInput (0%N, 0) [] 0) (inputCells m))
                      (outputCells m) (scriptCells m)).
  assert (HfreshI : forall p, In p txIns -> inputCells m !! p = None).
  { intros p Hp. apply list_elem_of_In, fresh_list_is_fresh in Hp.
    by apply not_elem_of_dom in Hp. }
  destruct (copyInputs_run txIns (NoDup_fresh_list _ _) (Inputs tx) 0 mI)
    as (m2 & Hrun2 & Ho2 & Hs2 & Hcopy2 & Hframe2).
  { intros old Hold Hin. destruct (HinsAll old Hold) as [x Hx].
    rewrite (HfreshI old Hin) in Hx. discriminate Hx. }
  { intros old Hold. subst mI. cbn [inputCells].
    rewrite insertAll_lookup_ne; [by apply HinsAll |].
    intros Hin. destruct (HinsAll old Hold) as [x Hx].
    rewrite (HfreshI old Hin) in Hx. discriminate Hx. }
  { intros p Hp. subst mI. cbn [inputCells]. by apply insertAll_lookup_in. }
  { subst txIns. rewrite length_fresh_list. lia. }
  (* the outputs *)
  set (nilPtr := fresh (dom (scriptCells m2))).
  set (txOuts := fresh_list (length (Outputs tx)) (dom (outputCells m2))).
  set (mO := mkMemory (inputCells m2)
                      (insertAll txOuts (mkOutput 0 nilPtr) (outputCells m2))
                      (scriptCells m2)).
  assert (HfreshO : forall p, In p txOuts -> outputCells m !! p = None).
  { intros p Hp. apply list_elem_of_In, fresh_list_is_fresh in Hp.
    apply not_elem_of_dom in Hp. rewrite Ho2 in Hp. exact Hp. }
  destruct (copyOutputs_run txOuts (NoDup_fresh_list _ _) (Outputs tx) 0 mO)
    as (m3 & Hrun3 & Hi3 & Hs3 & Hcopy3 & Hframe3).
  { intros old Hold Hin. destruct (HoutsAll old Hold) as [x Hx].
    rewrite (HfreshO old Hin) in Hx. discriminate Hx. }
  { intros old Hold. subst mO. cbn [outputCells].
    rewrite insertAll_lookup_ne; [rewrite Ho2; by apply HoutsAll |].
    intros Hin. destruct (HoutsAll old Hold) as [x Hx].
    rewrite (HfreshO old Hin) in Hx. discriminate Hx. }
  { intros p Hp. subst mO. cbn [outputCells]. by apply insertAll_lookup_in. }
  { subst txOuts. rewrite length_fresh_list. lia. }
  (* the run *)
  assert (Hrun : shallowCopyTx tx m
                 = Some ({| TxVersion := TxVersion tx;
                            Inputs := txIns;
                            Outputs := txOuts;
                            LockTime := LockTime tx;
                            SubnetworkID := SubnetworkID tx;
                            Gas := Gas tx;
                            PayloadHash := PayloadHash tx;
                            Payload := Payload tx |}, m3)).
  { unfold shallowCopyTx.
    rewrite (bind_run _ _ m txIns mI) by reflexivity.
    unfold forRange. rewrite (bind_run _ _ mI tt m2 Hrun2).
    rewrite (bind_run _ _ m2 nilPtr m2) by reflexivity.
    rewrite (bind_run _ _ m2 txOuts mO) by reflexivity.
    rewrite (bind_run _ _ mO tt m3 Hrun3). reflexivity. }
  eexists _, m3. split; [exact Hrun |].
  destruct (keeps_shallowCopyTx true m tx m _ m3 (kept_refl _ _) Hrun)
    as [Hkept Hfresh].
  assert (Hsc : scriptCells m3 = scriptCells m).
  { rewrite Hs3. subst mO. cbn [scriptCells]. rewrite Hs2. reflexivity. }
  assert (HcopyO : forall j old, Outputs tx !! j = Some old ->
            exists p, txOuts !! j = Some p /\
                      outputCells m3 !! p = outputCells m !! old).
  { intros j old Hj. destruct (Hcopy3 j old Hj) as (p & Hp & Hcell).
    exists p. split; [exact Hp |]. rewrite Hcell. subst mO. cbn [outputCells].
    assert (Hold : In old (Outputs tx))
      by (apply list_elem_of_In; by eapply list_elem_of_lookup_2).
    rewrite insertAll_lookup_ne; [by rewrite Ho2 |].
    intros Hin. destruct (HoutsAll old Hold) as [x Hx].
    rewrite (HfreshO old Hin) in Hx. discriminate Hx. }
  split.
  { unfold viewTx, readTx. cbn [Inputs Outputs TxVersion LockTime SubnetworkID
                                Gas PayloadHash Payload].
    rewrite (bind_run _ _ m3 ins m3).
    - rewrite (bind_run _ _ m3 outs m3); [reflexivity |].
      apply (mapM_readOutput_copy (Outputs tx) txOuts m m3 outs);
        [subst txOuts; by rewrite length_fresh_list | exact Hsc | exact HcopyO
        | exact Houts].
    - apply (mapM_loadInput_copy (Inputs tx) txIns m m3 ins);
        [subst txIns; by rewrite length_fresh_list | | exact Hins].
      intros j old Hj. destruct (Hcopy2 j old Hj) as (p & Hp & Hcell).
      exists p. split; [exact Hp |].
      rewrite Hi3. subst mO. cbn [inputCells]. rewrite Hcell.
      subst mI. cbn [inputCells].
      assert (Hold : In old (Inputs tx))
        by (apply list_elem_of_In; by eapply list_elem_of_lookup_2).
      apply insertAll_lookup_ne.
      intros Hin. destruct (HinsAll old Hold) as [x Hx].
      rewrite (HfreshI old Hin) in Hx. discriminate Hx. }
  split; [exact Hkept |].
  split; [exact Hfresh |].
  split; [apply NoDup_fresh_list |]. split; [apply NoDup_fresh_list |].
  split; [exact Hsc |]. split; [exact HcopyO |].
  split; [apply length_fresh_list |]. split; [apply length_fresh_list |].
  reflexivity.
Qed.


(** [shallowCopyTx] of a transaction that can be read returns, without a
    panic, a transaction that reads as the original does, whose inputs
    and outputs are at addresses of their own, not in use before and
    all different, while the original reads as before. The copy is
    shallow: every output of the copy holds what the output of the
    original holds, the pointer to the script public key included, and
    no script public key is written. *)
Theorem shallowCopyTx_copies (tx : DomainTransaction) (m : memory) (view : TxView) :
  viewTx m tx = Some view ->
  exists txCopy m',
    shallowCopyTx tx m = Some (txCopy, m') /\
    viewTx m' txCopy = Some view /\
    viewTx m' tx = Some view /\
    freshCopy m txCopy /\
    NoDup (Inputs txCopy) /\ NoDup (Outputs txCopy) /\
    scriptCells m' = scriptCells m /\
    (forall j old, Outputs tx !! j = Some old ->
       exists p, Outputs txCopy !! j = Some p /\
                 outputCells m' !! p = outputCells m !! old).
Proof.
  intros Hview.
  destruct (shallowCopyTx_run tx m view Hview)
    as (txCopy & m' & Hrun & Hcopy & Hkept & Hfresh & HndI & HndO & Hsc & Hout & _).
  exists txCopy, m'. split; [exact Hrun |]. split; [exact Hcopy |].
  split; [by apply viewTx_kept with m |]. done.
Qed.

Lemma shallowCopyTx_copies_witness :
  exists txCopy m',
    shallowCopyTx tx2in2out exampleMemory = Some (txCopy, m') /\
    viewTx m' txCopy = viewTx exampleMemory tx2in2out /\
    NoDup (Inputs txCopy).
Proof.
  destruct (viewTx exampleMemory tx2in2out) as [view |] eqn:Hview;
    [| vm_compute in Hview; discriminate Hview].
  destruct (shallowCopyTx_copies tx2in2out exampleMemory view Hview)
    as (txCopy & m' & Hrun & Hcopy & _ & _ & Hnd & _).
  exists txCopy, m'. split; [exact Hrun |]. split; [exact Hcopy | exact Hnd].
Defined.

(** ** What [calcSignatureHash] hashes *)

Lemma mapM_loadInput_Forall2 ps :
  forall m vs,
    Forall2 (fun p v => inputCells m !! p = Some v) ps vs ->
    mapM loadInput ps m = Some (vs, m).
Proof.
  induction ps as [| p ps IH]; intros m vs H.
  - by apply Forall2_nil_inv_l in H as ->.
  - apply Forall2_cons_inv_l in H as (v & vs' & Hv & Hvs & ->).
    cbn [mapM]. unfold bind at 1. unfold loadInput at 1. rewrite Hv.
    unfold bind at 1. by rewrite (IH m vs' Hvs).
Qed.

Lemma mapM_loadInput_inv ps :
  forall m vs m1,
    mapM loadInput ps m = Some (vs, m1) ->
    Forall2 (fun p v => inputCells m !! p = Some v) ps vs.
Proof.
  induction ps as [| p ps IH]; intros m vs m1 H.
  - injection H as <- <-. constructor.
  - cbn [mapM] in H. apply bind_Some in H as (v & m2 & Hv & H).
    apply loadInput_Some in Hv as [Hv ->].
    apply bind_Some in H as (vs' & m3 & Hvs & H). injection H as <- <-.
    constructor; [done | by eapply IH].
Qed.

Lemma Forall2_cells_frame {V : Type} (c c' : gmap ptr V) ps vs :
  Forall2 (fun p v => c !! p = Some v) ps vs ->
  (forall p, In p ps -> c' !! p = c !! p) ->
  Forall2 (fun p v => c' !! p = Some v) ps vs.
Proof.
  induction 1 as [| p v ps vs Hp _ IH]; intros Hsame; constructor.
  - rewrite Hsame; [done | by left].
  - apply IH. intros q Hq. apply Hsame. by right.
Qed.

(** A loop over pointers that are all different, whose body replaces
    what the pointer holds by a function of the index and of what it
    held. *)
Lemma updateInputs_run (f : nat -> DomainTransactionInput -> DomainTransactionInput)
    (body : nat -> ptr -> M unit) :
  (forall i p m v, inputCells m !! p = Some v ->
     exists m1, body i p m = Some (tt, m1) /\
                inputCells m1 = <[p := f i v]> (inputCells m) /\
                outputCells m1 = outputCells m /\
                scriptCells m1 = scriptCells m) ->
  forall ps i vs m,
    NoDup ps ->
    Forall2 (fun p v => inputCells m !! p = Some v) ps vs ->
    exists m',
      forRangeFrom i ps body m = Some (tt, m') /\
      Forall2 (fun p v => inputCells m' !! p = Some v) ps
              (imap (fun j => f (i + j)%nat) vs) /\
      outputCells m' = outputCells m /\
      scriptCells m' = scriptCells m /\
      (forall q, ~ In q ps -> inputCells m' !! q = inputCells m !! q).
Proof.
  intros Hbody. induction ps as [| p ps IH]; intros i vs m Hnd Hcells.
  - apply Forall2_nil_inv_l in Hcells as ->. exists m.
    split; [done |]. split; [constructor |]. done.
  - apply Forall2_cons_inv_l in Hcells as (v & vs' & Hv & Hvs & ->).
    apply NoDup_cons in Hnd as [Hp Hnd].
    destruct (Hbody i p m v Hv) as (m1 & Hrun1 & Hi1 & Ho1 & Hs1).
    destruct (IH (S i) vs' m1 Hnd) as (m' & Hrun & Hcells' & Ho & Hs & Hframe).
    { apply Forall2_cells_frame with (inputCells m); [done |].
      intros q Hq. rewrite Hi1. apply lookup_insert_ne.
      intros ->. apply Hp. by apply list_elem_of_In. }
    exists m'. cbn [forRangeFrom]. rewrite (bind_run _ _ m tt m1 Hrun1).
    split; [exact Hrun |]. split.
    + rewrite imap_cons. constructor.
      * rewrite Hframe by (intros Hq; apply Hp; by apply list_elem_of_In).
        rewrite Hi1, lookup_insert_eq. by rewrite Nat.add_0_r.
      * erewrite imap_ext; [exact Hcells' |].
        intros j x _. simpl. f_equal. lia.
    + split; [congruence |]. split; [congruence |].
      intros q Hq. rewrite Hframe by (intros Hin; apply Hq; by right).
      rewrite Hi1. apply lookup_insert_ne. intros ->. apply Hq. by left.
Qed.

Lemma storeInput_run p v m v0 :
  inputCells m !! p = Some v0 ->
  exists m1, storeInput p v m = Some (tt, m1) /\
             inputCells m1 = <[p := v]> (inputCells m) /\
             outputCells m1 = outputCells m /\
             scriptCells m1 = scriptCells m.
Proof. intros H. unfold storeInput. rewrite H. by eexists. Qed.

(** The run of [zeroOtherSequences]. *)
Lemma zeroOtherSequences_run ps idx vs m :
  NoDup ps ->
  Forall2 (fun p v => inputCells m !! p = Some v) ps vs ->
  exists m',
    zeroOtherSequences ps idx m = Some (tt, m') /\
    Forall2 (fun p v => inputCells m' !! p = Some v) ps
            (imap (fun i v =>
                     if negb (Z.of_nat i =? idx)
                     then mkInput (PreviousOutpoint v) (SignatureScript v) 0
                     else v) vs) /\
    outputCells m' = outputCells m /\
    scriptCells m' = scriptCells m.
Proof.
  intros Hnd Hcells. unfold zeroOtherSequences, forRange.
  destruct (updateInputs_run
              (fun i v => if negb (Z.of_nat i =? idx)
                          then mkInput (PreviousOutpoint v) (SignatureScript v) 0
                          else v)
              (fun i p =>
                 if negb (Z.of_nat i =? idx) then
                   v <- loadInput p ;;
                   storeInput p (mkInput (PreviousOutpoint v) (SignatureScript v) 0)
                 else ret tt)) with (ps := ps) (i := 0%nat) (vs := vs) (m := m)
    as (m' & Hrun & Hcells' & Ho & Hs & _); [| done | done |].
  - intros i p m0 v Hv. destruct (negb (Z.of_nat i =? idx)).
    + unfold bind, loadInput at 1. rewrite Hv. by apply storeInput_run with v.
    + exists m0. split; [done |]. split; [| done]. by rewrite insert_id.
  - exists m'. split; [exact Hrun |]. split; [exact Hcells' |]. done.
Qed.

(** For a hash type that is not [SigHashSingle] under the mask and a
    transaction that can be read, [calcSignatureHash] returns, without an
    error, the hash of what the transaction reads as after the changes of
    [signingView]; with [SigHashAnyOneCanPay] the index must be one of an
    input, otherwise the call panics on the slice. So the hash depends
    on no signature script of the transaction, and with [SigHashNone] on
    no output. *)
Theorem calcSignatureHash_hashes_signingView
    (bytes : parsedOpcode -> error + list Z)
    (TransactionHashForSigning : TxView -> Z -> Hash)
    (prevScriptPublicKey : list parsedOpcode) (scriptVersion hashType : Z)
    (tx : DomainTransaction) (idx : Z) (m : memory) (view : TxView) :
  viewTx m tx = Some view ->
  Z.land hashType sigHashMask <> SigHashSingle ->
  let sigScript := match unparseScript bytes prevScriptPublicKey with
                   | inr b => b
                   | inl _ => []
                   end in
  if (Z.land hashType SigHashAnyOneCanPay =? 0)
     || ((0 <=? idx) && (idx <? Z.of_nat (length (Inputs tx))))
  then
    exists m',
      calcSignatureHash bytes TransactionHashForSigning prevScriptPublicKey
        scriptVersion hashType tx idx m
      = Some (inr (TransactionHashForSigning
                     (signingView sigScript scriptVersion hashType idx view)
                     hashType), m')
  else
    calcSignatureHash bytes TransactionHashForSigning prevScriptPublicKey
      scriptVersion hashType tx idx m = None.
Proof.
  intros Hview Hmask sigScript.
  destruct (shallowCopyTx_run tx m view Hview)
    as (txCopy & m1 & Hcopy & Hview1 & _ & _ & HndI & _ & _ & _ & HlenI & _ & Htx).
  unfold viewTx in Hview1.
  destruct (readTx txCopy m1) as [[v1 mr] |] eqn:Hread; [| done].
  injection Hview1 as ->. unfold readTx in Hread.
  apply bind_Some in Hread as (ins & m2 & Hins & Hread).
  pose proof (mapM_loadInput_inv _ _ _ _ Hins) as Hcells.
  destruct (mapM_loadInput_all _ _ _ _ Hins) as [-> _].
  apply bind_Some in Hread as (outs & m3 & Houts & Hread).
  destruct (mapM_readOutput_all _ _ _ _ Houts) as [-> _].
  injection Hread as Hv.
  (* the first loop *)
  set (version := [scriptVersion mod 256; (scriptVersion / 256) mod 256]).
  set (f1 := fun (i : nat) v =>
               mkInput (PreviousOutpoint v)
                       (if Z.of_nat i =? idx then version ++ sigScript else [])
                       (Sequence v)).
  destruct (updateInputs_run f1
              (fun i p =>
                 v <- loadInput p ;;
                 if Z.of_nat i =? idx then
                   storeInput p (mkInput (PreviousOutpoint v) (version ++ sigScript)
                                         (Sequence v))
                 else storeInput p (mkInput (PreviousOutpoint v) [] (Sequence v))))
    with (ps := Inputs txCopy) (i := 0%nat) (vs := ins) (m := m1)
    as (m4 & Hrun4 & Hcells4 & Ho4 & Hs4 & _); [| done | done |].
  { intros i p m0 v Hv0. unfold bind, loadInput at 1. rewrite Hv0. subst f1. cbv beta.
    destruct (Z.of_nat i =? idx); by apply storeInput_run with v. }
  cbn [Nat.add] in Hcells4.
  (* the switch *)
  set (none := Z.land hashType sigHashMask =? SigHashNone).
  set (g := fun (i : nat) v =>
              mkInput (PreviousOutpoint v)
                      (if Z.of_nat i =? idx then version ++ sigScript else [])
                      (if none && negb (Z.of_nat i =? idx) then 0 else Sequence v)).
  assert (Hswitch : exists m5,
            Forall2 (fun p v => inputCells m5 !! p = Some v) (Inputs txCopy)
                    (imap g ins) /\
            outputCells m5 = outputCells m1 /\ scriptCells m5 = scriptCells m1 /\
            (if none
             then zeroOtherSequences (Inputs txCopy) idx m4 = Some (tt, m5)
             else m5 = m4)).
  { destruct none eqn:Hnone.
    - destruct (zeroOtherSequences_run (Inputs txCopy) idx _ m4 HndI Hcells4)
        as (m5 & Hrun5 & Hcells5 & Ho5 & Hs5).
      exists m5. split; [| split; [congruence | split; [congruence | done]]].
      replace (imap g ins) with
        (imap (fun i v => if negb (Z.of_nat i =? idx)
                          then mkInput (PreviousOutpoint v) (SignatureScript v) 0
                          else v) (imap f1 ins)); [exact Hcells5 |].
      apply list_eq. intros j. rewrite !list_lookup_imap.
      destruct (ins !! j) as [v |]; [| done]. simpl. subst f1 g. cbv beta.
      by destruct (Z.of_nat j =? idx).
    - exists m4. split; [| done].
      replace (imap g ins) with (imap f1 ins); [exact Hcells4 |].
      apply imap_ext. intros j v _. subst f1 g. cbv beta. done. }
  destruct Hswitch as (m5 & Hcells5 & Ho5 & Hs5 & Hrun5).
  assert (Houts5 : mapM readOutput (Outputs txCopy) m5 = Some (outs, m5)).
  { destruct (mapM_readOutput_kept (Outputs txCopy) m1 m5 outs m1) as [_ Hk];
      [| exact Hs5 | exact Houts | exact Hk].
    intros p v Hp. by rewrite Ho5. }
  (* the run *)
  unfold calcSignatureHash.
  assert (Hguard : (Z.land hashType sigHashMask =? SigHashSingle) = false)
    by (by apply Z.eqb_neq).
  rewrite Hguard. cbn [andb].
  rewrite (bind_run _ _ m txCopy m1 Hcopy).
  unfold forRange. cbn [setPayload Inputs Outputs].
  rewrite (bind_run _ _ m1 tt m4 Hrun4).
  fold none.
  set (txCopy5 := if none
                  then setOutputs (setPayload txCopy []) (take 0 (Outputs txCopy))
                  else setPayload txCopy []).
  assert (Hsw : (if none
                 then
                   zeroOtherSequences
                     (Inputs (setOutputs (setPayload txCopy [])
                                (take 0 (Outputs txCopy)))) idx ;;;
                   ret (setOutputs (setPayload txCopy []) (take 0 (Outputs txCopy)))
                 else ret (setPayload txCopy [])) m4 = Some (txCopy5, m5)).
  { subst txCopy5. destruct none.
    - cbn [setOutputs setPayload Inputs]. by rewrite (bind_run _ _ m4 tt m5 Hrun5).
    - by subst m5. }
  assert (Hins5 : Inputs txCopy5 = Inputs txCopy) by (subst txCopy5; by destruct none).
  assert (Houts5' : mapM readOutput (Outputs txCopy5) m5
                    = Some (if none then [] else outs, m5)).
  { subst txCopy5. destruct none; [done | exact Houts5]. }
  assert (Hview5 : forall ps vs,
            Forall2 (fun p v => inputCells m5 !! p = Some v) ps vs ->
            readTx (setInputs txCopy5 ps) m5
            = Some ({| viewVersion := viewVersion view;
                       viewInputs := vs;
                       viewOutputs := if none then [] else viewOutputs view;
                       viewLockTime := viewLockTime view;
                       viewSubnetworkID := viewSubnetworkID view;
                       viewGas := viewGas view;
                       viewPayloadHash := viewPayloadHash view;
                       viewPayload := [] |}, m5)).
  { intros ps vs Hps. unfold readTx. cbn [setInputs Inputs Outputs].
    rewrite (bind_run _ _ m5 vs m5 (mapM_loadInput_Forall2 _ _ _ Hps)).
    rewrite (bind_run _ _ m5 _ m5 Houts5'). unfold ret. subst view txCopy5.
    by destruct none. }
  destruct (Z.land hashType SigHashAnyOneCanPay =? 0) eqn:Hacp; cbn [orb negb].
  - exists m5. rewrite (bind_run _ _ m4 txCopy5 m5 Hsw).
    rewrite (bind_run _ _ m5 txCopy5 m5 eq_refl).
    assert (Hsame : setInputs txCopy5 (Inputs txCopy) = txCopy5).
    { rewrite <- Hins5. by destruct txCopy5. }
    rewrite <- Hsame.
    rewrite (bind_run _ _ m5 _ m5 (Hview5 _ _ Hcells5)).
    unfold ret, signingView. rewrite Hacp. cbn [negb]. fold none. subst view.
    reflexivity.
  - rewrite (bind_run _ _ m4 txCopy5 m5 Hsw). rewrite Hins5, HlenI.
    destruct ((0 <=? idx) && (idx <? Z.of_nat (length (Inputs tx)))) eqn:Hrange.
    + apply andb_prop in Hrange as [H0 Hlt].
      apply Z.leb_le in H0. apply Z.ltb_lt in Hlt.
      destruct (Z.ltb_spec idx 0); [lia |].
      destruct (Z.gtb_spec (idx + 1) (Z.of_nat (length (Inputs tx)))); [lia |].
      cbn [orb]. exists m5.
      rewrite (bind_run _ _ m5 _ m5 eq_refl).
      rewrite (bind_run _ _ m5 _ m5
                 (Hview5 _ _ (Forall2_take _ _ _ 1
                                (Forall2_drop _ _ _ (Z.to_nat idx) Hcells5)))).
      unfold ret, signingView. rewrite Hacp. cbn [negb]. fold none. subst view.
      reflexivity.
    + assert (Hpanic : (idx <? 0) || (idx + 1 >? Z.of_nat (length (Inputs tx)))
                       = true).
      { apply andb_false_iff in Hrange as [H0 | Hlt].
        - apply Z.leb_gt in H0. apply orb_true_iff. left. by apply Z.ltb_lt.
        - apply Z.ltb_ge in Hlt. apply orb_true_iff. right.
          destruct (Z.gtb_spec (idx + 1) (Z.of_nat (length (Inputs tx)))); [done | lia]. }
      rewrite Hpanic. reflexivity.
Qed.

Lemma calcSignatureHash_hashes_signingView_witness :
  exists view m',
    viewTx exampleMemory tx2in2out = Some view /\
    calcSignatureHash exampleBytes exampleHash
      [mkParsedOpcode (opcodeArray OpCheckSig) []] 0
      (Z.lor SigHashNone SigHashAnyOneCanPay) tx2in2out 1 exampleMemory
    = Some (inr (exampleHash
                   (signingView [OpCheckSig] 0
                      (Z.lor SigHashNone SigHashAnyOneCanPay) 1 view)
                   (Z.lor SigHashNone SigHashAnyOneCanPay)), m') /\
    viewInputs (signingView [OpCheckSig] 0
                  (Z.lor SigHashNone SigHashAnyOneCanPay) 1 view)
    = [mkInput (1%N, 1) [0; 0; OpCheckSig] 11] /\
    viewOutputs (signingView [OpCheckSig] 0
                   (Z.lor SigHashNone SigHashAnyOneCanPay) 1 view) = [].
Proof.
  destruct (viewTx exampleMemory tx2in2out) as [view |] eqn:Hview;
    [| vm_compute in Hview; discriminate Hview].
  pose proof (calcSignatureHash_hashes_signingView exampleBytes exampleHash
                [mkParsedOpcode (opcodeArray OpCheckSig) []] 0
                (Z.lor SigHashNone SigHashAnyOneCanPay) tx2in2out 1
                exampleMemory view Hview ltac:(vm_compute; discriminate)) as Hrun.
  cbv zeta in Hrun.
  change ((Z.land (Z.lor SigHashNone SigHashAnyOneCanPay) SigHashAnyOneCanPay =? 0)
          || ((0 <=? 1) && (1 <? Z.of_nat (length (Inputs tx2in2out)))))
    with true in Hrun.
  cbv iota in Hrun. destruct Hrun as [m' Hrun].
  exists view, m'. split; [reflexivity |]. split; [exact Hrun |].
  vm_compute in Hview. injection Hview as <-. split; reflexivity.
Defined.

Lemma calcSignatureHash_leaves_tx_unchanged_witness :
  exists h m',
    calcSignatureHash exampleBytes exampleHash [] 0 SigHashAll tx2in2out 0
      exampleMemory = Some (inr h, m') /\
    viewTx m' tx2in2out = viewTx exampleMemory tx2in2out.
Proof.
  destruct (calcSignatureHash exampleBytes exampleHash [] 0 SigHashAll tx2in2out 0
              exampleMemory) as [[[e | h] m'] |] eqn:Hrun;
    [vm_compute in Hrun; discriminate Hrun | | vm_compute in Hrun; discriminate Hrun].
  exists h, m'. split; [reflexivity |].
  destruct (calcSignatureHash_leaves_tx_unchanged exampleBytes exampleHash [] 0
              SigHashAll tx2in2out 0 exampleMemory (inr h) m' Hrun)
    as (_ & _ & Hsame).
  destruct (viewTx exampleMemory tx2in2out) as [view |] eqn:Hview;
    [| vm_compute in Hview; discriminate Hview].
  apply Hsame; [left; vm_compute; discriminate | exact Hview].
Defined.

(** The errors of [CalcSignatureHash], all of them, each returned with
    memory as it was: an unknown script version; else a script that does
    not parse; else [SigHashSingle] with an index that is not one of an
    output. *)
Theorem CalcSignatureHash_errors
    (bytes : parsedOpcode -> error + list Z)
    (TransactionHashForSigning : TxView -> Z -> Hash)
    (script : ScriptPublicKey) (hashType : Z)
    (tx : DomainTransaction) (idx : Z) (m : memory) (e : error) :
  ((exists m',
      CalcSignatureHash bytes TransactionHashForSigning script hashType tx idx m
      = Some (inl e, m'))
   <->
   CalcSignatureHash bytes TransactionHashForSigning script hashType tx idx m
   = Some (inl e, m)) /\
  (CalcSignatureHash bytes TransactionHashForSigning script hashType tx idx m
   = Some (inl e, m)
   <->
   (Version script > MaxScriptPublicKeyVersion /\
    e = Errorf "Script version is unkown.") \/
   (Version script <= MaxScriptPublicKeyVersion /\
    is_Some (snd (parseScript (Script script))) /\
    e = Errorf "cannot parse output script") \/
   (Version script <= MaxScriptPublicKeyVersion /\
    snd (parseScript (Script script)) = None /\
    Z.land hashType sigHashMask = SigHashSingle /\
    idx >= Z.of_nat (length (Outputs tx)) /\
    e = scriptError ErrInvalidSigHashSingleIndex)).
Proof.
  unfold CalcSignatureHash.
  destruct (Z.gtb_spec (Version script) MaxScriptPublicKeyVersion) as [Hv | Hv].
  { split.
    - split; [intros [m' H]; by injection H as <- <- | by eexists].
    - split.
      + intros H. injection H as <-. left. split; [lia | done].
      + intros [[_ ->] | [(Hle & _) | (Hle & _)]]; [reflexivity | lia | lia]. }
  destruct (parseScript (Script script)) as [pops [pe |]] eqn:Hparse; cbn [snd].
  { split.
    - split; [intros [m' H]; by injection H as <- <- | by eexists].
    - split.
      + intros H. injection H as <-. right. left. split; [lia |]. split; [by eexists | done].
      + intros [[Hgt _] | [(_ & _ & ->) | (_ & Hnone & _)]];
          [lia | reflexivity | discriminate Hnone]. }
  split.
  - split; [| by eexists].
    intros [m' H]. pose proof H as H'.
    apply calcSignatureHash_error in H' as (_ & _ & _ & ->). exact H.
  - split.
    + intros H. apply calcSignatureHash_error in H as (-> & Hm & Hi & _).
      right. right. split; [lia |]. done.
    + intros [[Hgt _] | [(_ & [x Hx] & _) | (_ & _ & Hm & Hi & ->)]];
        [lia | done |].
      unfold calcSignatureHash. rewrite Hm, Z.eqb_refl.
      destruct (Z.geb_spec idx (Z.of_nat (length (Outputs tx)))); [reflexivity | lia].
Qed.

End CopyFacts.
(* ===================================================================== *)
(** * Further properties of the block locator *)
(* ===================================================================== *)
Section LocatorRuns.
Import BlockLocator.
Local Open Scope Z_scope.


(** ** Runs of the locator loop *)

Lemma wfChain_range n : wfChain n -> 0 <= BlueScore n < 2 ^ 64.
Proof. destruct n as [h s p]. simpl. tauto. Qed.

Lemma onChain_refl n : onChain n n.
Proof. destruct n as [h s [p |]]; by left. Qed.

(** On a chain of decreasing blue scores, the selected ancestor at a blue
    score that the bottom of the chain reaches is a node of a blue score
    at most that, on the chain, and at or above every node of the chain
    with such a blue score. *)
Lemma SelectedAncestor_wf n :
  forall t, wfChain n -> bottomBlueScore n <= t ->
    exists n', SelectedAncestor n t = Some n' /\
               wfChain n' /\ bottomBlueScore n' = bottomBlueScore n /\
               BlueScore n' <= t /\ BlueScore n' <= BlueScore n /\
               (BlueScore n <= t -> n' = n) /\
               (forall low, onChain low n -> BlueScore low <= t ->
                            onChain low n').
Proof.
  induction n as [h s | h s p IH] using BlockNode_chain_ind; intros t Hwf Hbot.
  - cbn [SelectedAncestor]. cbn [bottomBlueScore] in Hbot.
    destruct (Z.leb_spec s t); [| lia].
    eexists. split; [reflexivity |].
    split; [exact Hwf |]. split; [reflexivity |].
    split; [exact H |]. split; [lia |]. split; [reflexivity |].
    intros low Hlow _. exact Hlow.
  - cbn [SelectedAncestor]. destruct (Z.leb_spec s t).
    + eexists. split; [reflexivity |].
      split; [exact Hwf |]. split; [reflexivity |].
      split; [exact H |]. split; [lia |]. split; [reflexivity |].
      intros low Hlow _. exact Hlow.
    + destruct Hwf as (Hs & Hlt & Hwfp).
      destruct (IH t Hwfp Hbot) as (n' & Hn' & Hwf' & Hb & Ht & Hle & _ & Hon).
      exists n'. split; [exact Hn' |]. split; [exact Hwf' |].
      split; [exact Hb |]. split; [exact Ht |].
      split; [simpl; lia |]. split; [simpl; lia |].
      intros low [-> | Hlow] Hl; [simpl in Hl; lia |].
      by apply Hon.
Qed.

Lemma onChain_blue_score low n :
  wfChain n -> onChain low n -> BlueScore low <= BlueScore n /\
  (BlueScore n <= BlueScore low -> low = n).
Proof.
  induction n as [h s | h s p IH] using BlockNode_chain_ind; intros Hwf Hon.
  - destruct Hon as [-> | []]. split; [lia | done].
  - destruct Hon as [-> | Hon]; [split; [lia | done] |].
    destruct Hwf as (Hs & Hlt & Hwfp).
    destruct (IH Hwfp Hon) as [Hle _]. simpl. split; [lia |]. lia.
Qed.

Lemma onChain_bottom low n :
  onChain low n -> bottomBlueScore n = bottomBlueScore low.
Proof.
  induction n as [h s | h s p IH] using BlockNode_chain_ind; intros Hon.
  - by destruct Hon as [-> | []].
  - destruct Hon as [-> | Hon]; [done |]. simpl. by apply IH.
Qed.

Lemma bottomBlueScore_le n : wfChain n -> bottomBlueScore n <= BlueScore n.
Proof.
  induction n as [h s | h s p IH] using BlockNode_chain_ind; intros Hwf.
  - simpl. lia.
  - destruct Hwf as (Hs & Hlt & Hwfp). specialize (IH Hwfp). simpl. lia.
Qed.









Lemma wfChain_onChain low n : wfChain n -> onChain low n -> wfChain low.
Proof.
  induction n as [h s | h s p IH] using BlockNode_chain_ind; intros Hwf Hon.
  - by destruct Hon as [-> | []].
  - destruct Hon as [-> | Hon]; [done |].
    destruct Hwf as (_ & _ & Hwfp). by apply IH.
Qed.

(** At a node whose blue score is at most that of the low node the loop
    returns in this iteration. *)
Lemma blockLocatorLoop_at_low lowNode fuel n s loc :
  wfChain n -> BlueScore n <= BlueScore lowNode ->
  exists r,
    blockLocatorLoop (S fuel) lowNode
      {| node := Some n; step := s; locator := loc |} = Some r /\
    (onChain lowNode n -> r = inr (loc ++ [Hash_ n])).
Proof.
  intros Hwf Hle.
  cbn [blockLocatorLoop]. unfold loopBody. cbn [node step locator].
  destruct (Z.leb_spec (BlueScore n) (BlueScore lowNode)) as [_ | Hgt]; [| lia].
  destruct (sameNode n lowNode) eqn:Hsame; cbn [negb].
  - eexists. split; [reflexivity |]. done.
  - eexists. split; [reflexivity |]. intros Hon.
    destruct (onChain_blue_score _ _ Hwf Hon) as [_ Heq].
    rewrite (Heq Hle) in Hsame. unfold sameNode in Hsame.
    by rewrite N.eqb_refl in Hsame.
Qed.

(** A run in which the step never exceeds the distance covered so far
    plus one, from a start whose blue score is at most twice that of the
    low node plus one: no subtraction wraps, every iteration doubles the
    step, and the loop has returned when the step exceeds the distance
    between start and low node. *)
Lemma blockLocatorLoop_upper_half lowNode start :
  wfChain start -> 0 <= BlueScore lowNode ->
  BlueScore start <= 2 * BlueScore lowNode + 1 ->
  forall fuel n s loc,
    wfChain n -> bottomBlueScore n <= BlueScore lowNode ->
    (BlueScore lowNode < BlueScore n ->
     1 <= s <= BlueScore start - BlueScore n + 1) ->
    BlueScore start - BlueScore lowNode < s * 2 ^ Z.of_nat fuel ->
    exists r,
      blockLocatorLoop (S fuel) lowNode
        {| node := Some n; step := s; locator := loc |} = Some r /\
      (onChain lowNode n -> exists loc', r = inr loc').
Proof.
  intros Hstart Hlow0 Hhalf. pose proof (wfChain_range _ Hstart) as Hsr.
  induction fuel as [| fuel IH]; intros n s loc Hwf Hbot Hs Hfuel.
  - destruct (Z.le_gt_cases (BlueScore n) (BlueScore lowNode)) as [Hle | Hgt].
    + destruct (blockLocatorLoop_at_low lowNode 0 n s loc Hwf Hle) as (r & Hr & Hinr).
      exists r. split; [exact Hr |]. intros Hon. eexists. by apply Hinr.
    + specialize (Hs Hgt). simpl in Hfuel. lia.
  - destruct (Z.le_gt_cases (BlueScore n) (BlueScore lowNode)) as [Hle | Hgt].
    { destruct (blockLocatorLoop_at_low lowNode (S fuel) n s loc Hwf Hle)
        as (r & Hr & Hinr).
      exists r. split; [exact Hr |]. intros Hon. eexists. by apply Hinr. }
    cbn [blockLocatorLoop]. unfold loopBody. cbn [node step locator].
    destruct (Z.leb_spec (BlueScore n) (BlueScore lowNode)) as [Hle | _]; [lia |].
    specialize (Hs Hgt).
    assert (Hw : wrap64 (BlueScore n - s) = BlueScore n - s).
    { unfold wrap64. apply Z.mod_small. lia. }
    rewrite Hw.
    set (next := if BlueScore n - s <? BlueScore lowNode
                 then BlueScore lowNode else BlueScore n - s).
    assert (Hnext : BlueScore lowNode <= next /\ next < BlueScore n /\
                    (BlueScore lowNode < next -> next = BlueScore n - s)).
    { subst next. destruct (Z.ltb_spec (BlueScore n - s) (BlueScore lowNode)); lia. }
    destruct Hnext as (Hn1 & Hn2 & Hn3).
    destruct (SelectedAncestor_wf n next Hwf ltac:(lia))
      as (n' & Hn' & Hwf' & Hb' & Ht' & _ & _ & Hon').
    rewrite Hn'.
    destruct (Z.le_gt_cases (BlueScore n') (BlueScore lowNode)) as [Hdone | Hmore].
    + destruct (blockLocatorLoop_at_low lowNode fuel n' (wrap64 (s * 2))
                  (loc ++ [Hash_ n]) Hwf' Hdone) as (r & Hr & Hinr).
      exists r. split; [exact Hr |]. intros Hon. eexists. by apply Hinr, Hon'.
    + assert (Hw2 : wrap64 (s * 2) = s * 2).
      { unfold wrap64. apply Z.mod_small. lia. }
      rewrite Hw2.
      destruct (IH n' (s * 2) (loc ++ [Hash_ n]) Hwf' ltac:(lia)) as (r & Hr & Hinr).
      * intros _. lia.
      * rewrite Nat2Z.inj_succ, Z.pow_succ_r in Hfuel by lia. lia.
      * exists r. split; [exact Hr |]. intros Hon. by apply Hinr, Hon'.
Qed.

(** ** Properties of [blockLocator] beyond the claims *)



(** When the low node is on the selected-parent chain of the high node and
    the blue score of the selected parent of the high node is at most
    twice that of the low node plus one, [blockLocator] returns, within 65
    iterations, a locator from the selected parent of the high node to
    the low node. *)
Theorem blockLocator_upper_half (fuel : nat) (highNode lowNode p : BlockNode) :
  SelectedParent highNode = Some p ->
  wfChain p ->
  onChain lowNode p ->
  BlueScore p <= 2 * BlueScore lowNode + 1 ->
  (65 <= fuel)%nat ->
  exists mid,
    blockLocator fuel highNode lowNode = Some (inr (Hash_ p :: mid)) /\
    last (Hash_ p :: mid) = Some (Hash_ lowNode).
Proof.
  intros Hp Hwf Hon Hhalf Hfuel.
  pose proof (wfChain_range _ Hwf) as Hpr.
  pose proof (wfChain_range _ (wfChain_onChain _ _ Hwf Hon)) as Hlr.
  assert (Hbot : bottomBlueScore p <= BlueScore lowNode).
  { rewrite (onChain_bottom _ _ Hon).
    apply bottomBlueScore_le. by eapply wfChain_onChain. }
  destruct fuel as [| fuel]; [lia |].
  destruct (blockLocatorLoop_upper_half lowNode p Hwf ltac:(lia) Hhalf
              fuel p 1 [] Hwf Hbot ltac:(lia)) as (r & Hr & Hinr).
  { assert (2 ^ 64 <= 2 ^ Z.of_nat fuel) by (apply Z.pow_le_mono_r; lia). lia. }
  destruct (Hinr Hon) as [loc ->].
  unfold blockLocator, initialState. rewrite Hp.
  pose proof (blockLocatorLoop_result lowNode (S fuel)
                {| node := Some p; step := 1; locator := [] |} p _
                eq_refl Hbot Hr) as (mid & Hloc & Hlast & _).
  simpl in Hloc. subst loc. exists mid. by rewrite Hr.
Qed.

Lemma blockLocator_upper_half_witness :
  exists mid,
    blockLocator 65 (chainNode 17) (chainNode 8)
      = Some (inr (Hash_ (chainNode 16) :: mid)) /\
    last (Hash_ (chainNode 16) :: mid) = Some (Hash_ (chainNode 8)).
Proof.
  apply (blockLocator_upper_half 65 (chainNode 17) (chainNode 8) (chainNode 16)).
  - reflexivity.
  - vm_compute. intuition discriminate.
  - vm_compute. tauto.
  - vm_compute. discriminate.
  - lia.
Defined.


(** The edges of [blockLocator]: a high node without a selected parent
    gives the empty locator; when the selected parent of the high node is
    the low node the locator is that one hash; when its blue score is at
    most that of another low node, in particular when the low node is the
    high node itself, the call fails. [BlockLocatorFromHashes] looks up
    the high hash first and fails on the first hash that is unknown. *)
Theorem blockLocator_edges (fuel : nat) (highNode lowNode : BlockNode) :
  (SelectedParent highNode = None ->
   blockLocator (S fuel) highNode lowNode = Some (inr [])) /\
  (forall p, SelectedParent highNode = Some p ->
     BlueScore p <= BlueScore lowNode ->
     blockLocator (S fuel) highNode lowNode
       = Some (if sameNode p lowNode then inr [Hash_ p]
               else inl ErrNotInSameSelectedParentChain)) /\
  (forall p, SelectedParent highNode = Some p ->
     BlueScore p < BlueScore highNode -> Hash_ p <> Hash_ highNode ->
     blockLocator (S fuel) highNode highNode
       = Some (inl ErrNotInSameSelectedParentChain)) /\
  (forall blockNodeStore highHash lowHash,
     blockNodeStore !! highHash = None ->
     BlockLocatorFromHashes fuel blockNodeStore highHash lowHash
       = Some (inl (ErrUnknownBlock highHash))) /\
  (forall blockNodeStore highHash lowHash,
     is_Some (blockNodeStore !! highHash) ->
     blockNodeStore !! lowHash = None ->
     BlockLocatorFromHashes fuel blockNodeStore highHash lowHash
       = Some (inl (ErrUnknownBlock lowHash))).
Proof.
  assert (Hlow : forall low p, SelectedParent highNode = Some p ->
     BlueScore p <= BlueScore low ->
     blockLocator (S fuel) highNode low
       = Some (if sameNode p low then inr [Hash_ p]
               else inl ErrNotInSameSelectedParentChain)).
  { intros low p Hp Hle. unfold blockLocator, initialState. rewrite Hp.
    cbn [blockLocatorLoop]. unfold loopBody. cbn [node step locator].
    destruct (Z.leb_spec (BlueScore p) (BlueScore low)); [| lia].
    by destruct (sameNode p low). }
  split.
  { intros Hp. unfold blockLocator, initialState. by rewrite Hp. }
  split; [apply Hlow |].
  split.
  { intros p Hp Hlt Hne. rewrite (Hlow highNode p Hp) by lia.
    unfold sameNode. by apply N.eqb_neq in Hne as ->. }
  split.
  - intros store hh lh Hh. unfold BlockLocatorFromHashes. by rewrite Hh.
  - intros store hh lh [n Hh] Hl. unfold BlockLocatorFromHashes.
    by rewrite Hh, Hl.
Qed.

(** [FindNextLocatorBoundaries] never indexes the locator out of range:
    the only call that fails is the one in which neither genesis nor any
    hash of the locator is in the store, where [lowNode] is nil. *)
Theorem FindNextLocatorBoundaries_fails_iff
    (blockNodeStore : gmap Hash BlockNode) (GenesisHash : Hash)
    (locator : list Hash) :
  FindNextLocatorBoundaries blockNodeStore GenesisHash locator = None <->
  blockNodeStore !! GenesisHash = None /\
  forall h, In h locator -> blockNodeStore !! h = None.
Proof.
  unfold FindNextLocatorBoundaries.
  destruct (firstKnown blockNodeStore locator 0) as [[j n] |] eqn:Hfk.
  - destruct (firstKnown_Some _ _ _ _ _ Hfk) as (k & h & -> & Hk & Hn & Hpre).
    split.
    + destruct (Z.ltb_spec (0 + Z.of_nat k - 1) 0); [done |].
      replace (Z.to_nat (0 + Z.of_nat k - 1)) with (k - 1)%nat by lia.
      assert (Hlt : (k - 1 < length locator)%nat).
      { apply lookup_lt_Some in Hk. lia. }
      destruct (lookup_lt_is_Some_2 locator _ Hlt) as [hk Hhk].
      by rewrite Hhk.
    + intros [_ Hall]. apply list_elem_of_lookup_2, list_elem_of_In in Hk.
      rewrite (Hall _ Hk) in Hn. discriminate Hn.
  - rewrite firstKnown_None in Hfk.
    destruct (blockNodeStore !! GenesisHash) as [g |] eqn:Hg.
    + split; [| by intros [? _]].
      destruct (Z.ltb_spec (Z.of_nat (length locator) - 1) 0) as [Hlt | Hge];
        [done |].
      assert (Hl : (Z.to_nat (Z.of_nat (length locator) - 1) < length locator)%nat)
        by lia.
      destruct (lookup_lt_is_Some_2 locator _ Hl) as [hl Hhl].
      by rewrite Hhl.
    + done.
Qed.

End LocatorRuns.
(* ===================================================================== *)
(** * Further properties of the iterator with diff *)
(* ===================================================================== *)
Section IteratorFacts.
Import Utxo.
Local Open Scope Z_scope.

(** ** Properties of the iterator with diff beyond the claims *)

(** When [Next] returns true, [Get] returns a pair: either a pair of the
    base that [toRemove] does not hold with its blue score, before which
    the base held only pairs that it does, or, the base being exhausted of
    such pairs, the next pair of the iterator over [toAdd]. *)
Theorem Next_true_Get (r r' : readOnlyUTXOIteratorWithDiff) :
  Next r = (true, r') ->
  exists p, Get r' = Some p /\ diff r' = diff r /\
    ((exists skipped,
        remaining (baseIterator r)
          = skipped ++ p :: remaining (baseIterator r') /\
        List.filter (keptByNext (diff r)) skipped = [] /\
        keptByNext (diff r) p = true /\
        toAddIterator r' = toAddIterator r)
     \/
     (List.filter (keptByNext (diff r)) (remaining (baseIterator r)) = [] /\
      remaining (baseIterator r') = [] /\
      remaining (toAddIterator r) = p :: remaining (toAddIterator r'))).
Proof.
  unfold Next. intros Hnext.
  pose proof (nextFromBase_spec (diff r) (remaining (baseIterator r))
                (currentPair r)) as Hspec.
  destruct (nextFromBase (toRemove (diff r)) (remaining (baseIterator r))
              (currentPair r)) as [[[|] c] cur'].
  - destruct Hspec as (skipped & x & Hbase & Hs & Hx & ->).
    injection Hnext as <-. exists x. split; [done |]. split; [done |].
    left. exists skipped. done.
  - destruct Hspec as [Hrest Hnone].
    unfold cursorNext in Hnext.
    destruct (remaining (toAddIterator r)) as [| y ta'] eqn:Hta;
      [discriminate Hnext |].
    injection Hnext as <-. exists y. split; [done |]. split; [done |].
    right. done.
Qed.

Lemma Next_true_Get_witness :
  let o1 := (1%N, 0) in
  let e5 := mkUTXOEntry 10 [] 5 false in
  let e7 := mkUTXOEntry 10 [] 7 false in
  let d := mkUtxoDiff (<[(9%N, 0) := e5]> ∅) (<[o1 := e7]> ∅) in
  let r := mkIteratorWithDiff (mkCursor [(o1, e7); ((2%N, 0), e5)] None) d None
             (collectionIterator (toAdd d)) in
  exists p, Get (snd (Next r)) = Some p /\ p = ((2%N, 0), e5).
Proof.
  intros o1 e5 e7 d r.
  destruct (Next_true_Get r (snd (Next r))) as (p & Hp & _ & Hcase).
  - vm_compute. reflexivity.
  - exists p. split; [exact Hp |]. vm_compute in Hp.
    injection Hp as <-. reflexivity.
Defined.

(** When [Next] returns false the base and the iterator over [toAdd] are
    exhausted, and every later call returns false and changes nothing.
    [Get] then returns what the loop over the base read last, which is a
    pair that [toRemove] holds, if that loop read any in the call. *)
Theorem Next_false_is_final (r r' : readOnlyUTXOIteratorWithDiff) :
  Next r = (false, r') ->
  remaining (baseIterator r') = [] /\
  remaining (toAddIterator r') = [] /\
  List.filter (keptByNext (diff r)) (remaining (baseIterator r)) = [] /\
  remaining (toAddIterator r) = [] /\
  Get r' = last (currentPair r :: map Some (remaining (baseIterator r)))
             ≫= id /\
  Next r' = (false, r').
Proof.
  unfold Next. intros Hnext.
  pose proof (nextFromBase_spec (diff r) (remaining (baseIterator r))
                (currentPair r)) as Hspec.
  assert (Hlast : forall base cur,
            let '(_, c, cur') := nextFromBase (toRemove (diff r)) base cur in
            fst (fst (nextFromBase (toRemove (diff r)) base cur)) = false ->
            c = mkCursor [] cur' /\
            cur' = last (cur :: map Some base) ≫= id).
  { induction base as [| x rest IH]; intros cur; simpl; [done |].
    destruct (negb _); [done |].
    specialize (IH (Some x)).
    destruct (nextFromBase (toRemove (diff r)) rest (Some x)) as [[b c] cur'].
    intros Hb. destruct (IH Hb) as [-> ->]. split; [done |].
    by destruct rest. }
  specialize (Hlast (remaining (baseIterator r)) (currentPair r)).
  destruct (nextFromBase (toRemove (diff r)) (remaining (baseIterator r))
              (currentPair r)) as [[[|] c] cur']; [discriminate Hnext |].
  destruct Hspec as [Hrest Hnone]. destruct (Hlast eq_refl) as [-> ->].
  unfold cursorNext in Hnext.
  destruct (remaining (toAddIterator r)) as [| y ta'] eqn:Hta;
    [| discriminate Hnext].
  injection Hnext as <-. cbn [baseIterator toAddIterator remaining diff currentPair].
  split; [done |]. split; [done |]. split; [done |]. split; [done |].
  split; [done |].
  unfold Get. cbn [currentPair nextFromBase]. unfold cursorNext. by rewrite Hta.
Qed.

Lemma Next_false_is_final_witness :
  let o1 := (1%N, 0) in
  let e7 := mkUTXOEntry 10 [] 7 false in
  let d := mkUtxoDiff ∅ (<[o1 := e7]> ∅) in
  let r := mkIteratorWithDiff (mkCursor [(o1, e7)] None) d None
             (collectionIterator (toAdd d)) in
  Get (snd (Next r)) = Some (o1, e7) /\
  Next (snd (Next r)) = (false, snd (Next r)).
Proof.
  intros o1 e7 d r.
  destruct (Next_false_is_final r (snd (Next r))) as (_ & _ & _ & _ & Hget & Hnext).
  - vm_compute. reflexivity.
  - split; [| exact Hnext]. rewrite Hget. vm_compute. reflexivity.
Defined.

(** [IteratorWithDiff] over an iterator with diff, whatever that iterator
    has yielded already: it fails when the diffs do not compose, and
    otherwise gives an iterator that yields what is left of the base of
    that iterator, filtered by the composed diff, and then the pairs of
    [toAdd] of the composed diff, all of them. *)
Theorem IteratorWithDiff_over_iterator_with_diff
    (WithDiff : utxoDiff -> utxoDiff -> option utxoDiff)
    (r : readOnlyUTXOIteratorWithDiff) (d : utxoDiff) :
  match WithDiff (diff r) d with
  | None => IteratorWithDiff WithDiff (DiffIterator r) d = None
  | Some combined =>
      exists r',
        IteratorWithDiff WithDiff (DiffIterator r) d = Some r' /\
        baseIterator r' = baseIterator r /\
        forall fuel,
          (length (remaining (baseIterator r)) + size (toAdd combined) < fuel)%nat ->
          drain fuel r'
          = Some (List.filter (keptByNext combined) (remaining (baseIterator r))
                  ++ map_to_list (toAdd combined))
  end.
Proof.
  cbn [IteratorWithDiff].
  destruct (WithDiff (diff r) d) as [combined |]; [| done].
  eexists. split; [reflexivity |]. split; [reflexivity |].
  intros fuel Hfuel. destruct (baseIterator r) as [base cb].
  unfold collectionIterator. apply drain_base_then_toAdd.
  by rewrite length_map_to_list.
Qed.

(** With an empty [toRemove] no pair of the base is skipped, and with an
    empty diff the iterator yields the base as it is. *)
Theorem IteratorWithDiff_empty_toRemove
    (WithDiff : utxoDiff -> utxoDiff -> option utxoDiff)
    (base : list (DomainOutpoint * UTXOEntry))
    (cur : option (DomainOutpoint * UTXOEntry))
    (added : gmap DomainOutpoint UTXOEntry) (fuel : nat) :
  (length base + size added < fuel)%nat ->
  exists r,
    IteratorWithDiff WithDiff (PlainIterator (mkCursor base cur))
      (mkUtxoDiff added ∅) = Some r /\
    drain fuel r = Some (base ++ map_to_list added) /\
    (added = ∅ -> drain fuel r = Some base).
Proof.
  intros Hfuel. eexists. split; [reflexivity |].
  assert (Hall : List.filter (keptByNext (mkUtxoDiff added ∅)) base = base).
  { clear. induction base as [| x rest IH]; [done |]. simpl.
    unfold keptByNext at 1, containsWithBlueScore. cbn [toRemove].
    rewrite lookup_empty. simpl. by rewrite IH. }
  assert (Hd : drain fuel
                 {| baseIterator := mkCursor base cur;
                    diff := mkUtxoDiff added ∅;
                    currentPair := None;
                    toAddIterator := collectionIterator (toAdd (mkUtxoDiff added ∅)) |}
               = Some (base ++ map_to_list added)).
  { unfold collectionIterator. rewrite drain_base_then_toAdd.
    - by rewrite Hall.
    - by rewrite length_map_to_list. }
  split; [exact Hd |].
  intros ->. rewrite Hd. by rewrite map_to_list_empty, app_nil_r.
Qed.

Lemma IteratorWithDiff_empty_toRemove_witness :
  let base := [((1%N, 0), mkUTXOEntry 10 [] 5 false)] in
  exists r,
    IteratorWithDiff noWithDiff (PlainIterator (mkCursor base None))
      (mkUtxoDiff ∅ ∅) = Some r /\
    drain 2 r = Some base.
Proof.
  intros base.
  destruct (IteratorWithDiff_empty_toRemove noWithDiff base None ∅ 2)
    as (r & Hr & _ & Hd).
  - vm_compute. lia.
  - exists r. split; [exact Hr |]. by apply Hd.
Defined.

End IteratorFacts.
(* ===================================================================== *)
(** * Properties of the topology manager of the tests *)
(* ===================================================================== *)
Section TopologyFacts.
Import Ghostdag.
Local Open Scope Z_scope.


(** ** The topology manager of [TestGHOSTDA] *)

(** The second loop of [IsAncestorOf], given what the nested calls
    return. *)
Lemma IsAncestorOf_loop (call : Hash -> option bool) (ps : list Hash) (b : bool) :
  (fix loop (rest : list Hash) : option bool :=
     match rest with
     | [] => Some false
     | parentOfB :: rest' =>
         match call parentOfB with
         | None => None
         | Some true => Some true
         | Some false => loop rest'
         end
     end) ps = Some b ->
  if b then exists p, In p ps /\ call p = Some true
  else forall p, In p ps -> call p = Some false.
Proof.
  induction ps as [| p ps IH]; intros H.
  - injection H as <-. intros p [].
  - destruct (call p) as [[|] |] eqn:Hp; [| | done].
    + injection H as <-. exists p. split; [by left | done].
    + specialize (IH H). destruct b.
      * destruct IH as (q & Hq & Hc). exists q. split; [by right | done].
      * intros q [<- | Hq]; [done | by apply IH].
Qed.

Lemma IsAncestorOf_loop_is_Some (call : Hash -> option bool) (ps : list Hash) :
  (forall p, In p ps -> is_Some (call p)) ->
  is_Some ((fix loop (rest : list Hash) : option bool :=
     match rest with
     | [] => Some false
     | parentOfB :: rest' =>
         match call parentOfB with
         | None => None
         | Some true => Some true
         | Some false => loop rest'
         end
     end) ps).
Proof.
  induction ps as [| p ps IH]; intros H; [by eexists |].
  destruct (H p (or_introl eq_refl)) as [[|] ->]; [by eexists |].
  apply IH. intros q Hq. apply H. by right.
Qed.

Lemma IsAncestorOf_sound fuel parentsMap a :
  forall b r, IsAncestorOf fuel parentsMap a b = Some r ->
              (r = true <-> ancestor parentsMap a b).
Proof.
  induction fuel as [| fuel IH]; intros b r H; [done |].
  cbn [IsAncestorOf] in H.
  destruct (parentsMap !! b) as [ps |] eqn:Hps.
  - destruct (existsb (fun parentOfB => (parentOfB =? a)%N) ps) eqn:Hex.
    + injection H as <-. split; [intros _ | done].
      apply existsb_exists in Hex as (p & Hp & Heq). apply N.eqb_eq in Heq as ->.
      by eapply ancestor_parent.
    + apply IsAncestorOf_loop in H. destruct r.
      * destruct H as (p & Hp & Hc). split; [intros _ | done].
        eapply ancestor_step; [exact Hps | exact Hp |]. by apply (IH p true).
      * split; [done |]. intros Hanc. exfalso.
        inversion Hanc as [b' ps' Hps' Hin | b' ps' p Hps' Hin Hrec]; subst;
          rewrite Hps in Hps'; injection Hps' as <-.
        -- assert (existsb (fun parentOfB => (parentOfB =? a)%N) ps = true);
             [| congruence].
           apply existsb_exists. exists a. split; [done | apply N.eqb_refl].
        -- specialize (H p Hin). apply (IH p false) in H.
           destruct H as [_ H]. by specialize (H Hrec).
  - injection H as <-. split; [done |]. intros Hanc.
    inversion Hanc; congruence.
Qed.

(** [IsAncestorOf] decides whether a path of parent links leads from the
    second block to the first, in every parents map whose links go down
    in some rank (a DAG): the recursion ends within as many nested calls
    as the rank of the second block plus one. So no block of such a map
    is an ancestor of itself, and a block absent from the map has no
    ancestors. *)
Theorem IsAncestorOf_decides_ancestor
    (parentsMap : gmap Hash (list Hash)) (rank : Hash -> nat)
    (fuel : nat) (hashBlockA hashBlockB : Hash) :
  (forall b ps p, parentsMap !! b = Some ps -> In p ps -> (rank p < rank b)%nat) ->
  (rank hashBlockB < fuel)%nat ->
  exists r,
    IsAncestorOf fuel parentsMap hashBlockA hashBlockB = Some r /\
    (r = true <-> ancestor parentsMap hashBlockA hashBlockB) /\
    (hashBlockA = hashBlockB -> r = false) /\
    (parentsMap !! hashBlockB = None -> r = false).
Proof.
  intros Hrank Hfuel.
  assert (Hsome : forall fuel b, (rank b < fuel)%nat ->
            is_Some (IsAncestorOf fuel parentsMap hashBlockA b)).
  { clear fuel Hfuel. induction fuel as [| fuel IH]; intros b Hb; [lia |].
    cbn [IsAncestorOf].
    destruct (parentsMap !! b) as [ps |] eqn:Hps; [| by eexists].
    destruct (existsb _ ps); [by eexists |].
    apply IsAncestorOf_loop_is_Some. intros p Hp. apply IH.
    specialize (Hrank b ps p Hps Hp). lia. }
  assert (Hdown : forall a b, ancestor parentsMap a b -> (rank a < rank b)%nat).
  { intros a b Hanc. induction Hanc as [b ps Hps Hin | b ps p Hps Hin _ IH].
    - by eapply Hrank.
    - specialize (Hrank b ps p Hps Hin). lia. }
  destruct (Hsome fuel hashBlockB Hfuel) as [r Hr]. exists r.
  pose proof (IsAncestorOf_sound _ _ _ _ _ Hr) as Hiff.
  split; [exact Hr |]. split; [exact Hiff |]. split.
  - intros ->. destruct r; [| done].
    destruct Hiff as [Hanc _]. specialize (Hdown _ _ (Hanc eq_refl)). lia.
  - intros Hnone. destruct r; [| done].
    destruct Hiff as [Hanc _]. specialize (Hanc eq_refl).
    inversion Hanc; congruence.
Qed.

(** The parents of the blocks of test 4: blocks 1 and 3 on genesis,
    block 2 on block 1, block 4 on blocks 2 and 3. *)
Lemma IsAncestorOf_decides_ancestor_witness :
  let parentsMap : gmap Hash (list Hash) :=
    <[blk 4 := [blk 2; blk 3]]> (<[blk 3 := [genesisHash]]>
    (<[blk 2 := [blk 1]]> (<[blk 1 := [genesisHash]]> initialParentsMap))) in
  IsAncestorOf 5 parentsMap (blk 1) (blk 4) = Some true /\
  ancestor parentsMap (blk 1) (blk 4).
Proof.
  intros parentsMap.
  destruct (IsAncestorOf_decides_ancestor parentsMap
              (fun h => N.to_nat (h / 2 ^ 248)) 5 (blk 1) (blk 4))
    as (r & Hr & Hiff & _).
  - intros b ps p Hps Hin. subst parentsMap. unfold initialParentsMap in Hps.
    repeat (apply lookup_insert_Some in Hps as [[<- <-] | [_ Hps]];
            [repeat (destruct Hin as [<- | Hin]; [vm_compute; lia |]);
             destruct Hin |]).
    by rewrite lookup_empty in Hps.
  - vm_compute. lia.
  - assert (Hrun : IsAncestorOf 5 parentsMap (blk 1) (blk 4) = Some true)
      by (vm_compute; reflexivity).
    split; [exact Hrun |]. apply Hiff. rewrite Hrun in Hr. by injection Hr as <-.
Defined.

End TopologyFacts.
(* ===================================================================== *)
(** * Properties of the store of the headers selected tip                 *)
(* ===================================================================== *)
Section HeadersSelectedTipStoreFacts.
Import HeadersSelectedTipStore.
Local Open Scope Z_scope.

Variable DB : Type.
Variable dbHas : DB -> string + bool.
Variable dbGet : DB -> string + list Z.
Variable dbPut : DB -> list Z -> string + DB.
Variable serializeHeadersSelectedTip : Hash -> string + list Z.
Variable deserializeHeadersSelectedTip : list Z -> string + Hash.

(** What is put can be got. *)
Hypothesis get_put : forall db selectedTipBytes db',
  dbPut db selectedTipBytes = inr db' ->
  dbGet db' = inr selectedTipBytes /\ dbHas db' = inr true.

(** What is serialized deserializes to itself. *)
Hypothesis deserialize_serialize : forall tip selectedTipBytes,
  serializeHeadersSelectedTip tip = inr selectedTipBytes ->
  deserializeHeadersSelectedTip selectedTipBytes = inr tip.

(** A tip that was staged and committed without an error is no longer
    staged, is what the store returns from then on without reading the
    database, and is what a new store reads from the database, caches
    and returns. *)
Theorem Commit_then_HeadersSelectedTip
    (hts hts' : headerSelectedTipStore) (tip : Hash) (db db' other : DB) :
  Commit DB dbPut serializeHeadersSelectedTip (Stage hts (Some tip)) db
    = (None, hts', db') ->
  IsStaged hts' = false /\
  hts' = mkStore None (Some tip) /\
  HeadersSelectedTip DB dbGet deserializeHeadersSelectedTip hts' other
    = (inr tip, hts') /\
  Has DB dbHas hts' other = inr true /\
  HeadersSelectedTip DB dbGet deserializeHeadersSelectedTip New db'
    = (inr tip, mkStore None (Some tip)) /\
  Has DB dbHas New db' = inr true.
Proof.
  unfold Commit, Stage. cbn [staging cache].
  destruct (serializeHeadersSelectedTip tip) as [e | bytes] eqn:Hser; [done |].
  destruct (dbPut db bytes) as [e | db1] eqn:Hput; [done |].
  intros H. injection H as <- <-.
  destruct (get_put _ _ _ Hput) as [Hget Hhas].
  split; [done |]. split; [done |]. split; [done |]. split; [done |].
  unfold HeadersSelectedTip, Has, New. cbn [staging cache].
  by rewrite Hget, (deserialize_serialize _ _ Hser), Hhas.
Qed.

(** The cache never changes what is read: while a cached tip is what the
    bytes in the database deserialize to, a store with nothing staged
    returns what a new store would read from the database; staging,
    discarding and reading keep the cache in agreement with the
    database, and so does a commit, with the database it has written
    to. A staged tip is returned whatever the cache and the database
    hold. *)
Theorem cache_is_transparent (hts : headerSelectedTipStore) (db : DB) :
  cacheCoherent DB dbGet deserializeHeadersSelectedTip hts db ->
  (staging hts = None ->
   fst (HeadersSelectedTip DB dbGet deserializeHeadersSelectedTip hts db)
   = fst (HeadersSelectedTip DB dbGet deserializeHeadersSelectedTip New db)) /\
  (forall tip,
     fst (HeadersSelectedTip DB dbGet deserializeHeadersSelectedTip
            (Stage hts (Some tip)) db) = inr tip) /\
  (forall selectedTip,
     cacheCoherent DB dbGet deserializeHeadersSelectedTip
       (Stage hts selectedTip) db) /\
  cacheCoherent DB dbGet deserializeHeadersSelectedTip (Discard hts) db /\
  cacheCoherent DB dbGet deserializeHeadersSelectedTip
    (snd (HeadersSelectedTip DB dbGet deserializeHeadersSelectedTip hts db)) db /\
  (forall hts' db',
     Commit DB dbPut serializeHeadersSelectedTip hts db = (None, hts', db') ->
     cacheCoherent DB dbGet deserializeHeadersSelectedTip hts' db').
Proof.
  intros Hco. split.
  { intros Hst. unfold HeadersSelectedTip, New. rewrite Hst. cbn [staging cache].
    destruct (cache hts) as [tip |] eqn:Hc.
    - destruct (Hco tip Hc) as (bytes & -> & ->). done.
    - destruct (dbGet db) as [e | bytes]; [done |].
      by destruct (deserializeHeadersSelectedTip bytes). }
  split; [done |].
  split; [intros selectedTip tip Hc; by apply Hco |].
  split; [intros tip Hc; by apply Hco |].
  split.
  { unfold HeadersSelectedTip.
    destruct (staging hts); [done |].
    destruct (cache hts) eqn:Hc; [done |].
    destruct (dbGet db) as [e | bytes] eqn:Hget; [done |].
    destruct (deserializeHeadersSelectedTip bytes) as [e | tip] eqn:Hde; [done |].
    intros tip' Htip. cbn [snd cache] in Htip. injection Htip as <-.
    by exists bytes. }
  intros hts' db'. unfold Commit.
  destruct (staging hts) as [tip |] eqn:Hst.
  - destruct (serializeHeadersSelectedTip tip) as [e | bytes] eqn:Hser; [done |].
    destruct (dbPut db bytes) as [e | db1] eqn:Hput; [done |].
    intros H. injection H as <- <-.
    destruct (get_put _ _ _ Hput) as [Hget _].
    intros tip' Htip. cbn [Discard cache] in Htip. injection Htip as <-.
    exists bytes. split; [done |]. by apply deserialize_serialize.
  - intros H. by injection H as <- <-.
Qed.

End HeadersSelectedTipStoreFacts.

Section HeadersSelectedTipStoreExamples.
Import HeadersSelectedTipStore.
Local Open Scope Z_scope.

Lemma Commit_then_HeadersSelectedTip_witness :
  HeadersSelectedTip (option (list Z)) exampleGet exampleDeserialize New
    (Some [7])
  = (inr 7%N, mkStore None (Some 7%N)).
Proof.
  apply (Commit_then_HeadersSelectedTip (option (list Z)) exampleHas exampleGet
           examplePut exampleSerialize exampleDeserialize
           ltac:(intros db b db' H; injection H as <-; done)
           ltac:(intros tip b H; injection H as <-; simpl; by rewrite N2Z.id)
           New (mkStore None (Some 7%N)) 7%N None (Some [7]) None).
  reflexivity.
Defined.

Lemma cache_is_transparent_witness :
  fst (HeadersSelectedTip (option (list Z)) exampleGet exampleDeserialize
         (mkStore None (Some 7%N)) (Some [7]))
  = fst (HeadersSelectedTip (option (list Z)) exampleGet exampleDeserialize
           New (Some [7])).
Proof.
  destruct (cache_is_transparent (option (list Z)) exampleHas exampleGet
              examplePut exampleSerialize exampleDeserialize
              ltac:(intros db b db' H; injection H as <-; done)
              ltac:(intros tip b H; injection H as <-; simpl; by rewrite N2Z.id)
              (mkStore None (Some 7%N)) (Some [7])) as [Hread _].
  - intros tip H. injection H as <-. by exists [7].
  - apply Hread. reflexivity.
Defined.

End HeadersSelectedTipStoreExamples.

(* ===================================================================== *)
(** * Properties of the multiset store                                    *)
(* ===================================================================== *)
Section MultisetStoreFacts.
Import Multiset.
Local Open Scope Z_scope.

Variable MultiSet : Type.
Variable serializeMultiset : MultiSet -> string + list Z.
Variable deserializeMultiset : list Z -> string + MultiSet.




(** The loop refuses to override only what was in the database when it
    started, and leaves the database a superset of it. *)
Lemma flushLoop_error (store : MultisetStore MultiSet) (hashes : list Hash) :
  forall db db' e,
    NoDup hashes ->
    flushLoop MultiSet serializeMultiset store hashes db = (Some e, db') ->
    (forall h, e = ErrCantOverride h -> h ∈ hashes /\ is_Some (db !! h)) /\
    (forall h, e = multisetNotFoundError h ->
               h ∈ hashes /\ loaded _ store !! h = None).
Proof.
  induction hashes as [| h rest IH]; intros db db' e Hnd Hrun; [done |].
  apply NoDup_cons in Hnd as [Hh Hnd]. cbn [flushLoop] in Hrun.
  destruct (loaded _ store !! h) as [ms |] eqn:Hms.
  - destruct (serializeMultiset ms) as [err | bytes] eqn:Hser.
    { injection Hrun as <- <-. by split. }
    unfold storeMultiset, HasMultiset, StoreMultiset in Hrun.
    destruct (db !! h) eqn:Hdb.
    + injection Hrun as <- <-. split; [| done].
      intros h' Heq. injection Heq as <-. split; [by left | by eexists].
    + destruct (IH _ _ _ Hnd Hrun) as [Hover Hnot]. split.
      * intros h' ->. destruct (Hover h' eq_refl) as [Hin [v Hv]].
        split; [by right |].
        rewrite lookup_insert_ne in Hv; [by eexists |]. by intros ->.
      * intros h' ->. destruct (Hnot h' eq_refl). split; [by right | done].
  - injection Hrun as <- <-. split; [done |].
    intros h' Heq. injection Heq as <-. split; [by left | done].
Qed.

Lemma order_facts (store : MultisetStore MultiSet) (order : list Hash) :
  order ≡ₚ elements (new _ store) ->
  NoDup order /\ forall h, h ∈ order <-> h ∈ new _ store.
Proof.
  intros Hperm. split.
  - rewrite Hperm. apply NoDup_elements.
  - intros h. rewrite Hperm. apply elem_of_elements.
Qed.




Lemma FlushToDB_error (order : list Hash) (store : MultisetStore MultiSet) (db db' : Database) e :
  order ≡ₚ elements (new _ store) ->
  FlushToDB MultiSet serializeMultiset order store db = (Some e, db') ->
  (forall h, e = ErrCantOverride h -> h ∈ new _ store /\ is_Some (db !! h)) /\
  (forall h, e = multisetNotFoundError h ->
             h ∈ new _ store /\ loaded _ store !! h = None).
Proof.
  intros Hperm. destruct (order_facts _ _ Hperm) as [Hnd Hin].
  unfold FlushToDB.
  destruct (size (new _ store) =? 0)%nat; [done |].
  intros Hrun. destruct (flushLoop_error _ _ _ _ _ Hnd Hrun) as [Hover Hnot].
  split.
  - intros h ->. destruct (Hover h eq_refl). split; [by apply Hin | done].
  - intros h ->. destruct (Hnot h eq_refl). split; [by apply Hin | done].
Qed.

(** ** Properties of the store *)





(** Every new hash has its multiset loaded, from a new store on and after
    every operation; hence [FlushToDB] never fails to find the multiset
    of a new hash. What [SetMultiset] sets for a node is what
    [MultisetByBlockNode] returns for it, and the other nodes are as they
    were. *)
Theorem new_entries_are_loaded (store : MultisetStore MultiSet) :
  newAreLoaded _ (NewMultisetStore MultiSet) /\
  (newAreLoaded _ store ->
   (forall nodeHash ms, newAreLoaded _ (SetMultiset _ store nodeHash ms)) /\
   newAreLoaded _ (ClearNewEntries _ store) /\
   (forall db, newAreLoaded _ (snd (Init _ deserializeMultiset store db))) /\
   (forall order db h db',
      order ≡ₚ elements (new _ store) ->
      FlushToDB MultiSet serializeMultiset order store db
      <> (Some (multisetNotFoundError h), db'))) /\
  (forall nodeHash ms,
     MultisetByBlockNode _ (SetMultiset _ store nodeHash ms) nodeHash = inr ms /\
     forall other, other <> nodeHash ->
       MultisetByBlockNode _ (SetMultiset _ store nodeHash ms) other
       = MultisetByBlockNode _ store other).
Proof.
  split; [intros h Hh; by apply not_elem_of_empty in Hh |].
  split.
  - intros Hinv. split; [| split; [| split]].
    + intros nodeHash ms h Hh. cbn [SetMultiset addToNewBlocks new loaded] in *.
      destruct (decide (h = nodeHash)) as [-> | Hne].
      * rewrite lookup_insert_eq. by eexists.
      * rewrite lookup_insert_ne by done. apply Hinv.
        apply elem_of_union in Hh as [Hh | Hh]; [| done].
        by apply elem_of_singleton in Hh.
    + intros h Hh. by apply not_elem_of_empty in Hh.
    + intros db. unfold Init. generalize (map_to_list db). intros entries.
      revert store Hinv. induction entries as [| [h0 b0] rest IH]; intros store Hinv.
      * done.
      * cbn [initLoop]. destruct (deserializeMultiset b0) as [e | ms]; [done |].
        apply IH. intros h Hh. cbn [new loaded] in *.
        destruct (decide (h = h0)) as [-> | Hne].
        -- rewrite lookup_insert_eq. by eexists.
        -- rewrite lookup_insert_ne by done. by apply Hinv.
    + intros order db h db' Hperm Hrun.
      destruct (FlushToDB_error _ _ _ _ _ Hperm Hrun) as [_ Hnot].
      destruct (Hnot h eq_refl) as [Hh Hnone].
      destruct (Hinv h Hh) as [ms Hms]. congruence.
  - intros nodeHash ms. unfold MultisetByBlockNode, multisetByBlockHash.
    cbn [SetMultiset addToNewBlocks loaded]. split.
    + by rewrite lookup_insert_eq.
    + intros other Hne. by rewrite lookup_insert_ne.
Qed.



End MultisetStoreFacts.

Section MultisetStoreExamples.
Import Multiset.
Local Open Scope Z_scope.






Lemma new_entries_are_loaded_witness :
  newAreLoaded Z (SetMultiset Z (NewMultisetStore Z) 1%N 10).
Proof.
  destruct (new_entries_are_loaded Z exampleSerializeMultiset
              exampleDeserializeMultiset (NewMultisetStore Z))
    as (Hnew & Hkeep & _).
  destruct (Hkeep Hnew) as [Hset _]. apply Hset.
Defined.


End MultisetStoreExamples.
